(** * The prove pass of the SSA back end (cmd/compile/internal/ssa/prove.go)

    A shallow embedding of the relational fact table, of the branch
    classification [getBranch], of the inference rule [simplifyBlock] and of
    the oracle [isNonNegative], followed by the properties the specification
    states about them.

    Conventions of the embedding.
    - Go's [uint] types [relation] and [domain] are [N]; the bit operations
      are [N.land], [N.lor] and [N.lxor]; [ID] (an [int32]) and [AuxInt]
      (an [int64]) are [Z].
    - A [*Value] is an [option]: [None] is the nil pointer.
    - A Go function that can stop with a run-time panic (an index out of
      range, a nil dereference) or that can loop for ever returns an
      [option]; [None] stands for "no value is returned".
    - The slice [ft.stack] is kept top first: the head of the list is the
      last element of the slice, so [append] is a cons and
      [ft.stack[len(ft.stack)-1]] is the head. *)

From stdpp Require Import base option list gmap numbers countable strings.

Open Scope N_scope.

(** ** Relations, domains, branches *)

(** [type relation uint] with [lt], [eq], [gt] = 1, 2, 4.  The constants live
    in a module because [lt] and [eq] are names of the prelude. *)
Abbreviation relation := N (only parsing).

Module Rel.
Definition lt : relation := N.shiftl 1 0.
Definition eq : relation := N.shiftl 1 1.
Definition gt : relation := N.shiftl 1 2.
(** The expression [lt | eq | gt] of the source. *)
Definition any : relation := N.lor (N.lor lt eq) gt.
End Rel.

(** [type domain uint] with [signed], [unsigned], [pointer], [boolean]
    = 1, 2, 4, 8. *)
Abbreviation domain := N (only parsing).

Definition signed : domain := N.shiftl 1 0.
Definition unsigned : domain := N.shiftl 1 1.
Definition pointer : domain := N.shiftl 1 2.
Definition boolean : domain := N.shiftl 1 3.

(** [type branch int] with [unknown], [positive], [negative]; in a module
    because [positive] is the prelude's type of binary positive numbers. *)
Module Branch.
Inductive branch : Set := unknown | positive | negative.
End Branch.

Abbreviation branch := Branch.branch.

#[global] Instance branch_eq_dec : EqDecision branch.
Proof. solve_decision. Defined.

(** [reverseBits = [...]relation{0, 4, 2, 6, 1, 5, 3, 7}]; indexing the array
    out of range is a run-time panic. *)
Definition reverseBits : list relation := [0; 4; 2; 6; 1; 5; 3; 7].

Definition reverseBits_at (r : relation) : option relation :=
  reverseBits !! N.to_nat r.

(** ** The fact table

    The table is generic in the type [V] of the non-nil value pointers; [ID]
    reads the field [v.ID]. *)

Section FactsTable.

Context {V : Type} `{Countable V}.
Variable ID : V → Z.

(** [type pair struct { v, w *Value; d domain }]. *)
Record Pair : Type := mkPair { p_v : option V; p_w : option V; p_d : domain }.

#[global] Instance Pair_eq_dec : EqDecision Pair.
Proof. solve_decision. Defined.

#[global] Instance Pair_countable : Countable Pair.
Proof.
  refine (inj_countable' (λ p, (p_v p, p_w p, p_d p))
                         (λ t, mkPair t.1.1 t.1.2 t.2) _).
  by intros [].
Defined.

(** [type fact struct { p pair; r relation }]. *)
Record fact : Type := mkFact { f_p : Pair; f_r : relation }.

#[global] Instance fact_eq_dec : EqDecision fact.
Proof. solve_decision. Defined.

(** [type factsTable struct { facts map[pair]relation; stack []fact }]. *)
Record factsTable : Type :=
  mkFactsTable { facts : gmap Pair relation; stack : list fact }.

(** [var checkpointFact = fact{}]: the zero value of [fact]. *)
Definition checkpointFact : fact := mkFact (mkPair None None 0) 0.

(** [newFactsTable]: [make([]fact, 4)] is a slice of LENGTH 4, that is four
    zero-valued facts. *)
Definition newFactsTable : factsTable :=
  mkFactsTable ∅ (replicate 4 checkpointFact).

Definition lessByID (v w : option V) : bool :=
  match v, w with
  | None, None => false
  | None, Some _ => true
  | Some v, w =>
      match w with
      | Some w => bool_decide (ID v < ID w)%Z
      | None => false
      end
  end.

(** The value [get] hands to [reverseBits] or returns: the entry of the map,
    or the default [eq] / [lt|eq|gt] of an absent key. *)
Definition lookupD (m : gmap Pair relation) (p : Pair) : relation :=
  match m !! p with
  | Some r => r
  | None => if decide (p_v p = p_w p) then Rel.eq else Rel.any
  end.

Definition get (ft : factsTable) (v w : option V) (d : domain)
  : option relation :=
  let '(v, w, reversed) :=
    if lessByID w v then (w, v, true) else (v, w, false) in
  let p := mkPair v w d in
  let r := lookupD (facts ft) p in
  if reversed : bool then reverseBits_at r else Some r.

Definition update (ft : factsTable) (v w : option V) (d : domain)
  (r : relation) : option factsTable :=
  '(v, w, r) ←
    (if lessByID w v
     then r' ← reverseBits_at r; Some (w, v, r')
     else Some (v, w, r));
  let p := mkPair v w d in
  oldR ← get ft v w d;
  Some (mkFactsTable (<[p := N.land oldR r]> (facts ft))
                     (mkFact p oldR :: stack ft)).

Definition checkpoint (ft : factsTable) : factsTable :=
  mkFactsTable (facts ft) (checkpointFact :: stack ft).

(** One iteration of the body of [restore] after the pop. *)
Definition reinstate (old : fact) (m : gmap Pair relation)
  : gmap Pair relation :=
  if decide (f_r old = Rel.any) then delete (f_p old) m
  else <[f_p old := f_r old]> m.

(** The [for] loop of [restore], by recursion on the stack it pops. *)
Fixpoint restore_loop (m : gmap Pair relation) (st : list fact)
  : option factsTable :=
  match st with
  | [] => None
  | old :: st =>
      if decide (old = checkpointFact) then Some (mkFactsTable m st)
      else restore_loop (reinstate old m) st
  end.

Definition restore (ft : factsTable) : option factsTable :=
  restore_loop (facts ft) (stack ft).

End FactsTable.

Arguments Pair V : clear implicits.
Arguments fact V : clear implicits.
Arguments factsTable V {_ _}.

(** ** Sequences of table operations

    The operations a client performs between a [checkpoint] and the matching
    [restore]: calls of [update] and of [get]. *)

Section Operations.

Context {V : Type} `{Countable V}.
Variable ID : V → Z.

Inductive ftOp : Type :=
  | DoUpdate (v w : option V) (d : domain) (r : relation)
  | DoGet (v w : option V) (d : domain).

(** Runs the calls in order; the result of a [get] is dropped, its panic is
    not. *)
Fixpoint run (ops : list ftOp) (ft : factsTable V) : option (factsTable V) :=
  match ops with
  | [] => Some ft
  | DoUpdate v w d r :: ops => ft' ← update ID ft v w d r; run ops ft'
  | DoGet v w d :: ops => _ ← get ID ft v w d; run ops ft
  end.

(** [checkpoint(); ops; restore()]. *)
Definition bracket (ops : list ftOp) (ft : factsTable V)
  : option (factsTable V) :=
  ft' ← run ops (checkpoint ft); restore ft'.

(** The states of the table a client can reach from [newFactsTable] with the
    public operations, when every call of [update] satisfies [P]. *)
Inductive reachable_by
  (P : option V → option V → domain → relation → Prop)
  : factsTable V → Prop :=
  | reach_new : reachable_by P newFactsTable
  | reach_update ft v w d r ft' :
      reachable_by P ft → P v w d r → update ID ft v w d r = Some ft' →
      reachable_by P ft'
  | reach_checkpoint ft :
      reachable_by P ft → reachable_by P (checkpoint ft)
  | reach_restore ft ft' :
      reachable_by P ft → restore ft = Some ft' → reachable_by P ft'.

Definition reachable : factsTable V → Prop :=
  reachable_by (λ _ _ _ _, True).

End Operations.

Arguments ftOp V : clear implicits.

(** The permutation of the specification: the LT and GT bits of a mask change
    places, the EQ bit stays. *)
Definition swap_lt_gt (r : relation) : relation :=
  N.lor (N.lor (if N.testbit r 0 then Rel.gt else 0) (N.land r Rel.eq))
        (if N.testbit r 2 then Rel.lt else 0).

(** [m] is a subset of [r]: every bit of [m] is a bit of [r]. *)
Definition mask_subset (m r : relation) : Prop :=
  ∀ i, N.testbit m i = true → N.testbit r i = true.

(** ** The SSA values and blocks the pass reads *)

(** Modelled from the spec: the opcode constants are declared in opGen.go,
    which is not part of the sources at hand.  The opcodes prove.go names are
    constructors; [OpOther] stands for every other opcode of the host IR. *)
Inductive Op : Set :=
  | OpEq8 | OpEq16 | OpEq32 | OpEq64 | OpEqPtr | OpNeq8 | OpNeq16 | OpNeq32
  | OpNeq64 | OpNeqPtr | OpLess8 | OpLess8U | OpLess16 | OpLess16U
  | OpLess32 | OpLess32U | OpLess64 | OpLess64U | OpLeq8 | OpLeq8U
  | OpLeq16 | OpLeq16U | OpLeq32 | OpLeq32U | OpLeq64 | OpLeq64U | OpGeq8
  | OpGeq8U | OpGeq16 | OpGeq16U | OpGeq32 | OpGeq32U | OpGeq64 | OpGeq64U
  | OpGreater8 | OpGreater8U | OpGreater16 | OpGreater16U | OpGreater32
  | OpGreater32U | OpGreater64 | OpGreater64U | OpIsInBounds
  | OpIsSliceInBounds | OpConst64 | OpStringLen | OpSliceLen | OpSliceCap
  | OpZeroExt8to64 | OpZeroExt16to64 | OpZeroExt32to64 | OpRsh64x64
  | OpOther (n : N).

#[global] Instance Op_eq_dec : EqDecision Op.
Proof. solve_decision. Defined.

Definition named_ops : list Op :=
  [OpEq8; OpEq16; OpEq32; OpEq64; OpEqPtr; OpNeq8; OpNeq16; OpNeq32;
   OpNeq64; OpNeqPtr; OpLess8; OpLess8U; OpLess16; OpLess16U; OpLess32;
   OpLess32U; OpLess64; OpLess64U; OpLeq8; OpLeq8U; OpLeq16; OpLeq16U;
   OpLeq32; OpLeq32U; OpLeq64; OpLeq64U; OpGeq8; OpGeq8U; OpGeq16;
   OpGeq16U; OpGeq32; OpGeq32U; OpGeq64; OpGeq64U; OpGreater8; OpGreater8U;
   OpGreater16; OpGreater16U; OpGreater32; OpGreater32U; OpGreater64;
   OpGreater64U; OpIsInBounds; OpIsSliceInBounds; OpConst64; OpStringLen;
   OpSliceLen; OpSliceCap; OpZeroExt8to64; OpZeroExt16to64;
   OpZeroExt32to64; OpRsh64x64].

Definition Op_code (o : Op) : N :=
  match o with
  | OpEq8 => 0 | OpEq16 => 1 | OpEq32 => 2 | OpEq64 => 3 | OpEqPtr => 4
  | OpNeq8 => 5 | OpNeq16 => 6 | OpNeq32 => 7 | OpNeq64 => 8
  | OpNeqPtr => 9 | OpLess8 => 10 | OpLess8U => 11 | OpLess16 => 12
  | OpLess16U => 13 | OpLess32 => 14 | OpLess32U => 15 | OpLess64 => 16
  | OpLess64U => 17 | OpLeq8 => 18 | OpLeq8U => 19 | OpLeq16 => 20
  | OpLeq16U => 21 | OpLeq32 => 22 | OpLeq32U => 23 | OpLeq64 => 24
  | OpLeq64U => 25 | OpGeq8 => 26 | OpGeq8U => 27 | OpGeq16 => 28
  | OpGeq16U => 29 | OpGeq32 => 30 | OpGeq32U => 31 | OpGeq64 => 32
  | OpGeq64U => 33 | OpGreater8 => 34 | OpGreater8U => 35
  | OpGreater16 => 36 | OpGreater16U => 37 | OpGreater32 => 38
  | OpGreater32U => 39 | OpGreater64 => 40 | OpGreater64U => 41
  | OpIsInBounds => 42 | OpIsSliceInBounds => 43 | OpConst64 => 44
  | OpStringLen => 45 | OpSliceLen => 46 | OpSliceCap => 47
  | OpZeroExt8to64 => 48 | OpZeroExt16to64 => 49 | OpZeroExt32to64 => 50
  | OpRsh64x64 => 51
  | OpOther n => 52 + n
  end.

Definition Op_of_code (n : N) : Op :=
  match named_ops !! N.to_nat n with
  | Some o => o
  | None => OpOther (n - 52)
  end.

#[global] Instance Op_countable : Countable Op.
Proof.
  refine (inj_countable' Op_code Op_of_code _).
  intros [].
  all: try reflexivity.
  unfold Op_of_code, Op_code.
  rewrite lookup_ge_None_2 by (simpl; lia).
  f_equal. lia.
Defined.

(** The fields of [Value] the pass reads.  Values are immutable during the
    pass and an argument is never nil, so a value is the tree of its
    arguments; a [*Value] is an [option Value], and two pointers are equal
    when the values are (IDs are unique within a function). *)
#[local] Unset Elimination Schemes.
Inductive Value : Type :=
  mkValue { ID : Z; VOp : Op; AuxInt : Z; Args : list Value }.
#[local] Set Elimination Schemes.

(** Values are keys of the fact table: an injection into stdpp's countable
    trees gives the decidable equality and the [Countable] instance that
    [gmap] asks for. *)
Fixpoint Value_to_tree (v : Value) : gen_tree (Z * Op * Z) :=
  GenNode 0 (GenLeaf (ID v, VOp v, AuxInt v) :: map Value_to_tree (Args v)).

Fixpoint Value_of_tree (t : gen_tree (Z * Op * Z)) : Value :=
  match t with
  | GenNode _ (GenLeaf (i, o, a) :: ts) =>
      mkValue i o a (map Value_of_tree ts)
  | _ => mkValue 0 (OpOther 0) 0 []
  end.

Lemma Value_of_to_tree (v : Value) : Value_of_tree (Value_to_tree v) = v.
Proof.
  revert v. fix IH 1. intros [i o a args]. simpl. f_equal.
  revert args. fix IHargs 1. intros [|x args]; simpl.
  - reflexivity.
  - f_equal; [apply IH | apply IHargs].
Qed.

#[global] Instance Value_eq_dec : EqDecision Value.
Proof.
  refine (λ x y, cast_if (decide (Value_to_tree x = Value_to_tree y))).
  - rewrite <- (Value_of_to_tree x), <- (Value_of_to_tree y). congruence.
  - congruence.
Defined.

#[global] Instance Value_countable : Countable Value.
Proof.
  exact (inj_countable' Value_to_tree Value_of_tree Value_of_to_tree).
Defined.

Definition domainRelationTable (o : Op) : option (domain * relation) :=
  match o with
  | OpEq8 => Some (N.lor signed unsigned, Rel.eq)
  | OpEq16 => Some (N.lor signed unsigned, Rel.eq)
  | OpEq32 => Some (N.lor signed unsigned, Rel.eq)
  | OpEq64 => Some (N.lor signed unsigned, Rel.eq)
  | OpEqPtr => Some (pointer, Rel.eq)
  | OpNeq8 => Some (N.lor signed unsigned, N.lor Rel.lt Rel.gt)
  | OpNeq16 => Some (N.lor signed unsigned, N.lor Rel.lt Rel.gt)
  | OpNeq32 => Some (N.lor signed unsigned, N.lor Rel.lt Rel.gt)
  | OpNeq64 => Some (N.lor signed unsigned, N.lor Rel.lt Rel.gt)
  | OpNeqPtr => Some (pointer, N.lor Rel.lt Rel.gt)
  | OpLess8 => Some (signed, Rel.lt)
  | OpLess8U => Some (unsigned, Rel.lt)
  | OpLess16 => Some (signed, Rel.lt)
  | OpLess16U => Some (unsigned, Rel.lt)
  | OpLess32 => Some (signed, Rel.lt)
  | OpLess32U => Some (unsigned, Rel.lt)
  | OpLess64 => Some (signed, Rel.lt)
  | OpLess64U => Some (unsigned, Rel.lt)
  | OpLeq8 => Some (signed, N.lor Rel.lt Rel.eq)
  | OpLeq8U => Some (unsigned, N.lor Rel.lt Rel.eq)
  | OpLeq16 => Some (signed, N.lor Rel.lt Rel.eq)
  | OpLeq16U => Some (unsigned, N.lor Rel.lt Rel.eq)
  | OpLeq32 => Some (signed, N.lor Rel.lt Rel.eq)
  | OpLeq32U => Some (unsigned, N.lor Rel.lt Rel.eq)
  | OpLeq64 => Some (signed, N.lor Rel.lt Rel.eq)
  | OpLeq64U => Some (unsigned, N.lor Rel.lt Rel.eq)
  | OpGeq8 => Some (signed, N.lor Rel.eq Rel.gt)
  | OpGeq8U => Some (unsigned, N.lor Rel.eq Rel.gt)
  | OpGeq16 => Some (signed, N.lor Rel.eq Rel.gt)
  | OpGeq16U => Some (unsigned, N.lor Rel.eq Rel.gt)
  | OpGeq32 => Some (signed, N.lor Rel.eq Rel.gt)
  | OpGeq32U => Some (unsigned, N.lor Rel.eq Rel.gt)
  | OpGeq64 => Some (signed, N.lor Rel.eq Rel.gt)
  | OpGeq64U => Some (unsigned, N.lor Rel.eq Rel.gt)
  | OpGreater8 => Some (signed, Rel.gt)
  | OpGreater8U => Some (unsigned, Rel.gt)
  | OpGreater16 => Some (signed, Rel.gt)
  | OpGreater16U => Some (unsigned, Rel.gt)
  | OpGreater32 => Some (signed, Rel.gt)
  | OpGreater32U => Some (unsigned, Rel.gt)
  | OpGreater64 => Some (signed, Rel.gt)
  | OpGreater64U => Some (unsigned, Rel.gt)
  | OpIsInBounds => Some (unsigned, Rel.lt)
  | OpIsSliceInBounds => Some (unsigned, N.lor Rel.lt Rel.eq)
  | _ => None
  end.

(** [isNonNegative]; [v.Args[0]] of a value without arguments is a run-time
    panic. *)
Fixpoint isNonNegative (v : Value) : option bool :=
  match VOp v with
  | OpConst64 => Some (bool_decide (0 ≤ AuxInt v)%Z)
  | OpStringLen | OpSliceLen | OpSliceCap
  | OpZeroExt8to64 | OpZeroExt16to64 | OpZeroExt32to64 => Some true
  | OpRsh64x64 =>
      match Args v with
      | a :: _ => isNonNegative a
      | [] => None
      end
  | _ => Some false
  end.

(** Modelled from the spec: the block kinds are declared in opGen.go, which
    is not part of the sources at hand; the pass names [BlockIf] and
    [BlockFirst]. *)
Inductive BlockKind : Set := BlockIf | BlockFirst | BlockKindOther (n : N).

#[global] Instance BlockKind_eq_dec : EqDecision BlockKind.
Proof. solve_decision. Defined.

(** A diagnostic: [b.Func.Config.Warnl(b.Line, format, op)]. *)
Inductive Warning : Type := Warnl (line : Z) (format : string) (op : Op).

(** The [uint] shift [d <<= 1], on a 64-bit target. *)
Definition shl1 (d : domain) : domain := N.shiftl d 1 mod 2 ^ 64.

Section Blocks.

(** [B] is the type of the non-nil block pointers; the variables below read
    the fields of a block.  The control flow graph has cycles, so a block
    is not a tree. *)
Context {B : Type}.
Variable Kind : B → BlockKind.
Variable Control : B → option Value.
Variable Succs : B → list B.
Variable Preds : B → list B.
(** [b.Func.pass.debug] and [b.Line]. *)
Variable debug : B → Z.
Variable Line : B → Z.

(** Modelled from the spec: the sparse dominator tree and its query
    [isAncestorEq] (does the first block dominate or equal the second) are
    declared in sparsetree.go, which is not part of the sources at hand. *)
Context {sparseTree : Type}.
Variable isAncestorEq : sparseTree → B → B → bool.

Definition getBranch (sdom : sparseTree) (p : option B) (b : B)
  : option branch :=
  match p with
  | None => Some Branch.unknown
  | Some p =>
      if decide (Kind p ≠ BlockIf) then Some Branch.unknown
      else
        s0 ← Succs p !! 0%nat;
        if isAncestorEq sdom s0 b && bool_decide (length (Preds s0) = 1%nat)
        then Some Branch.positive
        else
          s1 ← Succs p !! 1%nat;
          if isAncestorEq sdom s1 b && bool_decide (length (Preds s1) = 1%nat)
          then Some Branch.negative
          else Some Branch.unknown
  end.

(** The condition of the specification on a successor [s] of the immediate
    dominator: [s] dominates or equals [b] and has exactly one
    predecessor. *)
Definition sole_way (sdom : sparseTree) (s b : B) : Prop :=
  isAncestorEq sdom s b = true ∧ length (Preds s) = 1%nat.

(** The [if b.Func.pass.debug > 0 { Warnl(...) }] of a [return]. *)
Definition warn (b : B) (format : string) (o : Op) : list Warning :=
  if bool_decide (0 < debug b)%Z then [Warnl (Line b) format o] else [].

(** The same when the opcode is read through [b.Control.Op]: with a nil
    control the read panics, and it happens only when [debug > 0]. *)
Definition warn_control (b : B) (format : string) : option (list Warning) :=
  if bool_decide (0 < debug b)%Z
  then c ← Control b; Some [Warnl (Line b) format (VOp c)]
  else Some [].

(** The [for d := domain(1); d <= tr.d; d <<= 1] loop of [simplifyBlock].
    The result is [Some (Some x)] when the body returns [x], [Some None] when
    the loop ends without a return, and [None] when a call panics or the fuel
    runs out. *)
Fixpoint simplify_domains (fuel : nat) (ft : factsTable Value) (b : B)
  (c a0 a1 : Value) (tr : domain * relation) (d : domain)
  : option (option (branch * list Warning)) :=
  match fuel with
  | O => None
  | S fuel =>
      if bool_decide (d ≤ tr.1) then
        if decide (N.land d tr.1 = 0)
        then simplify_domains fuel ft b c a0 a1 tr (shl1 d)
        else
          m ← get ID ft (Some a0) (Some a1) d;
          if bool_decide (m ≠ 0) && bool_decide (N.land tr.2 m = m)
          then Some (Some (Branch.positive, warn b "Proved %s" (VOp c)))
          else if bool_decide (m ≠ 0)
                  && bool_decide (N.land (N.lxor Rel.any tr.2) m = m)
          then Some (Some (Branch.negative, warn b "Disproved %s" (VOp c)))
          else simplify_domains fuel ft b c a0 a1 tr (shl1 d)
      else Some None
  end.

(** [simplifyBlock] returns the branch and the diagnostics it emitted.  The
    loop gets 64 units of fuel: [d] takes the values [2^0 .. 2^63] and is [0]
    from then on, so a loop that has not ended after 64 tests of
    [d <= tr.d] never ends. *)
Definition simplifyBlock (ft : factsTable Value) (b : B)
  : option (branch * list Warning) :=
  if decide (Kind b ≠ BlockIf) then Some (Branch.unknown, [])
  else
    m ← get ID ft None (Control b) boolean;
    if decide (m = N.lor Rel.lt Rel.gt)
    then w ← warn_control b "Proved boolean %s"; Some (Branch.positive, w)
    else if decide (m = Rel.eq)
    then w ← warn_control b "Disproved boolean %s"; Some (Branch.negative, w)
    else
      c ← Control b;
      match domainRelationTable (VOp c) with
      | None => Some (Branch.unknown, [])
      | Some tr =>
          a0 ← Args c !! 0%nat;
          a1 ← Args c !! 1%nat;
          res ← simplify_domains 64 ft b c a0 a1 tr 1;
          match res with
          | Some x => Some x
          | None =>
              nn ← (if bool_decide (VOp c = OpIsInBounds)
                       || bool_decide (VOp c = OpIsSliceInBounds)
                    then isNonNegative a0 else Some false);
              if nn : bool then
                m ← get ID ft (Some a0) (Some a1) signed;
                if bool_decide (m ≠ 0) && bool_decide (N.land tr.2 m = m)
                then Some (Branch.positive,
                           warn b "Proved non-negative bounds %s" (VOp c))
                else Some (Branch.unknown, [])
              else Some (Branch.unknown, [])
          end
      end.

(** The loop of [simplifyBlock] on the masks [get] returned, in the order of
    the domains: the first mask that passes one of the two tests decides. *)
Fixpoint scan_masks (b : B) (c : Value) (r_pos : relation)
  (ms : list relation) : option (branch * list Warning) :=
  match ms with
  | [] => None
  | m :: ms =>
      if bool_decide (m ≠ 0) && bool_decide (N.land r_pos m = m)
      then Some (Branch.positive, warn b "Proved %s" (VOp c))
      else if bool_decide (m ≠ 0)
              && bool_decide (N.land (N.lxor Rel.any r_pos) m = m)
      then Some (Branch.negative, warn b "Disproved %s" (VOp c))
      else scan_masks b c r_pos ms
  end.

End Blocks.

(** ** The notions of the specification *)

(** [complement(r)] is [ANY ^ r]. *)
Definition complement (r : relation) : relation := N.lxor Rel.any r.

(** The single-bit domains of a union of domains, in ascending bit order. *)
Definition domain_bits (t : domain) : list domain :=
  filter (λ d, N.land d t ≠ 0) [signed; unsigned; pointer; boolean].


(** The values the specification calls non-negative: a 64-bit constant with
    a payload that is at least 0, a length or a capacity of a string or a
    slice, a zero-extension to 64 bits, and a right shift of a non-negative
    left operand. *)
Inductive NonNegative : Value → Prop :=
  | nn_const v :
      VOp v = OpConst64 → (0 ≤ AuxInt v)%Z → NonNegative v
  | nn_length v :
      VOp v ∈ [OpStringLen; OpSliceLen; OpSliceCap] → NonNegative v
  | nn_zero_ext v :
      VOp v ∈ [OpZeroExt8to64; OpZeroExt16to64; OpZeroExt32to64] →
      NonNegative v
  | nn_shift v a rest :
      VOp v = OpRsh64x64 → Args v = a :: rest → NonNegative a →
      NonNegative v.

(** The IR invariant [isNonNegative] relies on: a right shift has its left
    operand, and so has every shift below it on the left. *)
Inductive shifts_have_operands : Value → Prop :=
  | sho_shift v a rest :
      VOp v = OpRsh64x64 → Args v = a :: rest → shifts_have_operands a →
      shifts_have_operands v
  | sho_other v : VOp v ≠ OpRsh64x64 → shifts_have_operands v.

(** The two bounds-check opcodes. *)
Definition is_bounds_check (o : Op) : Prop :=
  o = OpIsInBounds ∨ o = OpIsSliceInBounds.


(** ** Auxiliary notions of the proofs *)

Section Invariant.

Context {V : Type} `{Countable V}.
Variable ID : V → Z.

(** What holds of every entry of the map and of the undo stack in a
    reachable table: the pair is in canonical order, the mask has three
    bits, and the mask of a pair [(v, v, d)] is inside [eq]. *)
Definition entry_ok (p : Pair V) (r : relation) : Prop :=
  lessByID ID (p_w p) (p_v p) = false
  ∧ r ≤ 7
  ∧ (p_v p = p_w p → N.land r Rel.eq = r).

Definition table_ok (ft : factsTable V) : Prop :=
  map_Forall entry_ok (facts ft)
  ∧ Forall (λ f, entry_ok (f_p f) (f_r f)) (stack ft).

(** The same with the mask of a pair [(v, v, d)] equal to [eq]; the
    checkpoint marker is the one exception on the stack. *)
Definition entry_eq (p : Pair V) (r : relation) : Prop :=
  p_v p = p_w p → r = Rel.eq.

Definition table_eq (ft : factsTable V) : Prop :=
  map_Forall entry_eq (facts ft)
  ∧ Forall (λ f, f = checkpointFact ∨ entry_eq (f_p f) (f_r f)) (stack ft).

(** The entry of the map [restore] leaves behind for a saved mask. *)
Definition saved (r : relation) : option relation :=
  if decide (r = Rel.any) then None else Some r.

(** The mask of the deepest entry for the pair [q] in a segment of the
    stack: the one [restore] reinstates last. *)
Fixpoint oldest (es : list (fact V)) (q : Pair V) : option relation :=
  match es with
  | [] => None
  | e :: es =>
      match oldest es q with
      | Some r => Some r
      | None => if decide (f_p e = q) then Some (f_r e) else None
      end
  end.

(** Popping and reinstating a whole segment of the stack. *)
Definition undo (es : list (fact V)) (m : gmap (Pair V) relation)
  : gmap (Pair V) relation :=
  foldl (λ m e, reinstate e m) m es.

(** The pair [update] and [get] work on after the swap. *)
Definition canon (v w : option V) (d : domain) : Pair V :=
  if lessByID ID w v then mkPair w v d else mkPair v w d.


(** The state between the [checkpoint] of [ft0] and the [restore]: the
    stack is a segment [es] of entries of [update] on top of the marker, and
    the entry [restore] reinstates last for a pair holds the mask [ft0] had
    for it; a pair without entry is as in [ft0]. *)
Definition in_bracket (ft0 ft : factsTable V) (es : list (fact V)) : Prop :=
  stack ft = es ++ checkpointFact :: stack ft0
  ∧ Forall (λ e, e ≠ checkpointFact) es
  ∧ ∀ q, match oldest es q with
         | Some r => r = lookupD (facts ft0) q
         | None => facts ft !! q = facts ft0 !! q
         end.

(** An update of [ops] works on the pair [q]. *)
Definition updates (ops : list (ftOp V)) (q : Pair V) : Prop :=
  ∃ v w d r, DoUpdate v w d r ∈ ops ∧ canon v w d = q.

End Invariant.

(** A call of [update] with a domain that is not [0] and a mask of three
    bits, a call of [get] with any arguments. *)
Definition op_ok {V : Type} (o : ftOp V) : Prop :=
  match o with
  | DoUpdate _ _ d r => d ≠ 0 ∧ r ≤ 7
  | DoGet _ _ _ => True
  end.

(** ** The rest of the fact-table interface *)

Section Restrictions.

Context {V : Type} `{Countable V}.
Variable ID : V → Z.

(** The [for i := domain(1); i <= t; i <<= 1] loop of
    [updateRestrictions]; [None] when a call of [update] panics or the fuel
    runs out. *)
Fixpoint updateRestrictions_loop (fuel : nat) (ft : factsTable V)
  (t : domain) (v w : option V) (r : relation) (i : domain)
  : option (factsTable V) :=
  match fuel with
  | O => None
  | S fuel =>
      if bool_decide (i ≤ t) then
        ft' ← (if decide (N.land t i ≠ 0) then update ID ft v w i r
               else Some ft);
        updateRestrictions_loop fuel ft' t v w r (shl1 i)
      else Some ft
  end.

(** [updateRestrictions]; the loop gets 64 units of fuel, as the loop of
    [simplifyBlock] does. *)
Definition updateRestrictions (ft : factsTable V) (t : domain)
  (v w : option V) (r : relation) (br : branch) : option (factsTable V) :=
  if decide (t = 0 ∨ br = Branch.unknown) then Some ft
  else
    let r := if decide (br = Branch.negative) then N.lxor Rel.any r else r in
    updateRestrictions_loop 64 ft t v w r 1.

(** Calls of the four operations that change or read the table, as a client
    such as the dominator walk issues them. *)
Inductive ftCall : Type :=
  | CallUpdate (v w : option V) (d : domain) (r : relation)
  | CallGet (v w : option V) (d : domain)
  | CallCheckpoint
  | CallRestore.

Fixpoint run_calls (cs : list ftCall) (ft : factsTable V)
  : option (factsTable V) :=
  match cs with
  | [] => Some ft
  | CallUpdate v w d r :: cs => ft' ← update ID ft v w d r; run_calls cs ft'
  | CallGet v w d :: cs => _ ← get ID ft v w d; run_calls cs ft
  | CallCheckpoint :: cs => run_calls cs (checkpoint ft)
  | CallRestore :: cs => ft' ← restore ft; run_calls cs ft'
  end.

(** Sequences of calls in which every [restore] closes a [checkpoint] of the
    sequence and every [checkpoint] is closed; the updates have a domain that
    is not [0] and a mask of three bits. *)
Inductive balanced : list ftCall → Prop :=
  | balanced_nil : balanced []
  | balanced_update v w d r cs :
      d ≠ 0 → r ≤ 7 → balanced cs → balanced (CallUpdate v w d r :: cs)
  | balanced_get v w d cs :
      balanced cs → balanced (CallGet v w d :: cs)
  | balanced_bracket cs1 cs2 :
      balanced cs1 → balanced cs2 →
      balanced (CallCheckpoint :: cs1 ++ CallRestore :: cs2).

(** The state inside a bracket, up to the masks [get] reads: as
    [in_bracket], with the pairs without entry in the segment holding the
    mask (not the map entry) they had in [ft0]. *)
Definition in_bracket_obs (ft0 ft : factsTable V) (es : list (fact V))
  : Prop :=
  stack ft = es ++ checkpointFact :: stack ft0
  ∧ Forall (λ e, e ≠ checkpointFact) es
  ∧ ∀ q, match oldest es q with
         | Some r => r = lookupD (facts ft0) q
         | None => lookupD (facts ft) q = lookupD (facts ft0) q
         end.

(** Two tables with the same undo stack and the same masks. *)
Definition same_table (ft ft' : factsTable V) : Prop :=
  stack ft' = stack ft
  ∧ ∀ q, lookupD (facts ft') q = lookupD (facts ft) q.

End Restrictions.

Arguments ftCall V : clear implicits.

(** The body of [if branch != unknown { ... }] in the descend case of
    [prove]: a checkpoint, the fact that the control of the parent is true
    (or false) in the Boolean domain, and the fact its table entry gives for
    its two arguments.  [parent.Control.Op] of a nil control is a run-time
    panic. *)
Definition learn (ft : factsTable Value) (control : option Value)
  (br : branch) : option (factsTable Value) :=
  let ft := checkpoint ft in
  ft ← updateRestrictions ID ft boolean None control
         (N.lor Rel.lt Rel.gt) br;
  c ← control;
  match domainRelationTable (VOp c) with
  | Some tr =>
      a0 ← Args c !! 0%nat;
      a1 ← Args c !! 1%nat;
      updateRestrictions ID ft tr.1 (Some a0) (Some a1) tr.2 br
  | None => Some ft
  end.

(** The IR invariants [simplifyBlock] and [learn] rely on for a control
    value [c]: a value whose opcode has a table entry has its two arguments,
    and the first argument of a bounds check has the operands of its
    shifts. *)
Definition control_ok (c : Value) : Prop :=
  ∀ tr, domainRelationTable (VOp c) = Some tr →
    ∃ a0 a1, Args c !! 0%nat = Some a0 ∧ Args c !! 1%nat = Some a1
             ∧ (is_bounds_check (VOp c) → shifts_have_operands a0).

(** ** The dominator walk *)

(** [type walkState int] with [descend], [simplify], and the work item
    [type bp struct { block *Block; state walkState }] of [prove]. *)
Inductive walkState : Set := descend | simplify.

Record bp (B : Type) : Type := mkbp { bp_block : B; bp_state : walkState }.

Arguments mkbp {B} _ _.
Arguments bp_block {B} _.
Arguments bp_state {B} _.

(** The fields of the blocks [prove] writes: [b.Kind], [b.Control] and
    [b.Succs], as functions of the block pointer. *)
Record blocks (B : Type) : Type :=
  mkBlocks { b_Kind : B → BlockKind;
             b_Control : B → option Value;
             b_Succs : B → list B }.

Arguments mkBlocks {B} _ _ _.
Arguments b_Kind {B} _ _.
Arguments b_Control {B} _ _.
Arguments b_Succs {B} _ _.

Section Walk.

Context {B : Type} `{EqDecision B} {sparseTree : Type}.
Variable Preds : B → list B.
Variable debug : B → Z.
Variable Line : B → Z.
Variable isAncestorEq : sparseTree → B → B → bool.

(** Modelled from the spec: [dominators], the sparse tree and its queries
    [Child] and [Sibling] (the first child of a block in the dominator tree,
    the next child of the same parent) are declared in dom.go and
    sparsetree.go, which are not part of the sources at hand.  [idom b]
    stands for [idom[b.ID]]. *)
Variable idom : B → option B.
Variable Child : sparseTree → B → option B.
Variable Sibling : sparseTree → B → option B.

(** The assignment [b.field = x] on a field kept as a function of the block
    pointer. *)
Definition set_field {T : Type} (f : B → T) (b : B) (x : T) : B → T :=
  λ b', if decide (b' = b) then x else f b'.

(** The [if succ != unknown { ... }] of the simplify case: the block becomes
    a [BlockFirst] without control ([SetControl(nil)]; the use count of the
    old control is not modelled), and for Negative its first two successors
    change places; [b.Succs[1]] of a shorter list is a run-time panic. *)
Definition rewrite_block (σ : blocks B) (b : B) (succ : branch)
  : option (blocks B) :=
  if decide (succ ≠ Branch.unknown) then
    let kind := set_field (b_Kind σ) b BlockFirst in
    let control := set_field (b_Control σ) b None in
    if decide (succ = Branch.negative) then
      match b_Succs σ b with
      | s0 :: s1 :: rest =>
          Some (mkBlocks kind control
                  (set_field (b_Succs σ) b (s1 :: s0 :: rest)))
      | _ => None
      end
    else Some (mkBlocks kind control (b_Succs σ))
  else Some σ.

(** The loop [for s := sdom.Child(b); s != nil; s = sdom.Sibling(s)], which
    pushes the children on the work stack (kept top first). *)
Fixpoint push_children (fuel : nat) (sdom : sparseTree) (s : option B)
  (work : list (bp B)) : option (list (bp B)) :=
  match s with
  | None => Some work
  | Some s =>
      match fuel with
      | O => None
      | S fuel =>
          push_children fuel sdom (Sibling sdom s) (mkbp s descend :: work)
      end
  end.

(** The loop [for len(work) > 0] of [prove], with the diagnostics emitted so
    far; [None] when a call panics or the fuel runs out. *)
Fixpoint prove_loop (fuel : nat) (sdom : sparseTree) (work : list (bp B))
  (ft : factsTable Value) (σ : blocks B) (out : list Warning)
  : option (factsTable Value * blocks B * list Warning) :=
  match work with
  | [] => Some (ft, σ, out)
  | node :: work =>
      match fuel with
      | O => None
      | S fuel =>
          let parent := idom (bp_block node) in
          branch ← getBranch (b_Kind σ) (b_Succs σ) Preds isAncestorEq sdom
                     parent (bp_block node);
          match bp_state node with
          | descend =>
              ft ← (if decide (branch ≠ Branch.unknown)
                    then p ← parent; learn ft (b_Control σ p) branch
                    else Some ft);
              work ← push_children fuel sdom (Child sdom (bp_block node))
                       (mkbp (bp_block node) simplify :: work);
              prove_loop fuel sdom work ft σ out
          | simplify =>
              res ← simplifyBlock (b_Kind σ) (b_Control σ) debug Line ft
                      (bp_block node);
              σ ← rewrite_block σ (bp_block node) res.1;
              ft ← (if decide (branch ≠ Branch.unknown) then restore ft
                    else Some ft);
              prove_loop fuel sdom work ft σ (out ++ res.2)
          end
      end
  end.

(** [prove(f)] for the function with the entry block [entry], the block
    fields [σ] and the sparse dominator tree [sdom]. *)
Definition prove (fuel : nat) (sdom : sparseTree) (entry : B) (σ : blocks B)
  : option (factsTable Value * blocks B * list Warning) :=
  prove_loop fuel sdom [mkbp entry descend] newFactsTable σ [].

(** A dominator tree as a term, to state what [idom], [Child] and [Sibling]
    describe. *)
#[local] Unset Elimination Schemes.
Inductive dtree : Type := DNode (b : B) (ts : list dtree).
#[local] Set Elimination Schemes.

Definition root (t : dtree) : B := match t with DNode b _ => b end.

Fixpoint nodes (t : dtree) : list B :=
  match t with DNode b ts => b :: concat (map nodes ts) end.

(** [sibling_chain sdom s ts]: starting from [s], [Sibling] goes through the
    roots of [ts] in order and ends with nil. *)
Fixpoint sibling_chain (sdom : sparseTree) (s : option B) (ts : list dtree)
  : Prop :=
  match ts with
  | [] => s = None
  | t :: ts =>
      s = Some (root t) ∧ sibling_chain sdom (Sibling sdom (root t)) ts
  end.

(** [sdom] and [idom] describe the tree [t]: the children of a node are the
    chain of [Child] and [Sibling], and the node is their immediate
    dominator. *)
#[local] Unset Elimination Schemes.
Inductive tree_ok (sdom : sparseTree) : dtree → Prop :=
  | tree_ok_node b ts :
      sibling_chain sdom (Child sdom b) ts →
      Forall (λ t, idom (root t) = Some b) ts →
      Forall (tree_ok sdom) ts →
      tree_ok sdom (DNode b ts).
#[local] Set Elimination Schemes.

(** The block [b] has the same fields in [σ] and in [σ']. *)
Definition agree (σ σ' : blocks B) (b : B) : Prop :=
  b_Kind σ b = b_Kind σ' b ∧ b_Control σ b = b_Control σ' b
  ∧ b_Succs σ b = b_Succs σ' b.

(** The IR invariants the walk relies on at a block: an [If] block has a
    control that satisfies [control_ok] and two successors. *)
Definition block_ok (σ : blocks B) (b : B) : Prop :=
  b_Kind σ b = BlockIf →
  (∃ c, b_Control σ b = Some c ∧ control_ok c)
  ∧ (2 ≤ length (b_Succs σ b))%nat.

(** The block [b] is as it was in [σ0], or [prove] has rewritten it: it was
    an [If] and is a [First] without control, with the successors it had,
    the first two in the same or in the other order. *)
Definition same_or_rewritten (σ0 σ : blocks B) (b : B) : Prop :=
  (b_Kind σ b = b_Kind σ0 b ∧ b_Control σ b = b_Control σ0 b
   ∧ b_Succs σ b = b_Succs σ0 b)
  ∨ (b_Kind σ0 b = BlockIf ∧ b_Kind σ b = BlockFirst
     ∧ b_Control σ b = None
     ∧ (b_Succs σ b = b_Succs σ0 b
        ∨ ∃ s0 s1 rest, b_Succs σ0 b = s0 :: s1 :: rest
                        ∧ b_Succs σ b = s1 :: s0 :: rest)).

(** What the loop does with the work items [items] on top of the work stack
    [W], when they stand for subtrees with the blocks [ns] below the
    immediate dominator [p]: it comes back to [W] with a table that has the
    same stack and masks, the blocks outside [ns] as they were, the blocks
    of [ns] as they were in [σ0] or rewritten, and no diagnostic when
    [debug] is nowhere positive.  At the start the blocks of [ns] and the
    block [p] are as in [σ0]. *)
Definition walked (sdom : sparseTree) (σ0 : blocks B) (p : option B)
  (items : list (bp B)) (ns : list B) : Prop :=
  ∀ W ft σ out,
    reachable ID ft →
    (∀ x, x ∈ ns → agree σ σ0 x) →
    (∀ x, p = Some x → agree σ σ0 x) →
    ∃ ft' σ' ws,
      (∀ fuel,
         prove_loop (2 * length ns + fuel) sdom (items ++ W) ft σ out
         = prove_loop fuel sdom W ft' σ' (out ++ ws))
      ∧ reachable ID ft'
      ∧ same_table ft ft'
      ∧ (∀ x, x ∉ ns → agree σ' σ x)
      ∧ (∀ x, x ∈ ns → same_or_rewritten σ0 σ' x)
      ∧ ((∀ x, ¬ (0 < debug x)%Z) → ws = []).

End Walk.

Arguments dtree B : clear implicits.

(** ** Concrete tables for the examples

    A function whose value pointers are numbers, each value being its own
    ID. *)
Definition example_ID : Z → Z := λ x, x.

(** The table after [update(v1, v2, signed, lt)] on a fresh table. *)
Definition example_table : factsTable Z :=
  default newFactsTable
    (update example_ID newFactsTable (Some 1%Z) (Some 2%Z) signed Rel.lt).

(** The table after [update(v1, v2, signed, lt|eq|gt)] on a fresh table: the
    pair is present with the mask [lt|eq|gt]. *)
Definition example_table_any : factsTable Z :=
  default newFactsTable
    (update example_ID newFactsTable (Some 1%Z) (Some 2%Z) signed Rel.any).

Definition example_ops : list (ftOp Z) :=
  [DoUpdate (Some 2%Z) (Some 1%Z) signed Rel.gt;
   DoGet (Some 2%Z) (Some 1%Z) signed;
   DoUpdate (Some 3%Z) (Some 3%Z) unsigned Rel.eq;
   DoUpdate None (Some 1%Z) boolean (N.lor Rel.lt Rel.gt)].

(** Two values [x] and [y], the condition [Less64 x y], and the table after
    [update(x, y, signed, lt)] on a fresh table: what the walk has installed
    below the true edge of [If (Less64 x y)]. *)
Definition example_x : Value := mkValue 1 (OpOther 0) 0 [].
Definition example_y : Value := mkValue 2 (OpOther 0) 0 [].
Definition example_cond : Value :=
  mkValue 3 OpLess64 0 [example_x; example_y].

Definition example_facts : factsTable Value :=
  default newFactsTable
    (update ID newFactsTable (Some example_x) (Some example_y) signed Rel.lt).



(** The bounds check [IsInBounds i n] of an index [i = SliceLen s], and a
    table in which the Unsigned mask of [(i, n)] is empty and the Signed
    mask is [lt]. *)
Definition example_i : Value := mkValue 8 OpSliceLen 0 [example_x].
Definition example_bounds : Value :=
  mkValue 9 OpIsInBounds 0 [example_i; example_y].

Definition example_dead_bounds : factsTable Value :=
  default newFactsTable
    (ft1 ← update ID newFactsTable (Some example_i) (Some example_y)
             unsigned Rel.lt;
     ft2 ← update ID ft1 (Some example_i) (Some example_y) unsigned Rel.gt;
     update ID ft2 (Some example_i) (Some example_y) signed Rel.lt).

(** A function whose block pointers are numbers: block 0 is an [If] on
    [example_cond] with the successors 1 and 2, each of them with block 0 as
    its one predecessor; a block dominates itself only. *)
Definition example_Kind (b : nat) : BlockKind := BlockIf.
Definition example_Control (b : nat) : option Value := Some example_cond.
Definition example_Control_bounds (b : nat) : option Value :=
  Some example_bounds.
Definition example_Succs (b : nat) : list nat :=
  match b with O => [1; 2]%nat | _ => [] end.
Definition example_Preds (b : nat) : list nat :=
  match b with O => [] | _ => [0]%nat end.
Definition example_debug (b : nat) : Z := 1.
Definition example_Line (b : nat) : Z := Z.of_nat b.
Definition example_isAncestorEq (sdom : unit) (s b : nat) : bool :=
  bool_decide (s = b).

(** [Rsh64x64 (Rsh64x64 (Const64 [5]) x) y]. *)
Definition example_shift : Value :=
  mkValue 6 OpRsh64x64 0
    [mkValue 5 OpRsh64x64 0 [mkValue 4 OpConst64 5 []; example_x];
     example_y].

(** A sequence of calls with a bracket inside. *)
Definition example_calls : list (ftCall Z) :=
  [CallUpdate (Some 2%Z) (Some 1%Z) signed Rel.gt;
   CallCheckpoint;
   CallUpdate (Some 1%Z) (Some 2%Z) signed Rel.eq;
   CallGet (Some 1%Z) (Some 2%Z) signed;
   CallRestore;
   CallUpdate None (Some 1%Z) boolean (N.lor Rel.lt Rel.gt)].

Definition example_calls_values : list (ftCall Value) :=
  [CallUpdate (Some example_x) (Some example_y) signed Rel.gt;
   CallCheckpoint;
   CallUpdate (Some example_x) (Some example_y) unsigned Rel.eq;
   CallRestore].

(** The condition [Less64 x y] once more, as another value. *)
Definition example_cond' : Value :=
  mkValue 10 OpLess64 0 [example_x; example_y].

Definition example_Control' (b : nat) : option Value := Some example_cond'.

(** A function of five blocks: block 0 is an [If] on [example_cond] with the
    successors 1 and 2; block 1, reached from block 0 only, is an [If] on
    [example_cond'] with the successors 3 and 4; the blocks 2, 3 and 4 end
    the function.  Block 0 is the immediate dominator of 1 and 2, block 1
    of 3 and 4. *)
Definition example_fn : blocks nat :=
  mkBlocks
    (λ b, match b with
          | 0%nat | 1%nat => BlockIf
          | _ => BlockKindOther 0
          end)
    (λ b, match b with
          | 0%nat => Some example_cond
          | 1%nat => Some example_cond'
          | _ => None
          end)
    (λ b, match b with
          | 0%nat => [1; 2]%nat
          | 1%nat => [3; 4]%nat
          | _ => []
          end).

Definition example_fn_Preds (b : nat) : list nat :=
  match b with
  | 1%nat | 2%nat => [0%nat]
  | 3%nat | 4%nat => [1%nat]
  | _ => []
  end.

Definition example_fn_idom (b : nat) : option nat :=
  match b with
  | 1%nat | 2%nat => Some 0%nat
  | 3%nat | 4%nat => Some 1%nat
  | _ => None
  end.

Definition example_fn_Child (sdom : unit) (b : nat) : option nat :=
  match b with
  | 0%nat => Some 1%nat
  | 1%nat => Some 3%nat
  | _ => None
  end.

Definition example_fn_Sibling (sdom : unit) (b : nat) : option nat :=
  match b with
  | 1%nat => Some 2%nat
  | 3%nat => Some 4%nat
  | _ => None
  end.

Definition example_fn_isAncestorEq (sdom : unit) (s b : nat) : bool :=
  bool_decide (s = b) || bool_decide (s = 0%nat)
  || (bool_decide (s = 1%nat) && bool_decide (b ∈ [3; 4]%nat)).

Definition example_fn_tree : dtree nat :=
  DNode 0%nat [DNode 1%nat [DNode 3%nat []; DNode 4%nat []]; DNode 2%nat []].

Definition example_fn_quiet (b : nat) : Z := 0.

(** * Properties *)

(** ** The relation algebra *)

Ltac mask_cases r Hr :=
  let C := fresh "C" in
  assert (C : r = 0 ∨ r = 1 ∨ r = 2 ∨ r = 3 ∨ r = 4 ∨ r = 5 ∨ r = 6 ∨ r = 7)
    by lia;
  clear Hr;
  destruct C as [-> | [-> | [-> | [-> | [-> | [-> | [-> | ->]]]]]]].

Lemma reverseBits_at_swap (r : relation) :
  r ≤ 7 → reverseBits_at r = Some (swap_lt_gt r).
Proof. intros Hr. mask_cases r Hr; reflexivity. Qed.

Lemma reverseBits_at_Some (r r' : relation) :
  reverseBits_at r = Some r' → r ≤ 7.
Proof.
  unfold reverseBits_at. intros Hl.
  apply lookup_lt_Some in Hl. simpl in Hl. lia.
Qed.

Lemma swap_lt_gt_le (r : relation) : r ≤ 7 → swap_lt_gt r ≤ 7.
Proof. intros Hr. mask_cases r Hr; vm_compute; discriminate. Qed.

Lemma swap_lt_gt_involutive (r : relation) :
  r ≤ 7 → swap_lt_gt (swap_lt_gt r) = r.
Proof. intros Hr. mask_cases r Hr; reflexivity. Qed.

Lemma swap_lt_gt_land (a b : relation) :
  a ≤ 7 → b ≤ 7 →
  swap_lt_gt (N.land a b) = N.land (swap_lt_gt a) (swap_lt_gt b).
Proof. intros Ha Hb. mask_cases a Ha; mask_cases b Hb; reflexivity. Qed.

Lemma swap_lt_gt_inside_eq (r : relation) :
  N.land r Rel.eq = r → swap_lt_gt r = r.
Proof.
  intros Hr.
  assert (Hle : r ≤ 7).
  { rewrite <- Hr. etrans; [apply N.land_le_r|]. vm_compute. discriminate. }
  revert Hr. mask_cases r Hle; vm_compute; congruence.
Qed.

Lemma inside_eq_cases (r : relation) :
  N.land r Rel.eq = r → r = Rel.eq ∨ r = 0.
Proof.
  intros Hr.
  assert (Hle : r ≤ 7).
  { rewrite <- Hr. etrans; [apply N.land_le_r|]. vm_compute. discriminate. }
  revert Hr. mask_cases r Hle; vm_compute; intros; auto; discriminate.
Qed.

(** ** The fact table *)

Section FactsTableFacts.

Context {V : Type} `{Countable V}.
Variable ID : V → Z.

Implicit Types (v w : option V) (d : domain) (r : relation).
Implicit Types (ft : factsTable V) (p q : Pair V) (m : gmap (Pair V) relation).

Lemma lessByID_asym v w : lessByID ID w v = true → lessByID ID v w = false.
Proof.
  destruct v as [v|], w as [w|]; simpl; try done.
  rewrite bool_decide_eq_true, bool_decide_eq_false. lia.
Qed.

Lemma lessByID_irrefl v : lessByID ID v v = false.
Proof.
  destruct v as [v|]; simpl; [|done].
  rewrite bool_decide_eq_false. lia.
Qed.

Lemma canon_ordered v w d :
  lessByID ID (p_w (canon ID v w d)) (p_v (canon ID v w d)) = false.
Proof.
  unfold canon. destruct (lessByID ID w v) eqn:E; simpl; [|done].
  by apply lessByID_asym.
Qed.

Lemma canon_domain v w d : p_d (canon ID v w d) = d.
Proof. unfold canon. by destruct (lessByID ID w v). Qed.

Lemma get_unfold ft v w d :
  get ID ft v w d =
    if lessByID ID w v
    then reverseBits_at (lookupD (facts ft) (canon ID v w d))
    else Some (lookupD (facts ft) (canon ID v w d)).
Proof. unfold get, canon. by destruct (lessByID ID w v). Qed.

Lemma update_unfold ft v w d r :
  update ID ft v w d r =
    r' ← (if lessByID ID w v then reverseBits_at r else Some r);
    let p := canon ID v w d in
    let old := lookupD (facts ft) p in
    Some (mkFactsTable (<[p := N.land old r']> (facts ft))
                       (mkFact p old :: stack ft)).
Proof.
  unfold update, canon. destruct (lessByID ID w v) eqn:E; simpl.
  - destruct (reverseBits_at r) as [r'|]; simpl; [|done].
    unfold get. by rewrite (lessByID_asym _ _ E).
  - unfold get. by rewrite E.
Qed.

(** *** The invariant of the reachable tables *)

Lemma lookupD_ok m p :
  map_Forall (entry_ok ID) m →
  lessByID ID (p_w p) (p_v p) = false →
  entry_ok ID p (lookupD m p).
Proof.
  intros Hm Hp. unfold lookupD.
  destruct (m !! p) as [r|] eqn:E; [by apply (Hm p r)|].
  split; [done|]. case_decide as Hvw.
  - split; [vm_compute; discriminate | done].
  - split; [vm_compute; discriminate | done].
Qed.

Lemma entry_ok_land p old r :
  entry_ok ID p old → entry_ok ID p (N.land old r).
Proof.
  intros (Hord & Hle & Heq). split; [done|]. split.
  - etrans; [apply N.land_le_l | done].
  - intros Hvw. rewrite <- N.land_assoc, (N.land_comm r), N.land_assoc.
    by rewrite (Heq Hvw).
Qed.

Lemma checkpointFact_ok :
  entry_ok ID (f_p (checkpointFact (V:=V))) (f_r (checkpointFact (V:=V))).
Proof. split; [done|]. split; [vm_compute; discriminate | done]. Qed.

Lemma newFactsTable_ok : table_ok ID (newFactsTable (V:=V)).
Proof.
  split; [apply map_Forall_empty|]. simpl.
  repeat constructor; apply checkpointFact_ok.
Qed.

Lemma update_ok ft v w d r ft' :
  table_ok ID ft → update ID ft v w d r = Some ft' → table_ok ID ft'.
Proof.
  intros [Hm Hs]. rewrite update_unfold. intros Hu.
  apply bind_Some in Hu as (r' & _ & Hu). simpl in Hu.
  injection Hu as <-.
  pose proof (lookupD_ok _ _ Hm (canon_ordered v w d)) as Hold.
  split; simpl.
  - apply map_Forall_insert_2; [by apply entry_ok_land | done].
  - by constructor.
Qed.

Lemma checkpoint_ok ft : table_ok ID ft → table_ok ID (checkpoint ft).
Proof.
  intros [Hm Hs]. split; [done|]. simpl. constructor; [|done].
  apply checkpointFact_ok.
Qed.

Lemma reinstate_ok e m :
  entry_ok ID (f_p e) (f_r e) → map_Forall (entry_ok ID) m →
  map_Forall (entry_ok ID) (reinstate e m).
Proof.
  intros He Hm. unfold reinstate. case_decide.
  - by apply map_Forall_delete.
  - by apply map_Forall_insert_2.
Qed.

Lemma restore_loop_ok m st ft' :
  map_Forall (entry_ok ID) m →
  Forall (λ f, entry_ok ID (f_p f) (f_r f)) st →
  restore_loop m st = Some ft' → table_ok ID ft'.
Proof.
  revert m. induction st as [|e st IH]; intros m Hm Hs; simpl; [done|].
  inversion_clear Hs as [|?? He Hst].
  case_decide.
  - intros [= <-]. by split.
  - apply IH; [by apply reinstate_ok | done].
Qed.

Lemma restore_ok ft ft' :
  table_ok ID ft → restore ft = Some ft' → table_ok ID ft'.
Proof. intros [Hm Hs]. by apply restore_loop_ok. Qed.

Lemma reachable_by_ok P ft : reachable_by ID P ft → table_ok ID ft.
Proof.
  induction 1 as [|ft v w d r ft' _ IH _ Hu|ft _ IH|ft ft' _ IH Hr].
  - apply newFactsTable_ok.
  - by eapply update_ok.
  - by apply checkpoint_ok.
  - by eapply restore_ok.
Qed.

(** *** What [get] and [update] return *)

Lemma lookupD_insert_eq m p r : lookupD (<[p := r]> m) p = r.
Proof. unfold lookupD. by rewrite lookup_insert_eq. Qed.

Lemma lookupD_insert_ne m p q r :
  p ≠ q → lookupD (<[p := r]> m) q = lookupD m q.
Proof. intros Hpq. unfold lookupD. by rewrite lookup_insert_ne. Qed.

Lemma lookupD_canon_ok ft v w d :
  table_ok ID ft → entry_ok ID (canon ID v w d) (lookupD (facts ft) (canon ID v w d)).
Proof. intros [Hm _]. apply lookupD_ok; [done | apply canon_ordered]. Qed.

Lemma get_ok ft v w d :
  table_ok ID ft →
  get ID ft v w d =
    Some (if lessByID ID w v
          then swap_lt_gt (lookupD (facts ft) (canon ID v w d))
          else lookupD (facts ft) (canon ID v w d)).
Proof.
  intros Hft. rewrite get_unfold.
  destruct (lessByID ID w v); [|done].
  apply reverseBits_at_swap. by apply lookupD_canon_ok.
Qed.

Lemma get_le ft v w d r :
  table_ok ID ft → get ID ft v w d = Some r → r ≤ 7.
Proof.
  intros Hft. rewrite (get_ok _ _ _ _ Hft). intros [= <-].
  destruct (lookupD_canon_ok ft v w d Hft) as (_ & Hle & _).
  destruct (lessByID ID w v); [by apply swap_lt_gt_le | done].
Qed.

Lemma update_ok_Some ft v w d r :
  r ≤ 7 →
  update ID ft v w d r =
    Some (mkFactsTable
            (<[canon ID v w d :=
                 N.land (lookupD (facts ft) (canon ID v w d))
                        (if lessByID ID w v then swap_lt_gt r else r)]>
               (facts ft))
            (mkFact (canon ID v w d) (lookupD (facts ft) (canon ID v w d))
               :: stack ft)).
Proof.
  intros Hr. rewrite update_unfold.
  destruct (lessByID ID w v); [|done].
  by rewrite (reverseBits_at_swap _ Hr).
Qed.

Lemma canon_same v d : canon ID v v d = mkPair v v d.
Proof. unfold canon. by rewrite lessByID_irrefl. Qed.

Lemma canon_reflexive v w d :
  p_v (canon ID v w d) = p_w (canon ID v w d) → v = w.
Proof. unfold canon. by destruct (lessByID ID w v). Qed.

Lemma canon_swap v w d :
  (∀ x y, ID x = ID y → x = y) → canon ID w v d = canon ID v w d.
Proof.
  intros Hinj. unfold canon.
  destruct (lessByID ID w v) eqn:E1.
  - by rewrite (lessByID_asym _ _ E1).
  - destruct (lessByID ID v w) eqn:E2; [done|].
    destruct v as [x|], w as [y|]; simpl in *; try done.
    apply bool_decide_eq_false in E1, E2.
    assert (x = y) as -> by (apply Hinj; lia). done.
Qed.

Lemma mask_subset_land_l (a b : relation) : mask_subset (N.land a b) a.
Proof.
  intros i. rewrite N.land_spec. by intros [? _]%andb_true_iff.
Qed.

Lemma mask_subset_refl (a : relation) : mask_subset a a.
Proof. by intros i. Qed.

Lemma mask_subset_land (m r : relation) : mask_subset m r ↔ N.land r m = m.
Proof.
  split.
  - intros Hs. apply N.bits_inj. intros i. rewrite N.land_spec.
    specialize (Hs i). destruct (N.testbit m i); [|apply andb_false_r].
    by rewrite Hs.
  - intros <- i. rewrite N.land_spec. by intros [? _]%andb_true_iff.
Qed.

(** *** States in which every mask of a pair [(v, v, d)] is [eq] *)

Lemma lookupD_eq m p :
  map_Forall entry_eq m → p_v p = p_w p → lookupD m p = Rel.eq.
Proof.
  intros Hm Hp. unfold lookupD.
  destruct (m !! p) as [r|] eqn:E; [by apply (Hm p r)|].
  by rewrite decide_True.
Qed.

Lemma reachable_by_eq ft :
  reachable_by ID (λ v w _ r, v = w → N.land r Rel.eq = Rel.eq) ft →
  table_eq ft.
Proof.
  induction 1 as [|ft v w d r ft' _ [Hm Hs] HP Hu|ft _ [Hm Hs]|ft ft' _ [Hm Hs] Hr].
  - split; [apply map_Forall_empty|]. simpl. repeat constructor.
  - rewrite update_unfold in Hu.
    apply bind_Some in Hu as (r' & Hr' & Hu). simpl in Hu.
    injection Hu as <-. split; simpl.
    + apply map_Forall_insert_2; [|done].
      intros Hp. rewrite (lookupD_eq _ _ Hm Hp).
      apply canon_reflexive in Hp. subst w.
      rewrite lessByID_irrefl in Hr'. injection Hr' as <-.
      rewrite N.land_comm. by apply HP.
    + constructor; [|done]. right. intros Hp. by apply lookupD_eq.
  - split; [done|]. simpl. constructor; [by left | done].
  - unfold restore in Hr. destruct ft as [m st]. simpl in *.
    revert m Hm Hr. induction st as [|e st IH]; intros m Hm; simpl; [done|].
    inversion_clear Hs as [|?? He Hst]. case_decide as Hcp.
    + intros [= <-]. by split.
    + apply IH; [done|]. destruct He as [?|He]; [done|].
      unfold reinstate. case_decide.
      * by apply map_Forall_delete.
      * by apply map_Forall_insert_2.
Qed.

(** *** Narrowing, symmetry, reflexive pairs, nil *)

(** C6: in a reachable table and for a mask [r] of three bits, [update]
    returns, and with [r_prior] the result of [get(v, w, d)] just before
    [update(v, w, d, r)], the result [m] of [get(v, w, d)] just after is a
    subset of [r_prior ∩ r] (it is that intersection); the mask [update]
    stores is a subset of the mask the table held for the pair before. *)
Theorem update_restricts ft v w d r :
  reachable ID ft → r ≤ 7 →
  ∃ r_prior ft' (m : relation),
    get ID ft v w d = Some r_prior
    ∧ update ID ft v w d r = Some ft'
    ∧ get ID ft' v w d = Some m
    ∧ mask_subset m (N.land r_prior r)
    ∧ m = N.land r_prior r
    ∧ ∃ s, facts ft' !! canon ID v w d = Some s
           ∧ mask_subset s (lookupD (facts ft) (canon ID v w d)).
Proof.
  intros Hreach Hr. pose proof (reachable_by_ok _ _ Hreach) as Hft.
  pose proof (update_ok_Some ft v w d r Hr) as Hu.
  pose proof (update_ok _ _ _ _ _ _ Hft Hu) as Hft'.
  destruct (lookupD_canon_ok ft v w d Hft) as (_ & Hle & _).
  eexists _, _, _. split; [by apply get_ok|]. split; [exact Hu|].
  split; [by apply get_ok|]. simpl. rewrite lookupD_insert_eq.
  assert (Hm : (if lessByID ID w v
                then swap_lt_gt
                       (N.land (lookupD (facts ft) (canon ID v w d))
                               (if lessByID ID w v then swap_lt_gt r else r))
                else N.land (lookupD (facts ft) (canon ID v w d))
                            (if lessByID ID w v then swap_lt_gt r else r))
               = N.land (if lessByID ID w v
                         then swap_lt_gt (lookupD (facts ft) (canon ID v w d))
                         else lookupD (facts ft) (canon ID v w d)) r).
  { destruct (lessByID ID w v); [|done].
    rewrite swap_lt_gt_land by (done || by apply swap_lt_gt_le).
    by rewrite swap_lt_gt_involutive. }
  rewrite Hm. split; [apply mask_subset_refl|]. split; [done|].
  eexists. rewrite lookup_insert_eq. split; [done|].
  apply mask_subset_land_l.
Qed.

(** C7: in a reachable table of a function whose values have distinct IDs,
    for all [v], [w] (nil or not) and every domain [d], [get(w, v, d)]
    returns a mask [m] of three bits and [get(v, w, d)] returns
    [reverseBits[m]], the mask [m] with its LT and GT bits swapped. *)
Theorem get_swap_reverse ft v w d :
  (∀ x y, ID x = ID y → x = y) → reachable ID ft →
  ∃ m : relation,
    get ID ft w v d = Some m
       ∧ m ≤ 7
       ∧ reverseBits_at m = Some (swap_lt_gt m)
       ∧ get ID ft v w d = Some (swap_lt_gt m).
Proof.
  intros Hinj Hreach. pose proof (reachable_by_ok _ _ Hreach) as Hft.
  destruct (lookupD_canon_ok ft v w d Hft) as (_ & Hle & Heq).
  eexists. split; [by apply get_ok|].
  assert (Hm : (if lessByID ID v w
                then swap_lt_gt (lookupD (facts ft) (canon ID w v d))
                else lookupD (facts ft) (canon ID w v d)) ≤ 7).
  { eapply get_le; [done | by apply get_ok]. }
  split; [done|]. split; [by apply reverseBits_at_swap|].
  rewrite (get_ok _ _ _ _ Hft), (canon_swap v w d Hinj). f_equal.
  destruct (lessByID ID w v) eqn:E1.
  - by rewrite (lessByID_asym _ _ E1).
  - destruct (lessByID ID v w) eqn:E2.
    + by rewrite swap_lt_gt_involutive.
    + symmetry. apply swap_lt_gt_inside_eq, Heq.
      destruct v as [x|], w as [y|]; simpl in *; try done.
      apply bool_decide_eq_false in E1, E2.
      assert (x = y) as -> by (apply Hinj; lia).
      by rewrite canon_same.
Qed.

(** C8, amended: in every reachable table [get(v, v, d)] returns [eq] or the
    empty mask [0]; it returns [eq] in every table reached by calls of
    [update] whose mask contains [eq] whenever the two values are the
    same. *)
Theorem get_same_value ft v d :
  (reachable ID ft →
   get ID ft v v d = Some Rel.eq ∨ get ID ft v v d = Some 0)
  ∧ (reachable_by ID (λ v w _ r, v = w → N.land r Rel.eq = Rel.eq) ft →
     get ID ft v v d = Some Rel.eq).
Proof.
  split.
  - intros Hreach. pose proof (reachable_by_ok _ _ Hreach) as Hft.
    rewrite (get_ok _ _ _ _ Hft), lessByID_irrefl.
    destruct (lookupD_canon_ok ft v v d Hft) as (_ & _ & Heq).
    destruct (inside_eq_cases _ (Heq ltac:(by rewrite canon_same)))
      as [-> | ->]; auto.
  - intros [Hm _]%reachable_by_eq.
    rewrite get_unfold, lessByID_irrefl. f_equal.
    apply lookupD_eq; [done | by rewrite canon_same].
Qed.

(** C10, amended: [lessByID] puts nil strictly before every value that is
    not nil and is false on two nils; in a reachable table no pair is stored
    with nil as its second and a value as its first component, [get] returns
    when an argument is nil and so does [update] for a mask of three bits,
    which stores the pair with nil first; [get(nil, nil, d)] returns [eq]
    when the table has no entry for [(nil, nil, d)], and [eq] or [0] in
    general. *)
Theorem nil_is_least ft :
  (∀ x, lessByID ID None (Some x) = true
        ∧ lessByID ID (Some x) None = false)
  ∧ lessByID ID None None = false
  ∧ (reachable ID ft →
     (∀ x d, facts ft !! mkPair (Some x) None d = None)
     ∧ (∀ w d, is_Some (get ID ft None w d) ∧ is_Some (get ID ft w None d))
     ∧ (∀ w d r, r ≤ 7 →
          ∃ ft1 ft2,
            update ID ft None w d r = Some ft1
            ∧ update ID ft w None d r = Some ft2
            ∧ is_Some (facts ft1 !! mkPair None w d)
            ∧ is_Some (facts ft2 !! mkPair None w d))
     ∧ (∀ d, facts ft !! mkPair None None d = None →
             get ID ft None None d = Some Rel.eq)
     ∧ (∀ d, get ID ft None None d = Some Rel.eq
             ∨ get ID ft None None d = Some 0)).
Proof.
  split; [done|]. split; [done|].
  intros Hreach. pose proof (reachable_by_ok _ _ Hreach) as Hft.
  split; [|split; [|split; [|split]]].
  - intros x d. destruct (facts ft !! mkPair (Some x) None d) eqn:E; [|done].
    destruct Hft as [Hm _]. by destruct (Hm _ _ E) as [? _].
  - intros w d. rewrite !(get_ok _ _ _ _ Hft). by split.
  - intros w d r Hr.
    assert (Hc1 : canon ID None w d = mkPair None w d).
    { unfold canon. by destruct w. }
    assert (Hc2 : canon ID w None d = mkPair None w d).
    { unfold canon. by destruct w. }
    pose proof (update_ok_Some ft None w d r Hr) as Hu1.
    pose proof (update_ok_Some ft w None d r Hr) as Hu2.
    rewrite Hc1 in Hu1. rewrite Hc2 in Hu2.
    eexists _, _. split; [exact Hu1|]. split; [exact Hu2|].
    simpl. rewrite !lookup_insert_eq. by split.
  - intros d Habs. rewrite get_unfold. simpl. unfold lookupD, canon. simpl.
    by rewrite Habs.
  - intros d. rewrite (get_ok _ _ _ _ Hft). simpl.
    destruct (lookupD_canon_ok ft None None d Hft) as (_ & _ & Heq).
    destruct (inside_eq_cases _ (Heq ltac:(by rewrite canon_same)))
      as [-> | ->]; auto.
Qed.

End FactsTableFacts.

(** ** Checkpoint and restore *)

Section RoundTrip.

Context {V : Type} `{Countable V}.
Variable ID : V → Z.

Implicit Types (v w : option V) (d : domain) (r : relation).
Implicit Types (ft : factsTable V) (p q : Pair V) (m : gmap (Pair V) relation).
Implicit Types (e : fact V) (es st : list (fact V)) (ops : list (ftOp V)).

Lemma reinstate_lookup e m q :
  reinstate e m !! q = if decide (f_p e = q) then saved (f_r e) else m !! q.
Proof.
  unfold reinstate, saved. case_decide as Hr; case_decide as Hq; subst.
  - apply lookup_delete_eq.
  - by apply lookup_delete_ne.
  - apply lookup_insert_eq.
  - by apply lookup_insert_ne.
Qed.

Lemma undo_lookup es m q :
  undo es m !! q =
    match oldest es q with
    | Some r => saved r
    | None => m !! q
    end.
Proof.
  revert m. induction es as [|e es IH]; intros m; simpl; [done|].
  unfold undo in *. rewrite IH.
  destruct (oldest es q); [done|].
  rewrite reinstate_lookup. by case_decide.
Qed.

Lemma restore_loop_cons e m st :
  restore_loop m (e :: st) =
    if decide (e = checkpointFact) then Some (mkFactsTable m st)
    else restore_loop (reinstate e m) st.
Proof. reflexivity. Qed.

Lemma restore_loop_undo es m st :
  Forall (λ e, e ≠ checkpointFact) es →
  restore_loop m (es ++ checkpointFact :: st)
  = Some (mkFactsTable (undo es m) st).
Proof.
  revert m. induction es as [|e es IH]; intros m Hes; simpl app.
  - rewrite restore_loop_cons. by rewrite decide_True.
  - inversion_clear Hes as [|?? He Hes']. rewrite restore_loop_cons.
    rewrite decide_False by done. by apply IH.
Qed.

Lemma oldest_Some es q r :
  oldest es q = Some r → ∃ e, e ∈ es ∧ f_p e = q.
Proof.
  induction es as [|e es IH]; simpl; [done|].
  destruct (oldest es q) as [r'|] eqn:E.
  - intros [= <-]. destruct (IH eq_refl) as (e' & ? & ?).
    exists e'. split; [by right | done].
  - case_decide; [|done]. intros _. exists e. split; [by left | done].
Qed.

Lemma run_in_bracket ft0 ops ft es :
  Forall op_ok ops → table_ok ID ft → in_bracket ft0 ft es →
  ∃ ft' es',
    run ID ops ft = Some ft'
    ∧ in_bracket ft0 ft' (es' ++ es)
    ∧ Forall (λ e, updates ID ops (f_p e)) es'.
Proof.
  intros Hops. revert ft es.
  induction Hops as [|o ops Ho Hops IH]; intros ft es Hft Hin.
  { exists ft, []. split; [done|]. split; [done | constructor]. }
  destruct o as [v w d r | v w d]; simpl.
  - destruct Ho as [Hd Hr].
    pose proof (update_ok_Some ID ft v w d r Hr) as Hu.
    pose proof (update_ok ID _ _ _ _ _ _ Hft Hu) as Hft1.
    rewrite Hu. simpl.
    set (p := canon ID v w d) in *.
    set (old := lookupD (facts ft) p) in *.
    match type of Hft1 with table_ok _ ?t => set (ft1 := t) in * end.
    destruct (IH ft1 (mkFact p old :: es) Hft1) as (ft' & es' & Hrun & Hin' & Hes').
    { destruct Hin as (Hst & Hcp & Hold). split; [|split].
      - simpl. by rewrite Hst.
      - constructor; [|done]. intros Heq.
        apply (f_equal (λ e, p_d (f_p e))) in Heq. simpl in Heq.
        unfold p in Heq. by rewrite canon_domain in Heq.
      - intros q. specialize (Hold q). simpl.
        destruct (oldest es q) as [r0|]; [done|].
        case_decide as Hpq.
        + subst q. unfold old, lookupD. by rewrite Hold.
        + simpl. by rewrite lookup_insert_ne. }
    exists ft', (es' ++ [mkFact p old]). split; [done|]. split.
    + by rewrite <- app_assoc.
    + apply Forall_app. split.
      * eapply Forall_impl; [exact Hes'|]. intros e (v' & w' & d' & r' & ? & ?).
        exists v', w', d', r'. split; [by right | done].
      * constructor; [|done]. exists v, w, d, r. split; [by left | done].
  - rewrite (get_ok ID _ _ _ _ Hft). simpl.
    destruct (IH ft es Hft Hin) as (ft' & es' & Hrun & Hin' & Hes').
    exists ft', es'. split; [done|]. split; [done|].
    eapply Forall_impl; [exact Hes'|]. intros e (v' & w' & d' & r' & ? & ?).
    exists v', w', d', r'. split; [by right | done].
Qed.

(** What a bracket does to the table: the stack is the one before, and an
    entry of the map is the one before, or the saved form of the mask the
    pair had before when an update of the bracket worked on the pair. *)
Lemma bracket_lookup ops ft :
  table_ok ID ft → Forall op_ok ops →
  ∃ ft',
    bracket ID ops ft = Some ft'
    ∧ stack ft' = stack ft
    ∧ ∀ q, facts ft' !! q = facts ft !! q
           ∨ (updates ID ops q
              ∧ facts ft' !! q = saved (lookupD (facts ft) q)).
Proof.
  intros Hft Hops.
  destruct (run_in_bracket ft ops (checkpoint ft) [] Hops) as (ft1 & es & Hrun & Hin & Hes).
  { by apply checkpoint_ok. }
  { split; [done|]. split; [constructor|]. by intros q. }
  rewrite app_nil_r in Hin. destruct Hin as (Hst & Hcp & Hold).
  unfold bracket. rewrite Hrun. simpl. unfold restore. rewrite Hst.
  rewrite restore_loop_undo by done.
  eexists. split; [done|]. split; [done|]. simpl.
  intros q. rewrite undo_lookup. specialize (Hold q).
  destruct (oldest es q) as [r|] eqn:E; [|by left].
  right. subst r. split; [|done].
  destruct (oldest_Some _ _ _ E) as (e & He & <-).
  by apply (proj1 (Forall_forall _ _) Hes).
Qed.

Lemma lookupD_saved ft m' q :
  table_ok ID ft →
  m' !! q = saved (lookupD (facts ft) q) →
  lookupD m' q = lookupD (facts ft) q.
Proof.
  intros [Hm _] Hq. unfold lookupD at 1. rewrite Hq. unfold saved.
  case_decide as Hany; [|done].
  case_decide as Hvw; [|done]. exfalso.
  assert (Hord : lessByID ID (p_w q) (p_v q) = false).
  { rewrite Hvw. apply lessByID_irrefl. }
  destruct (lookupD_ok ID _ _ Hm Hord) as (_ & _ & Heq).
  specialize (Heq Hvw). rewrite Hany in Heq. vm_compute in Heq. discriminate.
Qed.

(** C1: from a reachable table, for every sequence [ops] of calls of
    [update] (with a domain that is not 0 and a mask of three bits) and of
    [get], the bracket [checkpoint(); ops; restore()] returns a table on
    which every probe [get(v, w, d)] returns, and returns the mask it
    returned just before the checkpoint. *)
Theorem bracket_preserves_get ops ft :
  reachable ID ft → Forall op_ok ops →
  ∃ ft',
    bracket ID ops ft = Some ft'
    ∧ ∀ v w d, is_Some (get ID ft v w d)
               ∧ get ID ft' v w d = get ID ft v w d.
Proof.
  intros Hreach Hops. pose proof (reachable_by_ok ID _ _ Hreach) as Hft.
  destruct (bracket_lookup ops ft Hft Hops) as (ft' & Hb & _ & Hq).
  exists ft'. split; [done|]. intros v w d.
  split; [by rewrite (get_ok ID _ _ _ _ Hft)|].
  rewrite !get_unfold.
  assert (Hl : lookupD (facts ft') (canon ID v w d)
               = lookupD (facts ft) (canon ID v w d)).
  { destruct (Hq (canon ID v w d)) as [Hsame | [_ Hsaved]].
    - unfold lookupD. by rewrite Hsame.
    - by apply lookupD_saved. }
  by rewrite Hl.
Qed.

Lemma oldest_elem es q e :
  e ∈ es → f_p e = q → is_Some (oldest es q).
Proof.
  induction es as [|e' es IH]; intros He Hq; [by apply elem_of_nil in He|].
  simpl. destruct (oldest es q) as [r|] eqn:E; [done|].
  apply elem_of_cons in He as [<- | He].
  - by rewrite decide_True.
  - destruct (IH He Hq) as [r Hr]. discriminate Hr.
Qed.

(** Every update of a sequence that returns has pushed a fact for its pair
    on the undo stack. *)
Lemma run_stack ops ft ft' :
  run ID ops ft = Some ft' →
  ∃ es,
    stack ft' = es ++ stack ft
    ∧ ∀ q, updates ID ops q → ∃ e, e ∈ es ∧ f_p e = q.
Proof.
  revert ft. induction ops as [|o ops IH]; intros ft Hrun.
  { injection Hrun as <-. exists []. split; [done|].
    intros q (v & w & d & r & Hin & _). by apply elem_of_nil in Hin. }
  destruct o as [v w d r | v w d]; cbn [run] in Hrun.
  - destruct (update ID ft v w d r) as [ft1|] eqn:Hu; [|discriminate Hrun].
    cbn [mbind option_bind] in Hrun.
    destruct (IH ft1 Hrun) as (es & Hst & Hes).
    rewrite update_unfold in Hu.
    destruct (if lessByID ID w v then reverseBits_at r else Some r)
      as [r'|]; [|discriminate Hu].
    cbn [mbind option_bind] in Hu. cbv zeta in Hu. injection Hu as <-.
    cbn [stack] in Hst.
    exists (es ++ [mkFact (canon ID v w d)
                     (lookupD (facts ft) (canon ID v w d))]).
    split; [by rewrite <- app_assoc|].
    intros q (v' & w' & d' & r'' & Hin & Hq).
    apply elem_of_cons in Hin as [Heq | Hin].
    + injection Heq as -> -> -> ->. eexists. split.
      * apply elem_of_app. right. by left.
      * done.
    + destruct (Hes q) as (e & He & Hpe); [by exists v', w', d', r''|].
      exists e. split; [|done]. apply elem_of_app. by left.
  - destruct (get ID ft v w d) as [m|]; [|discriminate Hrun].
    cbn [mbind option_bind] in Hrun.
    destruct (IH ft Hrun) as (es & Hst & Hes).
    exists es. split; [done|].
    intros q (v' & w' & d' & r' & Hin & Hq).
    apply elem_of_cons in Hin as [Heq | Hin]; [discriminate Heq|].
    apply Hes. by exists v', w', d', r'.
Qed.

(** What a bracket does to the map at a pair an update of the bracket worked
    on: the entry is the saved form of the mask the pair had before. *)
Lemma bracket_lookup_updates ops ft ft' :
  table_ok ID ft → Forall op_ok ops →
  bracket ID ops ft = Some ft' →
  ∀ q, updates ID ops q → facts ft' !! q = saved (lookupD (facts ft) q).
Proof.
  intros Hft Hops Hb q Hup.
  destruct (run_in_bracket ft ops (checkpoint ft) [] Hops)
    as (ft1 & es & Hrun & Hin & _).
  { by apply checkpoint_ok. }
  { split; [done|]. split; [constructor|]. by intros q'. }
  rewrite app_nil_r in Hin. destruct Hin as (Hst & Hcp & Hold).
  destruct (run_stack _ _ _ Hrun) as (es' & Hst' & Hes').
  cbn [checkpoint stack] in Hst'. rewrite Hst in Hst'.
  apply app_inv_tail in Hst'. subst es'.
  unfold bracket in Hb. rewrite Hrun in Hb. cbn [mbind option_bind] in Hb.
  unfold restore in Hb. rewrite Hst, restore_loop_undo in Hb by done.
  injection Hb as <-. cbn [facts]. rewrite undo_lookup.
  destruct (Hes' q Hup) as (e & He & Hpe).
  destruct (oldest_elem es q e He Hpe) as [r Hr].
  specialize (Hold q). rewrite Hr in Hold |- *. by rewrite Hold.
Qed.

(** C4, amended: from a reachable table, a bracket
    [checkpoint(); ops; restore()] returns a table with the undo stack it had
    before, and with the map it had before at every pair no update of the
    bracket worked on.  At a pair an update of the bracket worked on, an
    entry with a mask other than [lt|eq|gt] is reproduced, an entry with the
    mask [lt|eq|gt] is deleted, an absent pair [(v, v, d)] gets an entry
    with the mask [eq], and an absent pair of two different values stays
    absent.  Every [get] returns what it returned before. *)
Theorem bracket_state ops ft :
  reachable ID ft → Forall op_ok ops →
  ∃ ft',
    bracket ID ops ft = Some ft'
    ∧ stack ft' = stack ft
    ∧ (∀ q, ¬ updates ID ops q → facts ft' !! q = facts ft !! q)
    ∧ (∀ q r, updates ID ops q → facts ft !! q = Some r → r ≠ Rel.any →
         facts ft' !! q = Some r)
    ∧ (∀ q, updates ID ops q → facts ft !! q = Some Rel.any →
         facts ft' !! q = None)
    ∧ (∀ q, updates ID ops q → facts ft !! q = None → p_v q = p_w q →
         facts ft' !! q = Some Rel.eq)
    ∧ (∀ q, updates ID ops q → facts ft !! q = None → p_v q ≠ p_w q →
         facts ft' !! q = None)
    ∧ (∀ v w d, get ID ft' v w d = get ID ft v w d).
Proof.
  intros Hreach Hops. pose proof (reachable_by_ok ID _ _ Hreach) as Hft.
  destruct (bracket_lookup ops ft Hft Hops) as (ft' & Hb & Hst & Hq).
  pose proof (bracket_lookup_updates ops ft ft' Hft Hops Hb) as Hup.
  exists ft'. split; [done|]. split; [done|].
  split; [|split; [|split; [|split; [|split]]]].
  - intros q Hno. by destruct (Hq q) as [Hsame | [Hyes _]].
  - intros q r Hq' Hr Hany. rewrite (Hup q Hq').
    unfold lookupD, saved. rewrite Hr. by rewrite decide_False.
  - intros q Hq' Hr. rewrite (Hup q Hq').
    unfold lookupD, saved. rewrite Hr. by rewrite decide_True.
  - intros q Hq' Hr Hvw. rewrite (Hup q Hq').
    unfold lookupD, saved. rewrite Hr.
    rewrite (decide_True (P := p_v q = p_w q)) by done.
    by rewrite decide_False by (vm_compute; discriminate).
  - intros q Hq' Hr Hvw. rewrite (Hup q Hq').
    unfold lookupD, saved. rewrite Hr.
    rewrite (decide_False (P := p_v q = p_w q)) by done.
    by rewrite decide_True.
  - intros v w d. rewrite !get_unfold.
    assert (Hl : lookupD (facts ft') (canon ID v w d)
                 = lookupD (facts ft) (canon ID v w d)).
    { destruct (Hq (canon ID v w d)) as [Hsame | [_ Hsaved]].
      - unfold lookupD. by rewrite Hsame.
      - by apply lookupD_saved. }
    by rewrite Hl.
Qed.

(** C5: the undo stack of a freshly constructed table is not empty: it
    holds the four zero-valued facts of [make([]fact, 4)], each of them equal
    to the checkpoint marker, so that a [restore] without a [checkpoint]
    returns after popping one of them. *)
Theorem newFactsTable_stack :
  stack (newFactsTable (V:=V))
  = [checkpointFact; checkpointFact; checkpointFact; checkpointFact]
  ∧ length (stack (newFactsTable (V:=V))) = 4%nat
  ∧ stack (newFactsTable (V:=V)) ≠ []
  ∧ restore (newFactsTable (V:=V))
    = Some (mkFactsTable ∅ [checkpointFact; checkpointFact; checkpointFact]).
Proof.
  split; [done|]. split; [done|]. split; [done|].
  unfold restore. simpl facts. simpl stack.
  rewrite restore_loop_cons. by rewrite decide_True.
Qed.

End RoundTrip.

(** ** The fact table on concrete inputs *)

Lemma example_table_reachable : reachable example_ID example_table.
Proof.
  eapply reach_update with (ft := newFactsTable) (v := Some 1%Z)
    (w := Some 2%Z) (d := signed) (r := Rel.lt);
    [apply reach_new | done | reflexivity].
Qed.

Lemma example_table_any_reachable : reachable example_ID example_table_any.
Proof.
  eapply reach_update with (ft := newFactsTable) (v := Some 1%Z)
    (w := Some 2%Z) (d := signed) (r := Rel.any);
    [apply reach_new | done | reflexivity].
Qed.

Lemma example_ops_ok : Forall op_ok example_ops.
Proof. repeat constructor; by vm_compute. Qed.

Lemma bracket_preserves_get_witness :
  reachable example_ID example_table
  ∧ Forall op_ok example_ops
  ∧ ∃ ft',
      bracket example_ID example_ops example_table = Some ft'
      ∧ ∀ v w d, is_Some (get example_ID example_table v w d)
                 ∧ get example_ID ft' v w d = get example_ID example_table v w d.
Proof.
  split; [apply example_table_reachable|]. split; [apply example_ops_ok|].
  apply (bracket_preserves_get example_ID example_ops example_table).
  - apply example_table_reachable.
  - apply example_ops_ok.
Defined.

Lemma bracket_state_witness :
  reachable example_ID example_table
  ∧ Forall op_ok example_ops
  ∧ ∃ ft',
      bracket example_ID example_ops example_table = Some ft'
      ∧ stack ft' = stack example_table
      ∧ (∀ q, ¬ updates example_ID example_ops q →
           facts ft' !! q = facts example_table !! q)
      ∧ (∀ q r, updates example_ID example_ops q →
           facts example_table !! q = Some r → r ≠ Rel.any →
           facts ft' !! q = Some r)
      ∧ (∀ q, updates example_ID example_ops q →
           facts example_table !! q = Some Rel.any → facts ft' !! q = None)
      ∧ (∀ q, updates example_ID example_ops q →
           facts example_table !! q = None → p_v q = p_w q →
           facts ft' !! q = Some Rel.eq)
      ∧ (∀ q, updates example_ID example_ops q →
           facts example_table !! q = None → p_v q ≠ p_w q →
           facts ft' !! q = None)
      ∧ (∀ v w d, get example_ID ft' v w d
                  = get example_ID example_table v w d).
Proof.
  split; [apply example_table_reachable|]. split; [apply example_ops_ok|].
  apply (bracket_state example_ID example_ops example_table).
  - apply example_table_reachable.
  - apply example_ops_ok.
Defined.

(** C4 fails as stated: the pair [(v1, v2, signed)] is present with the mask
    [lt|eq|gt]; after [checkpoint(); update(v1, v2, signed, lt|eq|gt);
    restore()] the pair is absent, so the table is not the one before. *)
Lemma bracket_state_counterexample :
  ∃ ft',
    reachable example_ID example_table_any
    ∧ bracket example_ID [DoUpdate (Some 1%Z) (Some 2%Z) signed Rel.any]
        example_table_any = Some ft'
    ∧ facts example_table_any !! mkPair (Some 1%Z) (Some 2%Z) signed
      = Some Rel.any
    ∧ facts ft' !! mkPair (Some 1%Z) (Some 2%Z) signed = None
    ∧ ft' ≠ example_table_any.
Proof.
  eexists. split; [apply example_table_any_reachable|].
  split; [reflexivity|]. split; [reflexivity|]. split; [reflexivity|].
  intros Heq. apply (f_equal (λ ft, facts ft !! mkPair (Some 1%Z) (Some 2%Z) signed)) in Heq.
  vm_compute in Heq. discriminate.
Qed.

Lemma update_restricts_witness :
  reachable example_ID example_table
  ∧ Rel.gt ≤ 7
  ∧ ∃ r_prior ft' (m : relation),
      get example_ID example_table (Some 2%Z) (Some 1%Z) signed = Some r_prior
      ∧ update example_ID example_table (Some 2%Z) (Some 1%Z) signed Rel.gt
        = Some ft'
      ∧ get example_ID ft' (Some 2%Z) (Some 1%Z) signed = Some m
      ∧ mask_subset m (N.land r_prior Rel.gt)
      ∧ m = N.land r_prior Rel.gt
      ∧ ∃ s, facts ft' !! canon example_ID (Some 2%Z) (Some 1%Z) signed = Some s
             ∧ mask_subset s
                 (lookupD (facts example_table)
                    (canon example_ID (Some 2%Z) (Some 1%Z) signed)).
Proof.
  split; [apply example_table_reachable|]. split; [by vm_compute|].
  apply (update_restricts example_ID example_table (Some 2%Z) (Some 1%Z)
           signed Rel.gt).
  - apply example_table_reachable.
  - by vm_compute.
Defined.

Lemma get_swap_reverse_witness :
  (∀ x y, example_ID x = example_ID y → x = y)
  ∧ reachable example_ID example_table
  ∧ ∃ m : relation,
      get example_ID example_table (Some 2%Z) (Some 1%Z) signed = Some m
      ∧ m ≤ 7
      ∧ reverseBits_at m = Some (swap_lt_gt m)
      ∧ get example_ID example_table (Some 1%Z) (Some 2%Z) signed
        = Some (swap_lt_gt m).
Proof.
  split; [by intros x y|]. split; [apply example_table_reachable|].
  apply (get_swap_reverse example_ID example_table (Some 1%Z) (Some 2%Z)
           signed).
  - by intros x y.
  - apply example_table_reachable.
Defined.

Lemma get_same_value_witness :
  reachable example_ID example_table
  ∧ (get example_ID example_table (Some 1%Z) (Some 1%Z) signed = Some Rel.eq
     ∨ get example_ID example_table (Some 1%Z) (Some 1%Z) signed = Some 0).
Proof.
  split; [apply example_table_reachable|].
  apply (get_same_value example_ID example_table (Some 1%Z) signed).
  apply example_table_reachable.
Defined.

(** C8 fails as stated: after [update(v1, v1, signed, lt)] on a fresh table,
    [get(v1, v1, signed)] returns the empty mask, not [eq]. *)
Lemma get_same_value_counterexample :
  ∃ ft,
    update example_ID newFactsTable (Some 1%Z) (Some 1%Z) signed Rel.lt
    = Some ft
    ∧ reachable example_ID ft
    ∧ get example_ID ft (Some 1%Z) (Some 1%Z) signed = Some 0
    ∧ get example_ID ft (Some 1%Z) (Some 1%Z) signed ≠ Some Rel.eq.
Proof.
  eexists. split; [reflexivity|]. split.
  - eapply reach_update with (ft := newFactsTable) (v := Some 1%Z)
      (w := Some 1%Z) (d := signed) (r := Rel.lt);
      [apply reach_new | done | reflexivity].
  - split; [reflexivity | by vm_compute].
Qed.

Lemma nil_is_least_witness :
  reachable example_ID example_table
  ∧ (∀ x d, facts example_table !! mkPair (Some x) None d = None)
  ∧ (∀ d, get example_ID example_table None None d = Some Rel.eq
          ∨ get example_ID example_table None None d = Some 0).
Proof.
  split; [apply example_table_reachable|].
  destruct (nil_is_least example_ID example_table) as (_ & _ & Hnil).
  destruct (Hnil example_table_reachable) as (Hfirst & _ & _ & _ & Hget).
  by split.
Defined.

(** C10 fails as stated: after [update(nil, nil, signed, lt)] on a fresh
    table, [get(nil, nil, signed)] returns the empty mask, not [eq]. *)
Lemma nil_is_least_counterexample :
  ∃ ft,
    update example_ID newFactsTable None None signed Rel.lt = Some ft
    ∧ reachable example_ID ft
    ∧ get example_ID ft None None signed = Some 0
    ∧ get example_ID ft None None signed ≠ Some Rel.eq.
Proof.
  eexists. split; [reflexivity|]. split.
  - eapply reach_update with (ft := newFactsTable) (v := None)
      (w := None) (d := signed) (r := Rel.lt);
      [apply reach_new | done | reflexivity].
  - split; [reflexivity | by vm_compute].
Qed.

(** Why the domain of an update is not [0]: the fact [update] pushes for
    [(nil, nil, 0)] when the pair holds the empty mask is the checkpoint
    marker itself, and [restore] stops at it. *)
Example marker_collision :
  ∃ ft',
    bracket example_ID [DoUpdate None None 0 0; DoUpdate None None 0 0]
      (newFactsTable (V:=Z)) = Some ft'
    ∧ get example_ID newFactsTable None None 0 = Some Rel.eq
    ∧ get example_ID ft' None None 0 = Some 0.
Proof. eexists. split; [reflexivity|]. by split. Qed.

(** ** The non-negativity oracle *)

Lemma Value_ind_args (P : Value → Prop) :
  (∀ v, Forall P (Args v) → P v) → ∀ v, P v.
Proof.
  intros HP. fix IH 1. intros v. apply HP.
  destruct v as [i o a args]. simpl.
  induction args as [|x args IHargs]; constructor; [apply IH | apply IHargs].
Qed.

Lemma isNonNegative_true (v : Value) :
  isNonNegative v = Some true → NonNegative v.
Proof.
  induction v as [v IH] using Value_ind_args.
  destruct v as [i o au args]. simpl in IH.
  destruct o; simpl; intros Hnn; try discriminate.
  - apply nn_const; [done|]. simpl.
    injection Hnn as Hnn. by apply bool_decide_eq_true in Hnn.
  - apply nn_length. simpl. set_solver.
  - apply nn_length. simpl. set_solver.
  - apply nn_length. simpl. set_solver.
  - apply nn_zero_ext. simpl. set_solver.
  - apply nn_zero_ext. simpl. set_solver.
  - apply nn_zero_ext. simpl. set_solver.
  - destruct args as [|a rest]; [done|].
    inversion_clear IH as [|?? Ha _].
    eapply nn_shift; [done | done | by apply Ha].
Qed.

Lemma NonNegative_isNonNegative (v : Value) :
  NonNegative v → isNonNegative v = Some true.
Proof.
  induction 1 as [v Hop Haux | v Hop | v Hop | v a rest Hop Hargs _ IH];
    destruct v as [i o au args]; simpl in *.
  - subst o. simpl. by rewrite bool_decide_eq_true_2.
  - repeat (apply elem_of_cons in Hop as [-> | Hop]); try done.
    by apply elem_of_nil in Hop.
  - repeat (apply elem_of_cons in Hop as [-> | Hop]); try done.
    by apply elem_of_nil in Hop.
  - subst o args. done.
Qed.

Lemma isNonNegative_returns (v : Value) :
  shifts_have_operands v → is_Some (isNonNegative v).
Proof.
  induction 1 as [v a rest Hop Hargs _ IH | v Hop];
    destruct v as [i o au args]; simpl in *.
  - subst o args. done.
  - destruct o; try done; eauto.
Qed.

(** C9: [isNonNegative(v)] returns true exactly for the values the
    specification lists (a 64-bit constant with a payload that is at least 0,
    a string length, a slice length or capacity, a zero-extension to 64
    bits, a right shift whose left operand is, recursively, one of these);
    on a value whose shifts have their operands it returns, and returns
    false for every other value. *)
Theorem isNonNegative_correct (v : Value) :
  (isNonNegative v = Some true ↔ NonNegative v)
  ∧ (shifts_have_operands v →
     is_Some (isNonNegative v)
     ∧ (isNonNegative v = Some false ↔ ¬ NonNegative v)).
Proof.
  split.
  - split; [apply isNonNegative_true | apply NonNegative_isNonNegative].
  - intros Hv. split; [by apply isNonNegative_returns|].
    destruct (isNonNegative_returns v Hv) as [[|] Hb]; rewrite Hb.
    + split; [done|]. intros Hn. destruct Hn. by apply isNonNegative_true.
    + split; [|done]. intros _ Hn.
      apply NonNegative_isNonNegative in Hn. congruence.
Qed.

(** ** The branch taken from the immediate dominator *)

Section BranchFacts.

Context {B sparseTree : Type}.
Variable Kind : B → BlockKind.
Variable Succs : B → list B.
Variable Preds : B → list B.
Variable isAncestorEq : sparseTree → B → B → bool.

(** C3: [getBranch(sdom, p, b)] returns Unknown when [p] is nil or is not an
    [If] block; otherwise Positive when successor 0 of [p] dominates or
    equals [b] and has exactly one predecessor; otherwise Negative when
    successor 1 does; otherwise Unknown. *)
Theorem getBranch_cases (sdom : sparseTree) (b : B) :
  getBranch Kind Succs Preds isAncestorEq sdom None b = Some Branch.unknown
  ∧ (∀ p, Kind p ≠ BlockIf →
       getBranch Kind Succs Preds isAncestorEq sdom (Some p) b
       = Some Branch.unknown)
  ∧ (∀ p s0, Kind p = BlockIf → Succs p !! 0%nat = Some s0 →
       sole_way Preds isAncestorEq sdom s0 b →
       getBranch Kind Succs Preds isAncestorEq sdom (Some p) b
       = Some Branch.positive)
  ∧ (∀ p s0 s1, Kind p = BlockIf →
       Succs p !! 0%nat = Some s0 → Succs p !! 1%nat = Some s1 →
       ¬ sole_way Preds isAncestorEq sdom s0 b →
       (sole_way Preds isAncestorEq sdom s1 b →
        getBranch Kind Succs Preds isAncestorEq sdom (Some p) b
        = Some Branch.negative)
       ∧ (¬ sole_way Preds isAncestorEq sdom s1 b →
          getBranch Kind Succs Preds isAncestorEq sdom (Some p) b
          = Some Branch.unknown)).
Proof.
  assert (Htest : ∀ s,
    isAncestorEq sdom s b && bool_decide (length (Preds s) = 1%nat) = true
    ↔ sole_way Preds isAncestorEq sdom s b).
  { intros s. unfold sole_way.
    by rewrite andb_true_iff, bool_decide_eq_true. }
  split; [done|]. split; [|split].
  - intros p Hk. simpl. by rewrite decide_True.
  - intros p s0 Hk H0 Ht. simpl.
    rewrite decide_False by (by rewrite Hk; intros []).
    rewrite H0. simpl. apply Htest in Ht. by rewrite Ht.
  - intros p s0 s1 Hk H0 H1 Hn0. simpl.
    rewrite decide_False by (by rewrite Hk; intros []).
    rewrite H0. simpl.
    destruct (isAncestorEq sdom s0 b && bool_decide (length (Preds s0) = 1%nat))
      eqn:E0; [by apply Htest in E0|].
    rewrite H1. simpl. split.
    + intros Ht. apply Htest in Ht. by rewrite Ht.
    + intros Hn1.
      destruct (isAncestorEq sdom s1 b && bool_decide (length (Preds s1) = 1%nat))
        eqn:E1; [by apply Htest in E1 | done].
Qed.

End BranchFacts.

(** ** The inference rule *)

Lemma domainRelationTable_range (o : Op) (du : domain) (r : relation) :
  domainRelationTable o = Some (du, r) → du ∈ [1; 2; 3; 4] ∧ r ≤ 7.
Proof.
  destruct o; simpl; intros [= <- <-];
    (split; [vm_compute (N.lor _ _); set_solver | by vm_compute]).
Qed.

Lemma test_positive (r_pos m : relation) :
  bool_decide (m ≠ 0) && bool_decide (N.land r_pos m = m) = true
  ↔ m ≠ 0 ∧ mask_subset m r_pos.
Proof.
  by rewrite andb_true_iff, !bool_decide_eq_true, mask_subset_land.
Qed.

Lemma test_negative (r_pos m : relation) :
  bool_decide (m ≠ 0) && bool_decide (N.land (N.lxor Rel.any r_pos) m = m)
  = true
  ↔ m ≠ 0 ∧ mask_subset m (complement r_pos).
Proof.
  by rewrite andb_true_iff, !bool_decide_eq_true, mask_subset_land.
Qed.

Section SimplifyFacts.

Context {B : Type}.
Variable Kind : B → BlockKind.
Variable Control : B → option Value.
Variable debug : B → Z.
Variable Line : B → Z.

Implicit Types (ft : factsTable Value) (b : B) (c : Value).
Implicit Types (r_pos m : relation) (ms : list relation) (br : branch).



Lemma simplify_domains_S fuel ft b c (a0 a1 : Value) (tr : domain * relation) d :
  simplify_domains debug Line (S fuel) ft b c a0 a1 tr d =
    if bool_decide (d ≤ tr.1) then
      if decide (N.land d tr.1 = 0)
      then simplify_domains debug Line fuel ft b c a0 a1 tr (shl1 d)
      else
        m ← get ID ft (Some a0) (Some a1) d;
        if bool_decide (m ≠ 0) && bool_decide (N.land tr.2 m = m)
        then Some (Some (Branch.positive, warn debug Line b "Proved %s" (VOp c)))
        else if bool_decide (m ≠ 0)
                && bool_decide (N.land (N.lxor Rel.any tr.2) m = m)
        then Some (Some (Branch.negative,
                         warn debug Line b "Disproved %s" (VOp c)))
        else simplify_domains debug Line fuel ft b c a0 a1 tr (shl1 d)
    else Some None.
Proof. reflexivity. Qed.

Ltac loop_test :=
  rewrite simplify_domains_S; cbn [fst snd];
  match goal with
  | |- context [bool_decide (?d ≤ ?t)] =>
      first [ rewrite (bool_decide_eq_true_2 (d ≤ t)) by lia
            | rewrite (bool_decide_eq_false_2 (d ≤ t)) by lia ]
  end.

Ltac loop_body Hg :=
  match goal with
  | |- context [decide (N.land ?d ?t = 0)] =>
      first [ rewrite (decide_True (P := N.land d t = 0)) by (by vm_compute)
            | rewrite (decide_False (P := N.land d t = 0)) by (by vm_compute);
              rewrite Hg; cbn [mbind option_bind] ]
  end.

Ltac loop_shift :=
  repeat match goal with
  | |- context [shl1 ?d] =>
      let d' := eval vm_compute in (shl1 d) in change (shl1 d) with d'
  end.

Lemma simplify_domains_scan ft b c (a0 a1 : Value) du r_pos (g : domain → relation) :
  du ∈ [1; 2; 3; 4] →
  (∀ d, get ID ft (Some a0) (Some a1) d = Some (g d)) →
  simplify_domains debug Line 64 ft b c a0 a1 (du, r_pos) 1
  = Some (scan_masks debug Line b c r_pos (g <$> domain_bits du)).
Proof.
  intros Hdu Hg.
  repeat (apply elem_of_cons in Hdu as [-> | Hdu]);
    [| | | | by apply elem_of_nil in Hdu].
  all: match goal with
       | |- context [domain_bits ?t] =>
           let l := eval vm_compute in (domain_bits t) in
           change (domain_bits t) with l
       end.
  all: cbn [fmap list_fmap scan_masks].
  all: repeat (loop_test; try loop_body Hg; loop_shift).
  all: repeat match goal with
       | |- context [bool_decide (?m ≠ 0) && ?t] =>
           destruct (bool_decide (m ≠ 0) && t)
       end.
  all: reflexivity.
Qed.


Lemma obind_Some {X Y : Type} (f : X → option Y) (x : X) :
  Some x ≫= f = f x.
Proof. reflexivity. Qed.

(** [simplifyBlock] once the boolean query has not decided: the loop over
    the masks, then the shortcut for the bounds checks. *)
Lemma simplifyBlock_undecided ft b c (a0 a1 : Value) (d_union : domain)
  r_pos (m0 : relation) (g : domain → relation) :
  Kind b = BlockIf → Control b = Some c →
  domainRelationTable (VOp c) = Some (d_union, r_pos) →
  Args c !! 0%nat = Some a0 → Args c !! 1%nat = Some a1 →
  get ID ft None (Some c) boolean = Some m0 →
  m0 ≠ N.lor Rel.lt Rel.gt → m0 ≠ Rel.eq →
  (∀ d, get ID ft (Some a0) (Some a1) d = Some (g d)) →
  simplifyBlock Kind Control debug Line ft b =
    match scan_masks debug Line b c r_pos (g <$> domain_bits d_union) with
    | Some x => Some x
    | None =>
        nn ← (if bool_decide (VOp c = OpIsInBounds)
                 || bool_decide (VOp c = OpIsSliceInBounds)
              then isNonNegative a0 else Some false);
        if nn : bool then
          m ← get ID ft (Some a0) (Some a1) signed;
          if bool_decide (m ≠ 0) && bool_decide (N.land r_pos m = m)
          then Some (Branch.positive,
                     warn debug Line b "Proved non-negative bounds %s" (VOp c))
          else Some (Branch.unknown, [])
        else Some (Branch.unknown, [])
    end.
Proof.
  intros Hk Hc Htr Ha0 Ha1 Hm0 Hnp Hnn Hg.
  destruct (domainRelationTable_range _ _ _ Htr) as [Hdu _].
  unfold simplifyBlock.
  rewrite decide_False by (by rewrite Hk; intros []).
  rewrite Hc, Hm0, obind_Some.
  rewrite decide_False by done. rewrite decide_False by done.
  rewrite obind_Some, Htr, Ha0, Ha1, !obind_Some.
  rewrite (simplify_domains_scan ft b c a0 a1 d_union r_pos g Hdu Hg).
  rewrite obind_Some. reflexivity.
Qed.


End SimplifyFacts.

(** ** The pass on concrete inputs *)

Lemma example_facts_reachable : reachable ID example_facts.
Proof.
  eapply reach_update with (ft := newFactsTable) (v := Some example_x)
    (w := Some example_y) (d := signed) (r := Rel.lt);
    [apply reach_new | done | reflexivity].
Qed.




(** The same with one domain only: for [IsInBounds i n] the one mask of the
    loop, in the Unsigned domain, is empty, and the shortcut for a
    non-negative index proves the block from the Signed mask. *)
Example simplifyBlock_shortcut_after_empty_mask :
  get ID example_dead_bounds (Some example_i) (Some example_y) unsigned
  = Some 0
  ∧ simplifyBlock example_Kind example_Control_bounds example_debug
      example_Line example_dead_bounds 1%nat
    = Some (Branch.positive,
            [Warnl 1 "Proved non-negative bounds %s" OpIsInBounds]).
Proof. split; reflexivity. Qed.

(** Below the true edge of [If (Less64 x y)] a second [If (Less64 x y)] is
    proved, with its diagnostic. *)
Example simplifyBlock_proved :
  simplifyBlock example_Kind example_Control example_debug example_Line
    example_facts 1%nat
  = Some (Branch.positive, [Warnl 1 "Proved %s" OpLess64]).
Proof. reflexivity. Qed.

(** A fresh table proves nothing about it. *)
Example simplifyBlock_unknown :
  simplifyBlock example_Kind example_Control example_debug example_Line
    newFactsTable 1%nat
  = Some (Branch.unknown, []).
Proof. reflexivity. Qed.

Lemma getBranch_cases_witness :
  example_Kind 0%nat = BlockIf
  ∧ example_Succs 0%nat !! 0%nat = Some 1%nat
  ∧ sole_way example_Preds example_isAncestorEq () 1%nat 1%nat
  ∧ getBranch example_Kind example_Succs example_Preds example_isAncestorEq
      () (Some 0%nat) 1%nat
    = Some Branch.positive.
Proof.
  split; [reflexivity|]. split; [reflexivity|].
  split; [by split|].
  apply (proj1 (proj2 (proj2
           (getBranch_cases example_Kind example_Succs example_Preds
              example_isAncestorEq () 1%nat))) 0%nat 1%nat).
  - reflexivity.
  - reflexivity.
  - by split.
Defined.

Example getBranch_negative :
  getBranch example_Kind example_Succs example_Preds example_isAncestorEq
    () (Some 0%nat) 2%nat
  = Some Branch.negative.
Proof. reflexivity. Qed.

Lemma example_shift_operands : shifts_have_operands example_shift.
Proof.
  eapply sho_shift; [reflexivity | reflexivity |].
  eapply sho_shift; [reflexivity | reflexivity |].
  by apply sho_other.
Qed.

Lemma isNonNegative_correct_witness :
  shifts_have_operands example_shift
  ∧ is_Some (isNonNegative example_shift)
  ∧ (isNonNegative example_shift = Some false ↔ ¬ NonNegative example_shift).
Proof.
  split; [apply example_shift_operands|].
  apply (proj2 (isNonNegative_correct example_shift)).
  apply example_shift_operands.
Defined.

Example isNonNegative_shift : isNonNegative example_shift = Some true.
Proof. reflexivity. Qed.

Lemma newFactsTable_stack_witness :
  length (stack (newFactsTable (V:=Z))) = 4%nat.
Proof. apply (newFactsTable_stack (V:=Z)). Defined.

(** * Further properties of the code *)

(** ** The relation algebra and the fact table *)

(** X1: on a mask of three bits [reverseBits] returns a mask of three bits
    and is its own inverse; on any other mask the index is out of range. *)
Theorem reverseBits_involution (r : relation) :
  (r ≤ 7 →
   ∃ r', reverseBits_at r = Some r' ∧ r' ≤ 7 ∧ reverseBits_at r' = Some r)
  ∧ (7 < r → reverseBits_at r = None).
Proof.
  split.
  - intros Hr. exists (swap_lt_gt r).
    split; [by apply reverseBits_at_swap|].
    split; [by apply swap_lt_gt_le|].
    rewrite reverseBits_at_swap by (by apply swap_lt_gt_le).
    by rewrite swap_lt_gt_involutive.
  - intros Hr. unfold reverseBits_at. apply lookup_ge_None_2. simpl. lia.
Qed.

Lemma reverseBits_at_Some_swap (r r' : relation) :
  r ≤ 7 → swap_lt_gt r = r' → reverseBits_at r = Some r'.
Proof. intros Hr <-. by apply reverseBits_at_swap. Qed.

Lemma swap_lt_gt_subset (a b : relation) :
  a ≤ 7 → b ≤ 7 → mask_subset a b → mask_subset (swap_lt_gt a) (swap_lt_gt b).
Proof.
  intros Ha Hb Hs. apply mask_subset_land. apply mask_subset_land in Hs.
  rewrite <- swap_lt_gt_land by done. by rewrite Hs.
Qed.

Lemma mask_subset_trans (a b c : relation) :
  mask_subset a b → mask_subset b c → mask_subset a c.
Proof. intros Hab Hbc i Hi. by apply Hbc, Hab. Qed.

Section FactsTableMore.

Context {V : Type} `{Countable V}.
Variable ID : V → Z.

Implicit Types (v w : option V) (d : domain) (r : relation).
Implicit Types (ft : factsTable V) (p q : Pair V) (m : gmap (Pair V) relation).
Implicit Types (e : fact V) (es st : list (fact V)).

Lemma get_lookupD_eq ft ft' :
  (∀ q, lookupD (facts ft') q = lookupD (facts ft) q) →
  ∀ v w d, get ID ft' v w d = get ID ft v w d.
Proof. intros Hq v w d. by rewrite !get_unfold, Hq. Qed.

(** X2: in every table reachable with the public operations, every pair
    stored in the map or saved on the undo stack is in canonical order (the
    second value is not before the first; for two values, the ID of the
    first is at most the ID of the second) and every mask has three bits. *)
Theorem reachable_canonical ft :
  reachable ID ft →
  (∀ p r, facts ft !! p = Some r →
     lessByID ID (p_w p) (p_v p) = false ∧ r ≤ 7)
  ∧ (∀ e, e ∈ stack ft →
       lessByID ID (p_w (f_p e)) (p_v (f_p e)) = false ∧ f_r e ≤ 7)
  ∧ (∀ x y d r, facts ft !! mkPair (Some x) (Some y) d = Some r →
       (ID x ≤ ID y)%Z).
Proof.
  intros Hreach. destruct (reachable_by_ok ID _ _ Hreach) as [Hm Hs].
  split; [|split].
  - intros p r Hp. destruct (Hm p r Hp) as (? & ? & _). by split.
  - intros e He. apply (proj1 (Forall_forall _ _) Hs) in He.
    destruct He as (? & ? & _). by split.
  - intros x y d r Hp. destruct (Hm _ r Hp) as (Hord & _). simpl in Hord.
    apply bool_decide_eq_false in Hord. lia.
Qed.

(** X3: [lessByID] is a strict weak order in which nil and values of equal
    ID are the only ties: it is irreflexive, asymmetric and transitive, and
    two arguments neither of which is before the other are both nil or
    values with the same ID.  Whenever one of two arguments is before the
    other, or they are the same, both orders of the pair address the same
    entry of the table. *)
Theorem lessByID_strict_weak_order (u v w : option V) (d : domain) :
  lessByID ID v v = false
  ∧ (lessByID ID v w = true → lessByID ID w v = false)
  ∧ (lessByID ID u v = true → lessByID ID v w = true →
     lessByID ID u w = true)
  ∧ (lessByID ID v w = false → lessByID ID w v = false →
     (v = None ∧ w = None)
     ∨ ∃ x y, v = Some x ∧ w = Some y ∧ ID x = ID y)
  ∧ (lessByID ID v w = true ∨ lessByID ID w v = true ∨ v = w →
     canon ID v w d = canon ID w v d).
Proof.
  split; [by destruct v as [x|]; simpl; [apply bool_decide_eq_false; lia|]|].
  split.
  { destruct v as [x|], w as [y|]; simpl; try done.
    intros Hlt%bool_decide_eq_true. apply bool_decide_eq_false. lia. }
  split.
  { destruct u as [x|], v as [y|], w as [z|]; simpl; try done.
    intros H1%bool_decide_eq_true H2%bool_decide_eq_true.
    apply bool_decide_eq_true. lia. }
  split.
  { destruct v as [x|], w as [y|]; simpl; try done; [|by left].
    intros H1%bool_decide_eq_false H2%bool_decide_eq_false.
    right. exists x, y. split; [done|]. split; [done | lia]. }
  unfold canon. intros [Hlt | [Hlt | ->]]; [| |done].
  - rewrite Hlt. destruct (lessByID ID w v) eqn:E; [|done].
    destruct v as [x|], w as [y|]; simpl in *; try done.
    apply bool_decide_eq_true in Hlt, E. lia.
  - rewrite Hlt. destruct (lessByID ID v w) eqn:E; [|done].
    destruct v as [x|], w as [y|]; simpl in *; try done.
    apply bool_decide_eq_true in Hlt, E. lia.
Qed.

(** X4: a call of [update] that returns pushes exactly one fact and changes
    the entry of its canonical pair only: [get] on any other pair, and so on
    any other domain, returns what it returned before. *)
Theorem update_frame ft v w d r ft' :
  update ID ft v w d r = Some ft' →
  (∃ e, stack ft' = e :: stack ft ∧ f_p e = canon ID v w d)
  ∧ (∀ q, q ≠ canon ID v w d → facts ft' !! q = facts ft !! q)
  ∧ (∀ v' w' d', canon ID v' w' d' ≠ canon ID v w d →
       get ID ft' v' w' d' = get ID ft v' w' d')
  ∧ (∀ v' w' d', d' ≠ d → get ID ft' v' w' d' = get ID ft v' w' d').
Proof.
  rewrite update_unfold. intros Hu.
  apply bind_Some in Hu as (r' & _ & Hu). simpl in Hu. injection Hu as <-.
  assert (Hframe : ∀ v' w' d', canon ID v' w' d' ≠ canon ID v w d →
    get ID (mkFactsTable
              (<[canon ID v w d :=
                   N.land (lookupD (facts ft) (canon ID v w d)) r']>
                 (facts ft))
              (mkFact (canon ID v w d) (lookupD (facts ft) (canon ID v w d))
                 :: stack ft)) v' w' d'
    = get ID ft v' w' d').
  { intros v' w' d' Hne. rewrite !get_unfold. simpl.
    by rewrite lookupD_insert_ne. }
  split; [eauto|]. split; [|split].
  - intros q Hq. simpl. by rewrite lookup_insert_ne.
  - exact Hframe.
  - intros v' w' d' Hd. apply Hframe. intros Heq.
    apply (f_equal p_d) in Heq. by rewrite !canon_domain in Heq.
Qed.

(** X5: in a reachable table, [update(v, w, d, get(v, w, d))] returns and
    changes no mask: every [get] returns what it returned before. *)
Theorem update_with_get_is_noop ft v w d r :
  reachable ID ft → get ID ft v w d = Some r →
  ∃ ft',
    update ID ft v w d r = Some ft'
    ∧ ∀ v' w' d', get ID ft' v' w' d' = get ID ft v' w' d'.
Proof.
  intros Hreach Hget. pose proof (reachable_by_ok ID _ _ Hreach) as Hft.
  pose proof (get_le ID _ _ _ _ _ Hft Hget) as Hr.
  rewrite (get_ok ID _ _ _ _ Hft) in Hget. injection Hget as Hget.
  destruct (lookupD_canon_ok ID ft v w d Hft) as (_ & Hle & _).
  eexists. split; [by apply update_ok_Some|].
  apply get_lookupD_eq. intros q. simpl.
  destruct (decide (q = canon ID v w d)) as [->|Hq];
    [|by rewrite lookupD_insert_ne].
  rewrite lookupD_insert_eq. subst r.
  destruct (lessByID ID w v).
  - rewrite swap_lt_gt_involutive by done. apply N.land_diag.
  - apply N.land_diag.
Qed.

(** X6: two calls of [update] with masks of three bits return in either
    order and leave the same map, so the same result of every [get]; on one
    and the same triple [(v, w, d)] in a reachable table the mask afterwards
    is the mask before intersected with both. *)
Theorem update_commutes ft v1 w1 d1 r1 v2 w2 d2 r2 :
  r1 ≤ 7 → r2 ≤ 7 →
  ∃ ft1 ft12 ft2 ft21,
    update ID ft v1 w1 d1 r1 = Some ft1
    ∧ update ID ft1 v2 w2 d2 r2 = Some ft12
    ∧ update ID ft v2 w2 d2 r2 = Some ft2
    ∧ update ID ft2 v1 w1 d1 r1 = Some ft21
    ∧ facts ft12 = facts ft21
    ∧ (∀ v w d, get ID ft12 v w d = get ID ft21 v w d)
    ∧ (reachable ID ft → v1 = v2 → w1 = w2 → d1 = d2 →
       ∃ r_prior, get ID ft v1 w1 d1 = Some r_prior
                  ∧ get ID ft12 v1 w1 d1
                    = Some (N.land (N.land r_prior r1) r2)).
Proof.
  intros Hr1 Hr2.
  eexists _, _, _, _.
  split; [by apply update_ok_Some|]. split; [by apply update_ok_Some|].
  split; [by apply update_ok_Some|]. split; [by apply update_ok_Some|].
  cbn [facts].
  set (p1 := canon ID v1 w1 d1). set (p2 := canon ID v2 w2 d2).
  set (s1 := if lessByID ID w1 v1 then swap_lt_gt r1 else r1).
  set (s2 := if lessByID ID w2 v2 then swap_lt_gt r2 else r2).
  assert (Hfacts :
    <[p2 := N.land (lookupD (<[p1 := N.land (lookupD (facts ft) p1) s1]>
                               (facts ft)) p2) s2]>
      (<[p1 := N.land (lookupD (facts ft) p1) s1]> (facts ft))
    = <[p1 := N.land (lookupD (<[p2 := N.land (lookupD (facts ft) p2) s2]>
                                 (facts ft)) p1) s1]>
        (<[p2 := N.land (lookupD (facts ft) p2) s2]> (facts ft))).
  { destruct (decide (p1 = p2)) as [Heq|Hne].
    - rewrite <- Heq. rewrite !lookupD_insert_eq, !insert_insert_eq.
      f_equal. rewrite <- !N.land_assoc. f_equal. apply N.land_comm.
    - rewrite (lookupD_insert_ne (facts ft) p1 p2) by done.
      rewrite (lookupD_insert_ne (facts ft) p2 p1) by done.
      by apply insert_insert_ne. }
  split; [exact Hfacts|]. split.
  - intros v w d. rewrite !get_unfold. cbn [facts]. by rewrite Hfacts.
  - intros Hreach -> -> ->.
    pose proof (reachable_by_ok ID _ _ Hreach) as Hft.
    destruct (lookupD_canon_ok ID ft v2 w2 d2 Hft) as (_ & Hle & _).
    eexists. split; [by apply get_ok|].
    rewrite get_unfold. cbn [facts]. fold p2.
    rewrite !lookupD_insert_eq. unfold s1, s2, p2.
    destruct (lessByID ID w2 v2); [|done].
    apply reverseBits_at_Some_swap.
    + etrans; [apply N.land_le_l|]. etrans; [apply N.land_le_l|]. done.
    + rewrite !swap_lt_gt_land; try done; try (by apply swap_lt_gt_le).
      * by rewrite !swap_lt_gt_involutive.
      * etrans; [apply N.land_le_l|]. done.
Qed.

Lemma get_subset_lookupD ft ft' :
  table_ok ID ft → table_ok ID ft' →
  (∀ q, mask_subset (lookupD (facts ft') q) (lookupD (facts ft) q)) →
  ∀ v w d, ∃ r r' : relation,
    get ID ft v w d = Some r ∧ get ID ft' v w d = Some r'
    ∧ mask_subset r' r.
Proof.
  intros Hft Hft' Hq v w d. eexists _, _.
  split; [by apply get_ok|]. split; [by apply get_ok|].
  destruct (lookupD_canon_ok ID ft v w d Hft) as (_ & Hle & _).
  destruct (lookupD_canon_ok ID ft' v w d Hft') as (_ & Hle' & _).
  destruct (lessByID ID w v); [|apply Hq].
  apply swap_lt_gt_subset; [done | done | apply Hq].
Qed.

(** X7: masks only shrink under updates.  From a reachable table, a sequence
    of calls of [update] (with masks of three bits) and of [get] returns, and
    for every probe the mask [get] returns afterwards is a subset of the mask
    it returned before. *)
Theorem updates_only_narrow (ops : list (ftOp V)) ft :
  reachable ID ft →
  Forall (λ o, match o with DoUpdate _ _ _ r => r ≤ 7 | DoGet _ _ _ => True end)
    ops →
  ∃ ft',
    run ID ops ft = Some ft'
    ∧ reachable ID ft'
    ∧ ∀ v w d, ∃ r r' : relation,
        get ID ft v w d = Some r ∧ get ID ft' v w d = Some r'
        ∧ mask_subset r' r.
Proof.
  intros Hreach Hops.
  assert (Hrun : ∃ ft',
    run ID ops ft = Some ft' ∧ reachable ID ft'
    ∧ ∀ q, mask_subset (lookupD (facts ft') q) (lookupD (facts ft) q)).
  { revert ft Hreach.
    induction Hops as [|o ops Ho Hops IH]; intros ft Hreach.
    { exists ft. split; [done|]. split; [done|]. intros q.
      apply mask_subset_refl. }
    destruct o as [v w d r | v w d]; cbn [run].
    - pose proof (update_ok_Some ID ft v w d r Ho) as Hu. rewrite Hu.
      rewrite obind_Some.
      match type of Hu with _ = Some ?t => set (ft1 := t) in * end.
      assert (Hreach1 : reachable ID ft1).
      { by eapply reach_update. }
      destruct (IH ft1 Hreach1) as (ft' & Hrun & Hreach' & Hsub).
      exists ft'. split; [done|]. split; [done|]. intros q.
      eapply mask_subset_trans; [apply Hsub|]. unfold ft1. cbn [facts].
      destruct (decide (canon ID v w d = q)) as [<-|Hq].
      + rewrite lookupD_insert_eq. apply mask_subset_land_l.
      + rewrite lookupD_insert_ne by done. apply mask_subset_refl.
    - rewrite (get_ok ID _ _ _ _ (reachable_by_ok ID _ _ Hreach)).
      rewrite obind_Some. by apply IH. }
  destruct Hrun as (ft' & Hrun & Hreach' & Hsub).
  exists ft'. split; [done|]. split; [done|].
  apply get_subset_lookupD; [| |done]; by eapply reachable_by_ok.
Qed.

Lemma restore_loop_None m st :
  restore_loop m st = None ↔ checkpointFact ∉ st.
Proof.
  revert m. induction st as [|e st IH]; intros m.
  - split; [intros _; apply not_elem_of_nil | done].
  - rewrite restore_loop_cons. case_decide as He.
    + subst e. split; [done|]. intros Hn. destruct Hn. by left.
    + rewrite IH, not_elem_of_cons. split; [by split | by intros [_ ?]].
Qed.

Lemma restore_loop_Some m st ft' :
  restore_loop m st = Some ft' →
  ∃ es, st = es ++ checkpointFact :: stack ft'
        ∧ (checkpointFact ∉ es)
        ∧ facts ft' = undo es m.
Proof.
  revert m. induction st as [|e st IH]; intros m; [done|].
  rewrite restore_loop_cons. case_decide as He.
  - subst e. intros [= <-]. exists []. split; [done|].
    split; [apply not_elem_of_nil | done].
  - intros Hr. destruct (IH _ Hr) as (es & -> & Hes & Hf).
    exists (e :: es). split; [done|]. split; [|done].
    rewrite not_elem_of_cons. by split.
Qed.

(** X8: [restore] panics exactly when the undo stack holds no checkpoint
    marker; when it returns it has popped the stack down to and including
    the topmost marker, and nothing else; a [restore] right after a
    [checkpoint] gives back the very same table. *)
Theorem restore_pops_to_marker ft :
  (restore ft = None ↔ checkpointFact ∉ stack ft)
  ∧ (∀ ft', restore ft = Some ft' →
       ∃ es, stack ft = es ++ checkpointFact :: stack ft'
             ∧ (checkpointFact ∉ es)
             ∧ (length (stack ft') < length (stack ft))%nat)
  ∧ restore (checkpoint ft) = Some ft.
Proof.
  split; [apply restore_loop_None|]. split.
  - intros ft' Hr. destruct (restore_loop_Some _ _ _ Hr) as (es & Hst & Hes & _).
    exists es. split; [done|]. split; [done|].
    rewrite Hst, length_app. simpl. lia.
  - unfold restore, checkpoint. cbn [facts stack].
    rewrite restore_loop_cons, decide_True by done. by destruct ft.
Qed.

(** *** Nested brackets *)

Lemma restore_in_bracket_obs ft0 ft es :
  table_ok ID ft0 → in_bracket_obs ft0 ft es →
  ∃ ft',
    restore ft = Some ft'
    ∧ stack ft' = stack ft0
    ∧ ∀ q, lookupD (facts ft') q = lookupD (facts ft0) q.
Proof.
  intros Hft0 (Hst & Hcp & Hold). unfold restore. rewrite Hst.
  rewrite restore_loop_undo by done.
  eexists. split; [done|]. split; [done|]. cbn [facts]. intros q.
  specialize (Hold q). pose proof (undo_lookup es (facts ft) q) as Hu.
  destruct (oldest es q) as [r|].
  - subst r. by apply (lookupD_saved ID).
  - rewrite <- Hold. unfold lookupD. by rewrite Hu.
Qed.

Lemma run_calls_app (a b : list (ftCall V)) ft :
  run_calls ID (a ++ b) ft = run_calls ID a ft ≫= run_calls ID b.
Proof.
  revert ft. induction a as [|c a IHa]; intros ft; [done|].
  destruct c; cbn [run_calls app]; try apply IHa.
  - destruct (update ID ft v w d r); [apply IHa | done].
  - destruct (get ID ft v w d); [apply IHa | done].
  - destruct (restore ft); [apply IHa | done].
Qed.

Lemma run_balanced (cs : list (ftCall V)) :
  balanced cs →
  ∀ ft0 ft es,
    table_ok ID ft → in_bracket_obs ft0 ft es →
    ∃ ft' es',
      run_calls ID cs ft = Some ft'
      ∧ table_ok ID ft'
      ∧ in_bracket_obs ft0 ft' (es' ++ es).
Proof.
  induction 1 as [|v w d r cs Hd Hr _ IH|v w d cs _ IH|cs1 cs2 _ IH1 _ IH2];
    intros ft0 ft es Hft Hin.
  - exists ft, []. by split.
  - cbn [run_calls].
    pose proof (update_ok_Some ID ft v w d r Hr) as Hu.
    pose proof (update_ok ID _ _ _ _ _ _ Hft Hu) as Hft1.
    rewrite Hu, obind_Some.
    set (p := canon ID v w d) in *.
    set (old := lookupD (facts ft) p) in *.
    match type of Hft1 with table_ok _ ?t => set (ft1 := t) in * end.
    destruct (IH ft0 ft1 (mkFact p old :: es) Hft1) as (ft' & es' & Hrun & Hft' & Hin').
    { destruct Hin as (Hst & Hcp & Hold). split; [|split].
      - cbn [stack ft1]. by rewrite Hst.
      - constructor; [|done]. intros Heq.
        apply (f_equal (λ e, p_d (f_p e))) in Heq. simpl in Heq.
        unfold p in Heq. by rewrite canon_domain in Heq.
      - intros q. specialize (Hold q). cbn [oldest].
        destruct (oldest es q) as [r0|]; [done|].
        cbn [f_p f_r]. case_decide as Hpq.
        + by subst q.
        + unfold ft1. cbn [facts]. by rewrite lookupD_insert_ne. }
    exists ft', (es' ++ [mkFact p old]). split; [done|]. split; [done|].
    by rewrite <- app_assoc.
  - cbn [run_calls]. rewrite (get_ok ID _ _ _ _ Hft), obind_Some.
    by apply IH.
  - cbn [run_calls].
    destruct (IH1 ft (checkpoint ft) [] (checkpoint_ok ID _ Hft))
      as (ft1 & es1 & Hrun1 & Hft1 & Hin1).
    { split; [done|]. split; [constructor|]. by intros q. }
    rewrite app_nil_r in Hin1.
    destruct (restore_in_bracket_obs ft ft1 es1 Hft Hin1)
      as (ft2 & Hres & Hst2 & Hq2).
    assert (Hft2 : table_ok ID ft2) by (by eapply restore_ok).
    destruct (IH2 ft0 ft2 es Hft2) as (ft' & es' & Hrun2 & Hft' & Hin').
    { destruct Hin as (Hst & Hcp & Hold). split; [by rewrite Hst2|].
      split; [done|]. intros q. specialize (Hold q).
      destruct (oldest es q); [done|]. by rewrite Hq2. }
    exists ft', es'. split; [|by split].
    rewrite run_calls_app, Hrun1, obind_Some. cbn [run_calls].
    by rewrite Hres, obind_Some.
Qed.

Lemma nested_brackets_spec (cs : list (ftCall V)) ft :
  reachable ID ft → balanced cs →
  ∃ ft',
    run_calls ID (CallCheckpoint :: cs ++ [CallRestore]) ft = Some ft'
    ∧ stack ft' = stack ft
    ∧ ∀ v w d, get ID ft' v w d = get ID ft v w d.
Proof.
  intros Hreach Hcs. pose proof (reachable_by_ok ID _ _ Hreach) as Hft.
  cbn [run_calls].
  destruct (run_balanced cs Hcs ft (checkpoint ft) [] (checkpoint_ok ID _ Hft))
    as (ft1 & es1 & Hrun1 & Hft1 & Hin1).
  { split; [done|]. split; [constructor|]. by intros q. }
  rewrite app_nil_r in Hin1.
  destruct (restore_in_bracket_obs ft ft1 es1 Hft Hin1)
    as (ft2 & Hres & Hst2 & Hq2).
  exists ft2. split; [|split; [done|by apply get_lookupD_eq]].
  rewrite run_calls_app, Hrun1, obind_Some. cbn [run_calls].
  by rewrite Hres, obind_Some.
Qed.

(** X9: brackets nest.  From a reachable table,
    [checkpoint(); cs; restore()] returns for every sequence [cs] of calls
    in which the checkpoints and the restores are themselves matched; the
    undo stack is then the one before the checkpoint and every [get] returns
    what it returned before. *)
Theorem nested_brackets_preserve_get (cs : list (ftCall V)) ft :
  reachable ID ft → balanced cs →
  ∃ ft',
    run_calls ID (CallCheckpoint :: cs ++ [CallRestore]) ft = Some ft'
    ∧ stack ft' = stack ft
    ∧ ∀ v w d, get ID ft' v w d = get ID ft v w d.
Proof. apply nested_brackets_spec. Qed.

End FactsTableMore.

(** ** Learning from a branch *)

Section RestrictionsFacts.

Context {V : Type} `{Countable V}.
Variable ID : V → Z.

Implicit Types (v w : option V) (d t : domain) (r : relation).
Implicit Types (ft : factsTable V) (p q : Pair V) (ds : list domain).

Lemma updateRestrictions_loop_S fuel ft t v w r (i : domain) :
  updateRestrictions_loop ID (S fuel) ft t v w r i =
    if bool_decide (i ≤ t) then
      ft' ← (if decide (N.land t i ≠ 0) then update ID ft v w i r
             else Some ft);
      updateRestrictions_loop ID fuel ft' t v w r (shl1 i)
    else Some ft.
Proof. reflexivity. Qed.

Ltac restrict_step :=
  rewrite updateRestrictions_loop_S;
  match goal with
  | |- context [bool_decide (?i ≤ ?t)] =>
      first [ rewrite (bool_decide_eq_false_2 (i ≤ t)) by lia
            | rewrite (bool_decide_eq_true_2 (i ≤ t)) by lia;
              match goal with
              | |- context [decide (N.land ?t' ?i' ≠ 0)] =>
                  first
                    [ rewrite (decide_False (P := N.land t' i' ≠ 0))
                        by (by vm_compute);
                      rewrite obind_Some
                    | rewrite (decide_True (P := N.land t' i' ≠ 0))
                        by (by vm_compute);
                      cbn [run];
                      match goal with
                      | |- context [update ID ?f ?a ?b ?c ?e] =>
                          destruct (update ID f a b c e);
                          [rewrite !obind_Some | reflexivity]
                      end ]
              end ]
  end;
  repeat match goal with
  | |- context [shl1 ?d] =>
      let d' := eval vm_compute in (shl1 d) in change (shl1 d) with d'
  end.

(** The loop of [updateRestrictions] is the sequence of the updates of the
    single-bit domains of [t], in ascending order. *)
Lemma updateRestrictions_loop_run ft t v w r :
  0 < t → t ≤ 15 →
  updateRestrictions_loop ID 64 ft t v w r 1
  = run ID ((λ d, DoUpdate v w d r) <$> domain_bits t) ft.
Proof.
  intros H0 H15.
  assert (Ht : t = 1 ∨ t = 2 ∨ t = 3 ∨ t = 4 ∨ t = 5 ∨ t = 6 ∨ t = 7 ∨ t = 8
               ∨ t = 9 ∨ t = 10 ∨ t = 11 ∨ t = 12 ∨ t = 13 ∨ t = 14 ∨ t = 15)
    by lia.
  clear H0 H15. revert ft.
  repeat (destruct Ht as [-> | Ht]); [.. | subst t].
  all: match goal with
       | |- context [domain_bits ?t] =>
           let l := eval vm_compute in (domain_bits t) in
           change (domain_bits t) with l
       end.
  all: cbn [fmap list_fmap].
  all: intros ft; repeat restrict_step; reflexivity.
Qed.

Lemma run_reachable (ops : list (ftOp V)) ft ft' :
  reachable ID ft → run ID ops ft = Some ft' → reachable ID ft'.
Proof.
  revert ft. induction ops as [|o ops IH]; intros ft Hreach; cbn [run].
  { by intros [= <-]. }
  destruct o as [v w d r | v w d].
  - destruct (update ID ft v w d r) as [ft1|] eqn:Hu; [|done].
    rewrite obind_Some. apply IH. by eapply reach_update.
  - destruct (get ID ft v w d); [|done]. rewrite obind_Some. by apply IH.
Qed.

Lemma canon_elem_of_fmap v w d ds :
  canon ID v w d ∈ canon ID v w <$> ds ↔ d ∈ ds.
Proof.
  rewrite list_elem_of_fmap. split.
  - intros (d' & Heq & Hd'). apply (f_equal p_d) in Heq.
    rewrite !canon_domain in Heq. by subst d'.
  - intros Hd. by exists d.
Qed.

Lemma run_updates_domains ds ft v w r :
  NoDup ds → r ≤ 7 →
  ∃ ft',
    run ID ((λ d, DoUpdate v w d r) <$> ds) ft = Some ft'
    ∧ length (stack ft') = (length ds + length (stack ft))%nat
    ∧ ∀ q, lookupD (facts ft') q
           = if decide (q ∈ canon ID v w <$> ds)
             then N.land (lookupD (facts ft) q)
                         (if lessByID ID w v then swap_lt_gt r else r)
             else lookupD (facts ft) q.
Proof.
  intros Hnd Hr. revert ft.
  induction Hnd as [|d0 ds Hd0 Hnd IH]; intros ft.
  { exists ft. split; [done|]. split; [done|]. intros q.
    rewrite decide_False; [done|]. cbn [fmap list_fmap]. apply not_elem_of_nil. }
  cbn [fmap list_fmap run].
  pose proof (update_ok_Some ID ft v w d0 r Hr) as Hu.
  rewrite Hu, obind_Some.
  match type of Hu with _ = Some ?t => set (ft1 := t) in * end.
  destruct (IH ft1) as (ft' & Hrun & Hlen & Hq).
  exists ft'. split; [done|]. split.
  { rewrite Hlen. unfold ft1. cbn [stack length]. lia. }
  intros q. rewrite Hq. unfold ft1. cbn [facts].
  destruct (decide (q = canon ID v w d0)) as [->|Hne].
  - rewrite decide_False by (by rewrite canon_elem_of_fmap).
    rewrite lookupD_insert_eq, decide_True; [done|].
    apply elem_of_cons. by left.
  - rewrite lookupD_insert_ne by done.
    destruct (decide (q ∈ canon ID v w <$> ds)) as [Hin|Hnin].
    + rewrite decide_True; [done|]. apply elem_of_cons. by right.
    + rewrite decide_False; [done|]. rewrite not_elem_of_cons. by split.
Qed.

Lemma domain_bits_NoDup t : NoDup (domain_bits t).
Proof.
  unfold domain_bits. apply NoDup_filter.
  apply (bool_decide_unpack _). by vm_compute.
Qed.

Lemma complement_le (r : relation) : r ≤ 7 → N.lxor Rel.any r ≤ 7.
Proof. intros Hr. mask_cases r Hr; by vm_compute. Qed.

Lemma updateRestrictions_spec ft t v w r (br : branch) :
  reachable ID ft → t ≤ 15 → r ≤ 7 →
  (t = 0 ∨ br = Branch.unknown →
   updateRestrictions ID ft t v w r br = Some ft)
  ∧ (t ≠ 0 → br ≠ Branch.unknown →
     ∃ ft',
       updateRestrictions ID ft t v w r br = Some ft'
       ∧ reachable ID ft'
       ∧ length (stack ft')
         = (length (domain_bits t) + length (stack ft))%nat
       ∧ (∀ d, ∃ m : relation,
            get ID ft v w d = Some m
            ∧ get ID ft' v w d
              = Some (if decide (d ∈ domain_bits t)
                      then N.land m (if decide (br = Branch.negative)
                                     then complement r else r)
                      else m))
       ∧ (∀ v' w' d', canon ID v' w' d' ≠ canon ID v w d' →
            get ID ft' v' w' d' = get ID ft v' w' d')).
Proof.
  intros Hreach Ht Hr. split.
  { intros Hcase. unfold updateRestrictions. by rewrite decide_True. }
  intros Ht0 Hbr. unfold updateRestrictions.
  rewrite decide_False by (by intros [?|?]).
  set (r' := if decide (br = Branch.negative) then N.lxor Rel.any r else r).
  assert (Hr' : r' ≤ 7).
  { unfold r'. case_decide; [by apply complement_le | done]. }
  rewrite updateRestrictions_loop_run by (done || lia).
  destruct (run_updates_domains (domain_bits t) ft v w r'
              (domain_bits_NoDup t) Hr') as (ft' & Hrun & Hlen & Hq).
  pose proof (reachable_by_ok ID _ _ Hreach) as Hft.
  assert (Hreach' : reachable ID ft') by (by eapply run_reachable).
  pose proof (reachable_by_ok ID _ _ Hreach') as Hft'.
  exists ft'. split; [done|]. split; [done|]. split; [done|]. split.
  - intros d. eexists. split; [by apply get_ok|].
    rewrite (get_ok ID _ _ _ _ Hft'), Hq. f_equal.
    destruct (lookupD_canon_ok ID ft v w d Hft) as (_ & Hle & _).
    destruct (decide (d ∈ domain_bits t)) as [Hd|Hd].
    + rewrite decide_True by (by rewrite canon_elem_of_fmap).
      fold r'. destruct (lessByID ID w v); [|done].
      rewrite swap_lt_gt_land by (done || by apply swap_lt_gt_le).
      by rewrite swap_lt_gt_involutive.
    + by rewrite decide_False by (by rewrite canon_elem_of_fmap).
  - intros v' w' d' Hne. rewrite !get_unfold, Hq.
    rewrite decide_False; [done|].
    rewrite list_elem_of_fmap. intros (d & Heq & _).
    assert (d = d') as ->.
    { apply (f_equal p_d) in Heq. by rewrite !canon_domain in Heq. }
    done.
Qed.

(** X10: [updateRestrictions] with no domain or an unknown branch leaves the
    table as it is.  Otherwise, for a union [t] of the four domains and a
    mask [r] of three bits, in a reachable table, it returns a reachable
    table with one more fact on the undo stack per single-bit domain of [t];
    the mask of [(v, w)] is intersected with [r] (Positive) or with its
    complement (Negative) in the domains of [t], and [get] returns what it
    returned before in any other domain and on any other pair. *)
Theorem updateRestrictions_effect ft t v w r (br : branch) :
  reachable ID ft → t ≤ 15 → r ≤ 7 →
  (t = 0 ∨ br = Branch.unknown →
   updateRestrictions ID ft t v w r br = Some ft)
  ∧ (t ≠ 0 → br ≠ Branch.unknown →
     ∃ ft',
       updateRestrictions ID ft t v w r br = Some ft'
       ∧ reachable ID ft'
       ∧ length (stack ft')
         = (length (domain_bits t) + length (stack ft))%nat
       ∧ (∀ d, ∃ m : relation,
            get ID ft v w d = Some m
            ∧ get ID ft' v w d
              = Some (if decide (d ∈ domain_bits t)
                      then N.land m (if decide (br = Branch.negative)
                                     then complement r else r)
                      else m))
       ∧ (∀ v' w' d', canon ID v' w' d' ≠ canon ID v w d' →
            get ID ft' v' w' d' = get ID ft v' w' d')).
Proof. apply updateRestrictions_spec. Qed.

End RestrictionsFacts.

(** ** More on the inference rule *)

(** X11: the entries of the table.  The domain union of an entry is Signed,
    Unsigned, both, or Pointer, never Boolean and never empty; the relation
    and its complement are masks of three bits, neither of them empty, and
    they are disjoint. *)
Theorem domainRelationTable_entries (o : Op) (du : domain) (r : relation) :
  domainRelationTable o = Some (du, r) →
  du ∈ [signed; unsigned; N.lor signed unsigned; pointer]
  ∧ N.land du boolean = 0
  ∧ 0 < r < 7
  ∧ 0 < complement r < 7
  ∧ N.land r (complement r) = 0.
Proof.
  destruct o; simpl; intros [= <- <-].
  all: split; [vm_compute; set_solver|].
  all: by vm_compute.
Qed.

Lemma isNonNegative_Some_operands (v : Value) :
  is_Some (isNonNegative v) → shifts_have_operands v.
Proof.
  induction v as [v IH] using Value_ind_args.
  destruct (decide (VOp v = OpRsh64x64)) as [Hop|Hop];
    [|by intros _; apply sho_other].
  destruct v as [i o au args]. simpl in *. subst o. simpl.
  destruct args as [|a rest]; [by intros [? ?]|].
  intros Ha. inversion_clear IH as [|?? IHa _].
  eapply sho_shift; [done | done | by apply IHa].
Qed.

(** X12: [isNonNegative(v)] panics exactly when, going down the left
    operands of the right shifts from [v], it meets a right shift without
    operands. *)
Theorem isNonNegative_panics (v : Value) :
  isNonNegative v = None ↔ ¬ shifts_have_operands v.
Proof.
  split.
  - intros Hn Hv. apply isNonNegative_returns in Hv as [b Hb]. congruence.
  - intros Hn. destruct (isNonNegative v) as [b|] eqn:Hb; [|done].
    destruct Hn. apply isNonNegative_Some_operands. by exists b.
Qed.

Section BranchMore.

Context {B sparseTree : Type}.
Variable Kind : B → BlockKind.
Variable Succs : B → list B.
Variable Preds : B → list B.
Variable isAncestorEq : sparseTree → B → B → bool.

(** X13: [getBranch] panics exactly when the parent is an [If] block
    without successor 0, or an [If] block whose successor 0 does not qualify
    and that has no successor 1.  It returns Unknown for an [If] parent none
    of whose two successors has exactly one predecessor (a join), whatever
    the dominator tree says. *)
Theorem getBranch_edges (sdom : sparseTree) (p : B) (b : B) :
  (getBranch Kind Succs Preds isAncestorEq sdom (Some p) b = None
   ↔ Kind p = BlockIf
     ∧ (Succs p = []
        ∨ ∃ s0, Succs p = [s0] ∧ ¬ sole_way Preds isAncestorEq sdom s0 b))
  ∧ (∀ s0 s1, Succs p !! 0%nat = Some s0 → Succs p !! 1%nat = Some s1 →
       length (Preds s0) ≠ 1%nat → length (Preds s1) ≠ 1%nat →
       getBranch Kind Succs Preds isAncestorEq sdom (Some p) b
       = Some Branch.unknown).
Proof.
  assert (Htest : ∀ s,
    isAncestorEq sdom s b && bool_decide (length (Preds s) = 1%nat) = true
    ↔ sole_way Preds isAncestorEq sdom s b).
  { intros s. unfold sole_way.
    by rewrite andb_true_iff, bool_decide_eq_true. }
  split.
  - unfold getBranch. destruct (decide (Kind p ≠ BlockIf)) as [Hk|Hk].
    { split; [done|]. by intros [? _]. }
    assert (Hk' : Kind p = BlockIf) by (by destruct (decide (Kind p = BlockIf))).
    destruct (Succs p) as [|s0 [|s1 rest]] eqn:Hs; cbn [lookup list_lookup].
    + split; [intros _; split; [done | by left] | done].
    + rewrite obind_Some.
      destruct (isAncestorEq sdom s0 b
                && bool_decide (length (Preds s0) = 1%nat)) eqn:E0.
      * split; [done|]. intros [_ [?|(s & [= <-] & Hn)]]; [done|].
        by apply Htest in E0.
      * split; [|done]. intros _. split; [done|]. right. exists s0.
        split; [done|]. intros Ht. apply Htest in Ht. congruence.
    + rewrite obind_Some. split.
      * destruct (isAncestorEq sdom s0 b
                  && bool_decide (length (Preds s0) = 1%nat)); [done|].
        rewrite obind_Some.
        by destruct (isAncestorEq sdom s1 b
                     && bool_decide (length (Preds s1) = 1%nat)).
      * intros [_ [?|(s & ? & _)]]; done.
  - intros s0 s1 H0 H1 Hp0 Hp1. unfold getBranch.
    destruct (decide (Kind p ≠ BlockIf)); [done|].
    rewrite H0, obind_Some, (bool_decide_eq_false_2 _ Hp0), andb_false_r.
    by rewrite H1, obind_Some, (bool_decide_eq_false_2 _ Hp1), andb_false_r.
Qed.

End BranchMore.

Lemma obind_None {X Y : Type} (f : X → option Y) : None ≫= f = None.
Proof. reflexivity. Qed.

Section SimplifyMore.

Context {B : Type}.
Variable Kind : B → BlockKind.
Variable Control : B → option Value.
Variable debug : B → Z.
Variable Line : B → Z.

Implicit Types (ft : factsTable Value) (b : B) (c : Value).
Implicit Types (br : branch) (ws : list Warning).

Lemma warn_control_Some b c (fmt : string) :
  Control b = Some c →
  warn_control Control debug Line b fmt
  = Some (warn debug Line b fmt (VOp c)).
Proof.
  intros Hc. unfold warn_control, warn.
  case_bool_decide; [by rewrite Hc, obind_Some | done].
Qed.

(** [simplifyBlock] when the boolean query decides. *)
Lemma simplifyBlock_decided ft b c (m : relation) :
  Kind b = BlockIf → Control b = Some c →
  get ID ft None (Some c) boolean = Some m →
  (m = N.lor Rel.lt Rel.gt →
   simplifyBlock Kind Control debug Line ft b
   = Some (Branch.positive, warn debug Line b "Proved boolean %s" (VOp c)))
  ∧ (m = Rel.eq →
     simplifyBlock Kind Control debug Line ft b
     = Some (Branch.negative,
             warn debug Line b "Disproved boolean %s" (VOp c))).
Proof.
  intros Hk Hc Hm. unfold simplifyBlock.
  rewrite decide_False by (by rewrite Hk; intros []).
  rewrite Hc, Hm, obind_Some. split; intros ->.
  - rewrite decide_True by done.
    by rewrite (warn_control_Some b c _ Hc), obind_Some.
  - rewrite decide_False by (by vm_compute). rewrite decide_True by done.
    by rewrite (warn_control_Some b c _ Hc), obind_Some.
Qed.

(** [simplifyBlock] when the boolean query does not decide and the opcode
    has no table entry. *)
Lemma simplifyBlock_no_entry ft b c (m : relation) :
  Kind b = BlockIf → Control b = Some c →
  get ID ft None (Some c) boolean = Some m →
  m ≠ N.lor Rel.lt Rel.gt → m ≠ Rel.eq →
  domainRelationTable (VOp c) = None →
  simplifyBlock Kind Control debug Line ft b = Some (Branch.unknown, []).
Proof.
  intros Hk Hc Hm Hp Hn Htr. unfold simplifyBlock.
  rewrite decide_False by (by rewrite Hk; intros []).
  rewrite Hc, Hm, obind_Some.
  rewrite decide_False by done. rewrite decide_False by done.
  by rewrite obind_Some, Htr.
Qed.

Lemma simplifyBlock_total ft b :
  reachable ID ft →
  (Kind b = BlockIf → ∃ c, Control b = Some c ∧ control_ok c) →
  is_Some (simplifyBlock Kind Control debug Line ft b)
  ∧ (Kind b ≠ BlockIf →
     simplifyBlock Kind Control debug Line ft b = Some (Branch.unknown, [])).
Proof.
  intros Hreach Hwf.
  assert (Hnot : Kind b ≠ BlockIf →
            simplifyBlock Kind Control debug Line ft b
            = Some (Branch.unknown, [])).
  { intros Hk. unfold simplifyBlock. by rewrite decide_True. }
  split; [|done].
  destruct (decide (Kind b = BlockIf)) as [Hk|Hk]; [|by rewrite Hnot].
  destruct (Hwf Hk) as (c & Hc & Hok).
  pose proof (reachable_by_ok ID _ _ Hreach) as Hft.
  pose proof (get_ok ID ft None (Some c) boolean Hft) as Hm.
  destruct (simplifyBlock_decided ft b c _ Hk Hc Hm) as [Hpos Hneg].
  match type of Hm with _ = Some ?x => set (m0 := x) in * end.
  destruct (decide (m0 = N.lor Rel.lt Rel.gt)) as [Hp|Hp];
    [by rewrite (Hpos Hp)|].
  destruct (decide (m0 = Rel.eq)) as [Hn|Hn]; [by rewrite (Hneg Hn)|].
  destruct (domainRelationTable (VOp c)) as [[du r]|] eqn:Htr;
    [|by rewrite (simplifyBlock_no_entry ft b c m0)].
  destruct (Hok _ Htr) as (a0 & a1 & Ha0 & Ha1 & Hsho).
  set (g := λ d : domain,
         if lessByID ID (Some a1) (Some a0)
         then swap_lt_gt (lookupD (facts ft) (canon ID (Some a0) (Some a1) d))
         else lookupD (facts ft) (canon ID (Some a0) (Some a1) d)).
  assert (Hg : ∀ d, get ID ft (Some a0) (Some a1) d = Some (g d)).
  { intros d. by apply get_ok. }
  rewrite (simplifyBlock_undecided Kind Control debug Line ft b c a0 a1 du r
             m0 g Hk Hc Htr Ha0 Ha1 Hm Hp Hn Hg).
  destruct (scan_masks debug Line b c r (g <$> domain_bits du)); [done|].
  destruct (bool_decide (VOp c = OpIsInBounds)
            || bool_decide (VOp c = OpIsSliceInBounds)) eqn:Eb.
  - assert (Hb : is_bounds_check (VOp c)).
    { apply orb_true_iff in Eb as [Eb|Eb]; apply bool_decide_eq_true in Eb;
        [by left | by right]. }
    destruct (isNonNegative_returns a0 (Hsho Hb)) as [nn ->].
    rewrite obind_Some. destruct nn; [|done].
    rewrite Hg, obind_Some.
    by destruct (bool_decide (g signed ≠ 0)
                 && bool_decide (N.land r (g signed) = g signed)).
  - by rewrite obind_Some.
Qed.

(** X14: [simplifyBlock] does not panic on well-formed input: in a reachable
    table it returns for every block that is not an [If], and for every [If]
    block with a control whose table opcode has its two arguments (and, for
    a bounds check, a first argument whose shifts have their operands). *)
Theorem simplifyBlock_returns ft b :
  reachable ID ft →
  (Kind b = BlockIf → ∃ c, Control b = Some c ∧ control_ok c) →
  is_Some (simplifyBlock Kind Control debug Line ft b)
  ∧ (Kind b ≠ BlockIf →
     simplifyBlock Kind Control debug Line ft b = Some (Branch.unknown, [])).
Proof. apply simplifyBlock_total. Qed.

Lemma simplify_domains_shape (fuel : nat) ft b c (a0 a1 : Value)
  (tr : domain * relation) (d : domain) br ws :
  simplify_domains debug Line fuel ft b c a0 a1 tr d = Some (Some (br, ws)) →
  br ≠ Branch.unknown
  ∧ ∃ fmt : string, ws = warn debug Line b fmt (VOp c).
Proof.
  revert d. induction fuel as [|fuel IH]; intros d; [done|].
  rewrite simplify_domains_S.
  destruct (bool_decide (d ≤ tr.1)); [|done].
  destruct (decide (N.land d tr.1 = 0)); [apply IH|].
  destruct (get ID ft (Some a0) (Some a1) d) as [m|];
    [rewrite obind_Some | by rewrite obind_None].
  destruct (bool_decide (m ≠ 0) && bool_decide (N.land tr.2 m = m)).
  { intros [= <- <-]. split; [done | eauto]. }
  destruct (bool_decide (m ≠ 0)
            && bool_decide (N.land (N.lxor Rel.any tr.2) m = m)).
  { intros [= <- <-]. split; [done | eauto]. }
  apply IH.
Qed.

Lemma warn_shape b c (fmt : string) br :
  br ≠ Branch.unknown → Control b = Some c →
  (br = Branch.unknown ∧ warn debug Line b fmt (VOp c) = [])
  ∨ (br ≠ Branch.unknown ∧ ¬ (0 < debug b)%Z
     ∧ warn debug Line b fmt (VOp c) = [])
  ∨ (br ≠ Branch.unknown ∧ (0 < debug b)%Z
     ∧ ∃ (fmt' : string) c',
         Control b = Some c'
         ∧ warn debug Line b fmt (VOp c) = [Warnl (Line b) fmt' (VOp c')]).
Proof.
  intros Hbr Hc. unfold warn. case_bool_decide as Hd.
  - right. right. split; [done|]. split; [done|]. by exists fmt, c.
  - right. left. by split.
Qed.

(** The results of [simplifyBlock]: Unknown without diagnostic, or a branch
    with no diagnostic when [debug] is not positive and with one diagnostic,
    on the line of the block and the opcode of its control, when it is. *)
Lemma simplifyBlock_shape ft b br ws :
  simplifyBlock Kind Control debug Line ft b = Some (br, ws) →
  (br = Branch.unknown ∧ ws = [])
  ∨ (br ≠ Branch.unknown ∧ ¬ (0 < debug b)%Z ∧ ws = [])
  ∨ (br ≠ Branch.unknown ∧ (0 < debug b)%Z
     ∧ ∃ (fmt : string) c,
         Control b = Some c ∧ ws = [Warnl (Line b) fmt (VOp c)]).
Proof.
  unfold simplifyBlock.
  destruct (decide (Kind b ≠ BlockIf)); [intros [= <- <-]; by left|].
  destruct (get ID ft None (Control b) boolean) as [m|];
    [rewrite obind_Some | by rewrite obind_None].
  assert (Hwc : ∀ (fmt : string) br',
            br' ≠ Branch.unknown →
            (warn_control Control debug Line b fmt ≫= λ w, Some (br', w))
            = Some (br, ws) →
            (br = Branch.unknown ∧ ws = [])
            ∨ (br ≠ Branch.unknown ∧ ¬ (0 < debug b)%Z ∧ ws = [])
            ∨ (br ≠ Branch.unknown ∧ (0 < debug b)%Z
               ∧ ∃ (fmt : string) c,
                   Control b = Some c
                   ∧ ws = [Warnl (Line b) fmt (VOp c)])).
  { intros fmt br' Hbr'. unfold warn_control.
    destruct (bool_decide (0 < debug b)%Z) eqn:Ed.
    - apply bool_decide_eq_true in Ed.
      destruct (Control b) as [c|] eqn:Hc; [|by rewrite !obind_None].
      rewrite !obind_Some. intros [= <- <-]. right. right.
      split; [done|]. split; [done|]. by exists fmt, c.
    - apply bool_decide_eq_false in Ed.
      rewrite obind_Some. intros [= <- <-]. right. left. by split. }
  destruct (decide (m = N.lor Rel.lt Rel.gt)); [by apply Hwc|].
  destruct (decide (m = Rel.eq)); [by apply Hwc|]. clear Hwc.
  destruct (Control b) as [c|] eqn:Hc;
    [rewrite obind_Some | by rewrite obind_None].
  destruct (domainRelationTable (VOp c)) as [tr|];
    [|intros [= <- <-]; by left].
  destruct (Args c !! 0%nat) as [a0|];
    [rewrite obind_Some | by rewrite obind_None].
  destruct (Args c !! 1%nat) as [a1|];
    [rewrite obind_Some | by rewrite obind_None].
  destruct (simplify_domains debug Line 64 ft b c a0 a1 tr 1)
    as [[[br' ws']|]|] eqn:Hl;
    [rewrite obind_Some | rewrite obind_Some | by rewrite obind_None].
  { intros [= <- <-]. apply simplify_domains_shape in Hl as [? [fmt ->]].
    rewrite <- Hc. by apply warn_shape. }
  destruct (if bool_decide (VOp c = OpIsInBounds)
               || bool_decide (VOp c = OpIsSliceInBounds)
            then isNonNegative a0 else Some false) as [[|]|];
    [rewrite obind_Some | rewrite obind_Some | by rewrite obind_None];
    [|intros [= <- <-]; by left].
  destruct (get ID ft (Some a0) (Some a1) signed) as [m'|];
    [rewrite obind_Some | by rewrite obind_None].
  destruct (bool_decide (m' ≠ 0) && bool_decide (N.land tr.2 m' = m')).
  - intros [= <- <-]. rewrite <- Hc. by apply warn_shape.
  - intros [= <- <-]. by left.
Qed.

(** X15: the diagnostics of [simplifyBlock].  It emits none when it returns
    Unknown and none when [debug] is not positive; when it returns a branch
    and [debug] is positive it emits exactly one, with the line of the block
    and the opcode of its control. *)
Theorem simplifyBlock_diagnostics ft b br ws :
  simplifyBlock Kind Control debug Line ft b = Some (br, ws) →
  (br = Branch.unknown → ws = [])
  ∧ (¬ (0 < debug b)%Z → ws = [])
  ∧ (br ≠ Branch.unknown → (0 < debug b)%Z →
     ∃ (fmt : string) c,
       Control b = Some c ∧ ws = [Warnl (Line b) fmt (VOp c)])
  ∧ (length ws ≤ 1)%nat.
Proof.
  intros Hs.
  destruct (simplifyBlock_shape _ _ _ _ Hs)
    as [[-> ->] | [(Hbr & Hd & ->) | (Hbr & Hd & fmt & c & Hc & ->)]].
  - split; [done|]. split; [done|]. split; [done|]. simpl. lia.
  - split; [done|]. split; [done|]. split; [done|]. simpl. lia.
  - split; [done|]. split; [done|]. split; [by eauto|]. simpl. lia.
Qed.

Lemma simplify_domains_ext (fuel : nat) ft1 ft2 b c (a0 a1 : Value)
  (tr : domain * relation) (d : domain) :
  (∀ d, get ID ft1 (Some a0) (Some a1) d = get ID ft2 (Some a0) (Some a1) d) →
  simplify_domains debug Line fuel ft1 b c a0 a1 tr d
  = simplify_domains debug Line fuel ft2 b c a0 a1 tr d.
Proof.
  intros Hg. revert d. induction fuel as [|fuel IH]; intros d; [done|].
  rewrite !simplify_domains_S, Hg.
  destruct (bool_decide (d ≤ tr.1)); [|done].
  destruct (decide (N.land d tr.1 = 0)); [apply IH|].
  destruct (get ID ft2 (Some a0) (Some a1) d) as [m|];
    [rewrite !obind_Some | by rewrite !obind_None].
  destruct (bool_decide (m ≠ 0) && bool_decide (N.land tr.2 m = m)); [done|].
  destruct (bool_decide (m ≠ 0)
            && bool_decide (N.land (N.lxor Rel.any tr.2) m = m)); [done|].
  apply IH.
Qed.

(** [simplifyBlock] reads the table through [get] only. *)
Lemma simplifyBlock_ext ft1 ft2 b :
  (∀ v w d, get ID ft1 v w d = get ID ft2 v w d) →
  simplifyBlock Kind Control debug Line ft1 b
  = simplifyBlock Kind Control debug Line ft2 b.
Proof.
  intros Hg. unfold simplifyBlock.
  destruct (decide (Kind b ≠ BlockIf)); [done|].
  rewrite Hg.
  destruct (get ID ft2 None (Control b) boolean) as [m|];
    [rewrite !obind_Some | by rewrite !obind_None].
  destruct (decide (m = N.lor Rel.lt Rel.gt)); [done|].
  destruct (decide (m = Rel.eq)); [done|].
  destruct (Control b) as [c|];
    [rewrite !obind_Some | by rewrite !obind_None].
  destruct (domainRelationTable (VOp c)) as [tr|]; [|done].
  destruct (Args c !! 0%nat) as [a0|];
    [rewrite !obind_Some | by rewrite !obind_None].
  destruct (Args c !! 1%nat) as [a1|];
    [rewrite !obind_Some | by rewrite !obind_None].
  rewrite (simplify_domains_ext 64 ft1 ft2 b c a0 a1 tr 1)
    by (intros d; apply Hg).
  destruct (simplify_domains debug Line 64 ft2 b c a0 a1 tr 1) as [[x|]|];
    [by rewrite !obind_Some | rewrite !obind_Some | by rewrite !obind_None].
  destruct (if bool_decide (VOp c = OpIsInBounds)
               || bool_decide (VOp c = OpIsSliceInBounds)
            then isNonNegative a0 else Some false) as [[|]|];
    [rewrite !obind_Some | by rewrite !obind_Some | by rewrite !obind_None].
  by rewrite Hg.
Qed.

(** X16: a bracket does not change what [simplifyBlock] returns.  From a
    reachable table, after [checkpoint(); cs; restore()] with matched
    checkpoints and restores in [cs], [simplifyBlock] returns on every
    block what it returned before the checkpoint. *)
Theorem simplifyBlock_after_bracket (cs : list (ftCall Value)) ft :
  reachable ID ft → balanced cs →
  ∃ ft',
    run_calls ID (CallCheckpoint :: cs ++ [CallRestore]) ft = Some ft'
    ∧ ∀ b, simplifyBlock Kind Control debug Line ft' b
           = simplifyBlock Kind Control debug Line ft b.
Proof.
  intros Hreach Hcs.
  destruct (nested_brackets_spec ID cs ft Hreach Hcs) as (ft' & Hrun & _ & Hg).
  exists ft'. split; [done|]. intros b. by apply simplifyBlock_ext.
Qed.

End SimplifyMore.

(** ** Learning from a branch, then simplifying *)

Lemma get_checkpoint {V : Type} `{Countable V} (ID : V → Z)
  (ft : factsTable V) (v w : option V) (d : domain) :
  get ID (checkpoint ft) v w d = get ID ft v w d.
Proof. by rewrite !get_unfold. Qed.

Lemma canon_nil {V : Type} `{Countable V} (ID : V → Z) (w : option V)
  (d : domain) :
  canon ID None w d = mkPair None w d.
Proof. unfold canon. by destruct w. Qed.

Lemma canon_values {V : Type} `{Countable V} (ID : V → Z) (x y : V)
  (d : domain) :
  is_Some (p_v (canon ID (Some x) (Some y) d)).
Proof. unfold canon. by destruct (lessByID ID (Some y) (Some x)). Qed.

Lemma complement_disjoint (r m : relation) :
  r ≤ 7 → N.land r (N.land m (complement r)) = 0.
Proof.
  intros Hr. rewrite (N.land_comm m), N.land_assoc.
  assert (N.land r (complement r) = 0) as ->; [|apply N.land_0_l].
  mask_cases r Hr; by vm_compute.
Qed.

(** What [learn] does to the masks, for a control whose table opcode has
    its two arguments. *)
Lemma learn_spec (ft : factsTable Value) (c : Value) (br : branch) :
  reachable ID ft → br ≠ Branch.unknown →
  (∀ tr, domainRelationTable (VOp c) = Some tr →
     ∃ a0 a1, Args c !! 0%nat = Some a0 ∧ Args c !! 1%nat = Some a1) →
  ∃ ft',
    learn ft (Some c) br = Some ft'
    ∧ reachable ID ft'
    ∧ (∀ w d, ∃ m : relation,
         get ID ft None w d = Some m
         ∧ get ID ft' None w d
           = Some (if decide (w = Some c ∧ d = boolean)
                   then N.land m (if decide (br = Branch.negative)
                                  then complement (N.lor Rel.lt Rel.gt)
                                  else N.lor Rel.lt Rel.gt)
                   else m))
    ∧ (∀ a0 a1 du r,
         domainRelationTable (VOp c) = Some (du, r) →
         Args c !! 0%nat = Some a0 → Args c !! 1%nat = Some a1 →
         ∀ d, ∃ m : relation,
           get ID ft (Some a0) (Some a1) d = Some m
           ∧ get ID ft' (Some a0) (Some a1) d
             = Some (if decide (d ∈ domain_bits du)
                     then N.land m (if decide (br = Branch.negative)
                                    then complement r else r)
                     else m)).
Proof.
  intros Hreach Hbr Hargs. unfold learn. cbv zeta.
  assert (Hreach0 : reachable ID (checkpoint ft)) by (by apply reach_checkpoint).
  destruct (updateRestrictions_spec ID (checkpoint ft) boolean None (Some c)
              (N.lor Rel.lt Rel.gt) br Hreach0)
    as [_ Hup]; [by vm_compute | by vm_compute |].
  destruct Hup as (ft1 & Hu1 & Hreach1 & _ & Hb1 & Hf1);
    [by vm_compute | done |].
  rewrite Hu1, !obind_Some.
  assert (Hnil1 : ∀ w d, ∃ m : relation,
            get ID ft None w d = Some m
            ∧ get ID ft1 None w d
              = Some (if decide (w = Some c ∧ d = boolean)
                      then N.land m (if decide (br = Branch.negative)
                                     then complement (N.lor Rel.lt Rel.gt)
                                     else N.lor Rel.lt Rel.gt)
                      else m)).
  { intros w d. destruct (decide (w = Some c)) as [->|Hw].
    - destruct (Hb1 d) as (m & Hm & Hm1). rewrite get_checkpoint in Hm.
      exists m. split; [done|]. rewrite Hm1. f_equal.
      change (domain_bits boolean) with [boolean].
      destruct (decide (d ∈ [boolean])) as [Hd|Hd];
        destruct (decide (Some c = Some c ∧ d = boolean)) as [Hcd|Hcd];
        try done.
      + destruct Hcd. split; [done|]. by apply list_elem_of_singleton.
      + destruct Hd. apply list_elem_of_singleton. by destruct Hcd.
    - rewrite Hf1, get_checkpoint.
      + eexists. split; [by apply get_ok, (reachable_by_ok ID _ _ Hreach)|].
        destruct (decide (w = Some c ∧ d = boolean)) as [[? _]|_]; [done|].
        by apply get_ok, (reachable_by_ok ID _ _ Hreach).
      + rewrite !canon_nil. congruence. }
  assert (Hval1 : ∀ a0 a1 d,
            get ID ft1 (Some a0) (Some a1) d = get ID ft (Some a0) (Some a1) d).
  { intros a0 a1 d. rewrite Hf1, get_checkpoint; [done|].
    rewrite canon_nil. intros Heq.
    destruct (canon_values ID a0 a1 d) as [x Hx]. by rewrite Heq in Hx. }
  destruct (domainRelationTable (VOp c)) as [[du r]|] eqn:Htr.
  - destruct (Hargs _ eq_refl) as (a0 & a1 & Ha0 & Ha1).
    rewrite Ha0, Ha1, !obind_Some. cbn [fst snd].
    destruct (domainRelationTable_range _ _ _ Htr) as [Hdu Hr].
    assert (Hdu15 : du ≤ 15 ∧ du ≠ 0).
    { repeat (apply elem_of_cons in Hdu as [-> | Hdu]); try (by vm_compute).
      by apply elem_of_nil in Hdu. }
    destruct (updateRestrictions_spec ID ft1 du (Some a0) (Some a1) r br
                Hreach1 (proj1 Hdu15) Hr) as [_ Hup].
    destruct (Hup (proj2 Hdu15) Hbr) as (ft2 & Hu2 & Hreach2 & _ & Hb2 & Hf2).
    exists ft2. split; [done|]. split; [done|]. split.
    + intros w d. destruct (Hnil1 w d) as (m & Hm & Hm1).
      exists m. split; [done|]. rewrite Hf2; [done|].
      rewrite canon_nil. intros Heq.
      destruct (canon_values ID a0 a1 d) as [x Hx]. by rewrite <- Heq in Hx.
    + intros a0' a1' du' r' [= <- <-] Ha0' Ha1' d.
      assert (a0' = a0) as -> by congruence.
      assert (a1' = a1) as -> by congruence.
      destruct (Hb2 d) as (m & Hm & Hm2). rewrite Hval1 in Hm.
      by exists m.
  - exists ft1. split; [done|]. split; [done|]. split; [done|].
    intros a0 a1 du r Hno. done.
Qed.

Section LearnFacts.

Context {B : Type}.
Variable Kind : B → BlockKind.
Variable Control : B → option Value.
Variable debug : B → Z.
Variable Line : B → Z.

(** X17: what the walk learns below an edge decides the same condition
    again.  In a reachable table that knows nothing against it (the Boolean
    mask of the control [c] contains [lt|gt] for the true edge, [eq] for the
    false edge), after [learn] for the branch [br], [simplifyBlock] returns
    [br] on every [If] block whose control is [c]. *)
Theorem learn_decides_same_control (ft : factsTable Value) (c : Value)
  (br : branch) (m0 : relation) :
  reachable ID ft → br ≠ Branch.unknown →
  (∀ tr, domainRelationTable (VOp c) = Some tr →
     ∃ a0 a1, Args c !! 0%nat = Some a0 ∧ Args c !! 1%nat = Some a1) →
  get ID ft None (Some c) boolean = Some m0 →
  mask_subset (if decide (br = Branch.negative) then Rel.eq
               else N.lor Rel.lt Rel.gt) m0 →
  ∃ ft',
    learn ft (Some c) br = Some ft'
    ∧ ∀ b, Kind b = BlockIf → Control b = Some c →
        fst <$> simplifyBlock Kind Control debug Line ft' b = Some br.
Proof.
  intros Hreach Hbr Hargs Hm0 Hsub.
  destruct (learn_spec ft c br Hreach Hbr Hargs)
    as (ft' & Hlearn & Hreach' & Hnil & _).
  exists ft'. split; [done|]. intros b Hk Hc.
  destruct (Hnil (Some c) boolean) as (m & Hm & Hm').
  destruct (decide (Some c = Some c ∧ boolean = boolean)) as [_|Hn];
    [|by destruct Hn].
  assert (m = m0) as -> by congruence.
  destruct (simplifyBlock_decided Kind Control debug Line ft' b c _ Hk Hc Hm')
    as [Hpos Hneg].
  apply mask_subset_land in Hsub.
  destruct (decide (br = Branch.negative)) as [->|Hnn].
  - change (complement (N.lor Rel.lt Rel.gt)) with Rel.eq in Hneg.
    by rewrite (Hneg Hsub).
  - destruct br; [done | | done]. by rewrite (Hpos Hsub).
Qed.

(** X18: what the walk learns below an edge of a comparison decides the same
    comparison of the same arguments, also as another value.  Let the
    control [c] of the parent and the control [c'] of an [If] block have the
    same table entry and the same two arguments, in a reachable table in
    which the Boolean mask of [c'] is [lt|eq|gt] and the mask of the
    arguments in the first domain of the entry is not emptied by the branch
    [br].  After [learn] for [br], [simplifyBlock] returns [br] on the
    block. *)
Theorem learn_decides_same_comparison (ft : factsTable Value)
  (c c' a0 a1 : Value) (du : domain) (r : relation) (br : branch)
  (d1 : domain) (m1 : relation) :
  reachable ID ft → br ≠ Branch.unknown →
  domainRelationTable (VOp c) = Some (du, r) →
  Args c !! 0%nat = Some a0 → Args c !! 1%nat = Some a1 →
  domainRelationTable (VOp c') = Some (du, r) →
  Args c' !! 0%nat = Some a0 → Args c' !! 1%nat = Some a1 →
  get ID ft None (Some c') boolean = Some Rel.any →
  head (domain_bits du) = Some d1 →
  get ID ft (Some a0) (Some a1) d1 = Some m1 →
  N.land m1 (if decide (br = Branch.negative) then complement r else r) ≠ 0 →
  ∃ ft',
    learn ft (Some c) br = Some ft'
    ∧ ∀ b, Kind b = BlockIf → Control b = Some c' →
        fst <$> simplifyBlock Kind Control debug Line ft' b = Some br.
Proof.
  intros Hreach Hbr Htr Ha0 Ha1 Htr' Ha0' Ha1' Hbool Hd1 Hm1 Hne.
  destruct (learn_spec ft c br Hreach Hbr)
    as (ft' & Hlearn & Hreach' & Hnil & Hval).
  { intros tr _. by exists a0, a1. }
  exists ft'. split; [done|]. intros b Hk Hc.
  pose proof (reachable_by_ok ID _ _ Hreach') as Hft'.
  destruct (domainRelationTable_range _ _ _ Htr) as [_ Hr].
  destruct (Hnil (Some c') boolean) as (m & Hm & Hm').
  assert (m = Rel.any) as -> by congruence.
  destruct (decide (Some c' = Some c ∧ boolean = boolean)) as [[_ _]|Hcc].
  - (* the same value: the Boolean mask decides *)
    destruct (simplifyBlock_decided Kind Control debug Line ft' b c' _
                Hk Hc Hm') as [Hpos Hneg].
    destruct (decide (br = Branch.negative)) as [->|Hnn].
    + by rewrite (Hneg eq_refl).
    + destruct br; [done | | done]. by rewrite (Hpos eq_refl).
  - (* another value: the mask of the arguments decides *)
    set (g := λ d : domain,
           if lessByID ID (Some a1) (Some a0)
           then swap_lt_gt (lookupD (facts ft') (canon ID (Some a0) (Some a1) d))
           else lookupD (facts ft') (canon ID (Some a0) (Some a1) d)).
    assert (Hg : ∀ d, get ID ft' (Some a0) (Some a1) d = Some (g d)).
    { intros d. by apply get_ok. }
    rewrite (simplifyBlock_undecided Kind Control debug Line ft' b c' a0 a1
               du r Rel.any g Hk Hc Htr' Ha0' Ha1' Hm'
               ltac:(by vm_compute) ltac:(by vm_compute) Hg).
    destruct (domain_bits du) as [|d1' ds] eqn:Hbits; [done|].
    injection Hd1 as ->.
    destruct (Hval a0 a1 du r Htr Ha0 Ha1 d1) as (m & Hm0 & Hm1').
    assert (m = m1) as -> by congruence.
    rewrite decide_True in Hm1' by (rewrite Hbits; by left).
    assert (Hg1 : g d1 = N.land m1 (if decide (br = Branch.negative)
                                    then complement r else r)).
    { rewrite Hg in Hm1'. by injection Hm1'. }
    cbn [fmap list_fmap scan_masks]. rewrite Hg1.
    destruct (decide (br = Branch.negative)) as [->|Hnn].
    + destruct (bool_decide (N.land m1 (complement r) ≠ 0)
                && bool_decide (N.land r (N.land m1 (complement r))
                                = N.land m1 (complement r))) eqn:E1.
      { apply andb_true_iff in E1 as [_ E1].
        apply bool_decide_eq_true in E1.
        rewrite complement_disjoint in E1 by done. by destruct Hne. }
      rewrite (proj2 (test_negative r (N.land m1 (complement r)))); [done|].
      split; [done|]. rewrite N.land_comm. apply mask_subset_land_l.
    + destruct br; [done | | done].
      rewrite (proj2 (test_positive r (N.land m1 r))); [done|].
      split; [done|]. rewrite N.land_comm. apply mask_subset_land_l.
Qed.

End LearnFacts.

(** ** The dominator walk *)

Lemma updateRestrictions_run {V : Type} `{Countable V} (ID : V → Z)
  (ft : factsTable V) (t : domain) (v w : option V) (r : relation)
  (br : branch) :
  t ≠ 0 → t ≤ 15 → br ≠ Branch.unknown →
  updateRestrictions ID ft t v w r br
  = run ID ((λ d, DoUpdate v w d
                    (if decide (br = Branch.negative)
                     then N.lxor Rel.any r else r))
            <$> domain_bits t) ft.
Proof.
  intros Ht Ht15 Hbr. unfold updateRestrictions.
  rewrite decide_False by (by intros [?|?]).
  apply updateRestrictions_loop_run; [lia | done].
Qed.

Lemma domain_bits_ok {V : Type} (t : domain) (v w : option V) (r : relation) :
  r ≤ 7 →
  Forall op_ok ((λ d, DoUpdate v w d r) <$> domain_bits t).
Proof.
  intros Hr. apply Forall_fmap, Forall_forall. intros d Hd.
  split; [|done]. unfold domain_bits in Hd.
  apply list_elem_of_filter in Hd as [_ Hd].
  repeat (apply elem_of_cons in Hd as [-> | Hd]); try (by vm_compute).
  by apply elem_of_nil in Hd.
Qed.

Lemma in_bracket_in_bracket_obs {V : Type} `{Countable V}
  (ft0 ft : factsTable V) (es : list (fact V)) :
  in_bracket ft0 ft es → in_bracket_obs ft0 ft es.
Proof.
  intros (Hst & Hcp & Hold). split; [done|]. split; [done|].
  intros q. specialize (Hold q). destruct (oldest es q); [done|].
  unfold lookupD. by rewrite Hold.
Qed.

Lemma in_bracket_obs_same_table {V : Type} `{Countable V}
  (ft0 ft ft' : factsTable V) (es : list (fact V)) :
  in_bracket_obs ft0 ft es → same_table ft ft' → in_bracket_obs ft0 ft' es.
Proof.
  intros (Hst & Hcp & Hold) [Hst' Hq]. split; [by rewrite Hst'|].
  split; [done|]. intros q. specialize (Hold q).
  destruct (oldest es q); [done|]. by rewrite Hq.
Qed.

Lemma same_table_refl {V : Type} `{Countable V} (ft : factsTable V) :
  same_table ft ft.
Proof. by split. Qed.

Lemma same_table_trans {V : Type} `{Countable V}
  (ft1 ft2 ft3 : factsTable V) :
  same_table ft1 ft2 → same_table ft2 ft3 → same_table ft1 ft3.
Proof.
  intros [Hs1 Hq1] [Hs2 Hq2]. split; [by rewrite Hs2|].
  intros q. by rewrite Hq2.
Qed.

(** [learn] is a checkpoint followed by updates: the table it returns is
    inside a bracket opened on the table it was given. *)
Lemma learn_in_bracket (ft : factsTable Value) (c : Value) (br : branch) :
  reachable ID ft → br ≠ Branch.unknown →
  (∀ tr, domainRelationTable (VOp c) = Some tr →
     ∃ a0 a1, Args c !! 0%nat = Some a0 ∧ Args c !! 1%nat = Some a1) →
  ∃ ft' es,
    learn ft (Some c) br = Some ft'
    ∧ reachable ID ft'
    ∧ in_bracket_obs ft ft' es.
Proof.
  intros Hreach Hbr Hargs. unfold learn. cbv zeta.
  assert (Hr5 : (if decide (br = Branch.negative)
                 then N.lxor Rel.any (N.lor Rel.lt Rel.gt)
                 else N.lor Rel.lt Rel.gt) ≤ 7).
  { case_decide; by vm_compute. }
  rewrite updateRestrictions_run by (done || by vm_compute).
  destruct (run_in_bracket ID ft _ (checkpoint ft) []
              (domain_bits_ok boolean None (Some c) _ Hr5))
    as (ft1 & es1 & Hrun1 & Hin1 & _).
  { apply checkpoint_ok. by eapply reachable_by_ok. }
  { split; [done|]. split; [constructor|]. by intros q. }
  rewrite Hrun1, !obind_Some. rewrite app_nil_r in Hin1.
  assert (Hreach1 : reachable ID ft1).
  { eapply run_reachable; [|exact Hrun1]. by apply reach_checkpoint. }
  destruct (domainRelationTable (VOp c)) as [[du r]|] eqn:Htr.
  - destruct (Hargs _ eq_refl) as (a0 & a1 & Ha0 & Ha1).
    rewrite Ha0, Ha1, !obind_Some. cbn [fst snd].
    destruct (domainRelationTable_range _ _ _ Htr) as [Hdu Hr].
    assert (Hdu15 : du ≤ 15 ∧ du ≠ 0).
    { repeat (apply elem_of_cons in Hdu as [-> | Hdu]); try (by vm_compute).
      by apply elem_of_nil in Hdu. }
    assert (Hr' : (if decide (br = Branch.negative)
                   then N.lxor Rel.any r else r) ≤ 7).
    { case_decide; [by apply complement_le | done]. }
    rewrite updateRestrictions_run by (done || apply Hdu15).
    destruct (run_in_bracket ID ft _ ft1 es1
                (domain_bits_ok du (Some a0) (Some a1) _ Hr'))
      as (ft2 & es2 & Hrun2 & Hin2 & _); [by eapply reachable_by_ok | done |].
    exists ft2, (es2 ++ es1). split; [done|]. split.
    + by eapply run_reachable.
    + by apply in_bracket_in_bracket_obs.
  - exists ft1, es1. split; [done|]. split; [done|].
    by apply in_bracket_in_bracket_obs.
Qed.

Section WalkFacts.

Context {B : Type} `{EqDecision B} {sparseTree : Type}.
Variable Preds : B → list B.
Variable debug : B → Z.
Variable Line : B → Z.
Variable isAncestorEq : sparseTree → B → B → bool.
Variable idom : B → option B.
Variable Child : sparseTree → B → option B.
Variable Sibling : sparseTree → B → option B.
Variable sdom : sparseTree.

Implicit Types (t : dtree B) (ts : list (dtree B)) (b p x : B).
Implicit Types (σ : blocks B) (ft : factsTable Value).
Implicit Types (W : list (bp B)) (out : list Warning).

Lemma dtree_ind_children (P : dtree B → Prop) :
  (∀ b ts, Forall P ts → P (DNode b ts)) → ∀ t, P t.
Proof.
  intros HP. fix IH 1. intros [b ts]. apply HP.
  induction ts as [|t ts IHts]; constructor; [apply IH | apply IHts].
Qed.

Lemma nodes_root t : root t ∈ nodes t.
Proof. destruct t as [b ts]. by left. Qed.

Lemma length_children ts :
  (length ts ≤ length (concat (map nodes ts)))%nat.
Proof.
  induction ts as [|[b ts'] ts IH]; [done|].
  cbn [map concat nodes]. rewrite length_app. simpl. lia.
Qed.

Lemma push_children_chain ts (s : option B) (fuel : nat) W :
  sibling_chain Sibling sdom s ts → (length ts ≤ fuel)%nat →
  push_children Sibling fuel sdom s W
  = Some (reverse ((λ t, mkbp (root t) descend) <$> ts) ++ W).
Proof.
  revert s fuel W. induction ts as [|t ts IH]; intros s fuel W Hch Hfuel.
  - simpl in Hch. subst s. by destruct fuel.
  - destruct Hch as [-> Hch]. destruct fuel as [|fuel]; [simpl in Hfuel; lia|].
    cbn [push_children]. rewrite (IH _ _ _ Hch) by (simpl in Hfuel; lia).
    cbn [fmap list_fmap]. by rewrite reverse_cons, <- app_assoc.
Qed.

Lemma getBranch_agree σ σ' (p : option B) b :
  (∀ x, p = Some x → agree σ σ' x) →
  getBranch (b_Kind σ) (b_Succs σ) Preds isAncestorEq sdom p b
  = getBranch (b_Kind σ') (b_Succs σ') Preds isAncestorEq sdom p b.
Proof.
  intros Hag. destruct p as [x|]; [|done].
  destruct (Hag x eq_refl) as (Hk & _ & Hs).
  unfold getBranch. by rewrite Hk, Hs.
Qed.

Lemma getBranch_total σ (p : option B) b :
  (∀ x, p = Some x → b_Kind σ x = BlockIf → (2 ≤ length (b_Succs σ x))%nat) →
  ∃ br,
    getBranch (b_Kind σ) (b_Succs σ) Preds isAncestorEq sdom p b = Some br
    ∧ (br ≠ Branch.unknown → ∃ x, p = Some x ∧ b_Kind σ x = BlockIf).
Proof.
  intros Hlen. destruct p as [x|]; [|by exists Branch.unknown].
  unfold getBranch. destruct (decide (b_Kind σ x ≠ BlockIf)) as [Hk|Hk].
  { by exists Branch.unknown. }
  assert (Hk' : b_Kind σ x = BlockIf)
    by (by destruct (decide (b_Kind σ x = BlockIf))).
  specialize (Hlen x eq_refl Hk').
  destruct (b_Succs σ x) as [|s0 [|s1 rest]]; [simpl in Hlen; lia.. |].
  cbn [lookup list_lookup]. rewrite obind_Some.
  destruct (isAncestorEq sdom s0 b && bool_decide (length (Preds s0) = 1%nat)).
  { exists Branch.positive. split; [done | eauto]. }
  rewrite obind_Some.
  destruct (isAncestorEq sdom s1 b && bool_decide (length (Preds s1) = 1%nat)).
  { exists Branch.negative. split; [done | eauto]. }
  by exists Branch.unknown.
Qed.

Lemma rewrite_block_spec σ0 σ b (succ : branch) :
  (succ ≠ Branch.unknown →
   b_Kind σ b = BlockIf ∧ (2 ≤ length (b_Succs σ b))%nat) →
  ∃ σ',
    rewrite_block σ b succ = Some σ'
    ∧ (∀ x, x ≠ b → agree σ' σ x)
    ∧ (agree σ σ0 b → same_or_rewritten σ0 σ' b).
Proof.
  intros Hok. unfold rewrite_block.
  destruct (decide (succ ≠ Branch.unknown)) as [Hs|Hs].
  - destruct (Hok Hs) as [Hk Hlen]. cbv zeta.
    destruct (decide (succ = Branch.negative)) as [Hn|Hn].
    + destruct (b_Succs σ b) as [|s0 [|s1 rest]] eqn:Hsuccs;
        [simpl in Hlen; lia.. |].
      eexists. split; [done|]. split.
      * intros x Hx. unfold agree, set_field. cbn [b_Kind b_Control b_Succs].
        by rewrite !decide_False by done.
      * intros (Hk0 & _ & Hs0). right.
        unfold set_field. cbn [b_Kind b_Control b_Succs].
        rewrite !decide_True by done.
        split; [congruence|]. split; [done|]. split; [done|].
        right. exists s0, s1, rest. split; [congruence | done].
    + eexists. split; [done|]. split.
      * intros x Hx. unfold agree, set_field. cbn [b_Kind b_Control b_Succs].
        by rewrite !decide_False by done.
      * intros (Hk0 & _ & Hs0). right.
        unfold set_field. cbn [b_Kind b_Control b_Succs].
        rewrite !decide_True by done.
        split; [congruence|]. split; [done|]. split; [done|]. by left.
  - exists σ. split; [done|]. split; [done|]. intros Hag. by left.
Qed.

Variable σ0 : blocks B.

Lemma agree_refl σ x : agree σ σ x.
Proof. by split. Qed.

Lemma agree_trans σ1 σ2 σ3 x : agree σ1 σ2 x → agree σ2 σ3 x → agree σ1 σ3 x.
Proof.
  intros (? & ? & ?) (? & ? & ?). split; [congruence|]. split; congruence.
Qed.

Lemma same_or_rewritten_agree σ σ' x :
  same_or_rewritten σ0 σ x → agree σ' σ x → same_or_rewritten σ0 σ' x.
Proof.
  intros Hs (Hk & Hc & Hsu). unfold same_or_rewritten.
  rewrite Hk, Hc, Hsu. exact Hs.
Qed.

Lemma prove_loop_step (fuel : nat) (node : bp B) W ft σ out :
  prove_loop Preds debug Line isAncestorEq idom Child Sibling (S fuel) sdom
    (node :: W) ft σ out
  = (branch ← getBranch (b_Kind σ) (b_Succs σ) Preds isAncestorEq sdom
                (idom (bp_block node)) (bp_block node);
     match bp_state node with
     | descend =>
         ft ← (if decide (branch ≠ Branch.unknown)
               then p ← idom (bp_block node); learn ft (b_Control σ p) branch
               else Some ft);
         work ← push_children Sibling fuel sdom (Child sdom (bp_block node))
                  (mkbp (bp_block node) simplify :: W);
         prove_loop Preds debug Line isAncestorEq idom Child Sibling fuel sdom
           work ft σ out
     | simplify =>
         res ← simplifyBlock (b_Kind σ) (b_Control σ) debug Line ft
                 (bp_block node);
         σ ← rewrite_block σ (bp_block node) res.1;
         ft ← (if decide (branch ≠ Branch.unknown) then restore ft
               else Some ft);
         prove_loop Preds debug Line isAncestorEq idom Child Sibling fuel sdom
           W ft σ (out ++ res.2)
     end).
Proof. reflexivity. Qed.

(** The subtrees of a node one after the other. *)
Lemma walk_forest b ts :
  Forall (λ t, walked Preds debug Line isAncestorEq idom Child Sibling sdom σ0
                 (Some b) [mkbp (root t) descend] (nodes t)) ts →
  NoDup (concat (map nodes ts)) →
  b ∉ concat (map nodes ts) →
  walked Preds debug Line isAncestorEq idom Child Sibling sdom σ0 (Some b)
    (reverse ((λ t, mkbp (root t) descend) <$> ts))
    (concat (map nodes ts)).
Proof.
  induction ts as [|t ts IH] using rev_ind; intros Hall Hnd Hb.
  { intros W ft σ out Hreach _ _. exists ft, σ, [].
    split; [by rewrite app_nil_r|]. split; [done|].
    split; [apply same_table_refl|]. split; [intros; apply agree_refl|].
    split; [by intros x Hx; apply elem_of_nil in Hx | done]. }
  apply Forall_app in Hall as [Hall Ht]. inversion_clear Ht as [|?? Ht' _].
  assert (Hcat : concat (map nodes (ts ++ [t]))
                 = concat (map nodes ts) ++ nodes t).
  { rewrite map_app, concat_app. cbn [map concat]. by rewrite app_nil_r. }
  rewrite Hcat in Hnd, Hb |- *. clear Hcat.
  apply NoDup_app in Hnd as (Hnd1 & Hdisj & Hnd2).
  rewrite not_elem_of_app in Hb. destruct Hb as [Hb1 Hb2].
  rewrite fmap_app, reverse_app. cbn [fmap list_fmap].
  change (reverse [mkbp (root t) descend]) with [mkbp (root t) descend].
  intros W ft σ out Hreach Hag Hagb.
  destruct (Ht' (reverse ((λ t, mkbp (root t) descend) <$> ts) ++ W) ft σ out
              Hreach)
    as (ft1 & σ1 & ws1 & Hloop1 & Hreach1 & Hsame1 & Hout1 & Hin1 & Hq1).
  { intros x Hx. apply Hag, elem_of_app. by right. }
  { done. }
  destruct (IH Hall Hnd1 Hb1 W ft1 σ1 (out ++ ws1) Hreach1)
    as (ft2 & σ2 & ws2 & Hloop2 & Hreach2 & Hsame2 & Hout2 & Hin2 & Hq2).
  { intros x Hx. eapply agree_trans; [apply Hout1|].
    - intros Hx'. by apply (Hdisj x).
    - apply Hag, elem_of_app. by left. }
  { intros x [= <-]. eapply agree_trans; [by apply Hout1 | by apply Hagb]. }
  exists ft2, σ2, (ws1 ++ ws2). split; [|split; [|split; [|split; [|split]]]].
  - intros fuel. rewrite length_app.
    replace (2 * (length (concat (map nodes ts)) + length (nodes t)) + fuel)%nat
      with (2 * length (nodes t)
            + (2 * length (concat (map nodes ts)) + fuel))%nat by lia.
    cbn [app]. rewrite Hloop1, Hloop2. by rewrite app_assoc.
  - done.
  - by eapply same_table_trans.
  - intros x Hx. rewrite not_elem_of_app in Hx. destruct Hx as [Hx1 Hx2].
    eapply agree_trans; [by apply Hout2 | by apply Hout1].
  - intros x Hx. apply elem_of_app in Hx as [Hx|Hx].
    + by apply Hin2.
    + eapply same_or_rewritten_agree; [by apply Hin1|].
      apply Hout2. intros Hx'. by apply (Hdisj x).
  - intros Hq. by rewrite (Hq1 Hq), (Hq2 Hq).
Qed.

Lemma nodes_children t ts x :
  t ∈ ts → x ∈ nodes t → x ∈ concat (map nodes ts).
Proof.
  induction ts as [|t' ts IH]; intros Ht Hx; [by apply elem_of_nil in Ht|].
  cbn [map concat]. apply elem_of_app.
  apply elem_of_cons in Ht as [-> | Ht]; [by left | right; by apply IH].
Qed.

Lemma NoDup_children t ts :
  t ∈ ts → NoDup (concat (map nodes ts)) → NoDup (nodes t).
Proof.
  induction ts as [|t' ts IH]; intros Ht Hnd; [by apply elem_of_nil in Ht|].
  cbn [map concat] in Hnd. apply NoDup_app in Hnd as (Hnd1 & _ & Hnd2).
  apply elem_of_cons in Ht as [-> | Ht]; [done | by apply IH].
Qed.

(** One subtree: the block is visited going down, its subtrees are walked,
    and the block is visited coming back. *)
Lemma walk_tree t :
  tree_ok idom Child Sibling sdom t →
  NoDup (nodes t) →
  Forall (block_ok σ0) (nodes t) →
  (∀ p, idom (root t) = Some p → (p ∉ nodes t) ∧ block_ok σ0 p) →
  walked Preds debug Line isAncestorEq idom Child Sibling sdom σ0
    (idom (root t)) [mkbp (root t) descend] (nodes t).
Proof.
  induction t as [b ts IH] using dtree_ind_children.
  intros Htree Hnd Hok Hpar.
  inversion Htree as [b' ts' Hchain Hidom Htrees]; subst b' ts'.
  cbn [root nodes] in *.
  apply NoDup_cons in Hnd as [Hb Hnd].
  apply Forall_cons in Hok as [Hokb Hok].
  assert (Hforest : walked Preds debug Line isAncestorEq idom Child Sibling
                      sdom σ0 (Some b)
                      (reverse ((λ t, mkbp (root t) descend) <$> ts))
                      (concat (map nodes ts))).
  { apply walk_forest; [|done..].
    apply Forall_forall. intros t Ht.
    rewrite Forall_forall in IH, Hidom, Htrees.
    rewrite <- (Hidom t Ht). apply (IH t Ht).
    - by apply Htrees.
    - by eapply NoDup_children.
    - apply Forall_forall. intros x Hx.
      rewrite Forall_forall in Hok. apply Hok. by eapply nodes_children.
    - intros p Hp. rewrite (Hidom t Ht) in Hp. injection Hp as <-.
      split; [|done]. intros Hx. apply Hb. by eapply nodes_children. }
  intros W ft σ out Hreach Hag Hagp.
  assert (Hagb : agree σ σ0 b) by (apply Hag; by left).
  (* the branch taken from the immediate dominator *)
  destruct (getBranch_total σ (idom b) b) as (br & Hbr & Hbrp).
  { intros x Hx Hk. destruct (Hpar x Hx) as [_ Hokx].
    destruct (Hagp x Hx) as (Hk' & _ & Hs'). rewrite Hs'.
    apply Hokx. by rewrite <- Hk'. }
  (* going down: the facts of the branch *)
  assert (Hlearn : ∃ ft1,
            (if decide (br ≠ Branch.unknown)
             then p ← idom b; learn ft (b_Control σ p) br
             else Some ft) = Some ft1
            ∧ reachable ID ft1
            ∧ (if decide (br ≠ Branch.unknown)
               then ∃ es, in_bracket_obs ft ft1 es
               else ft1 = ft)).
  { destruct (decide (br ≠ Branch.unknown)) as [Hne|Hne]; [|by exists ft].
    destruct (Hbrp Hne) as (x & Hx & Hk). rewrite Hx. cbn [mbind option_bind].
    destruct (Hpar x Hx) as [_ Hokx].
    destruct (Hagp x Hx) as (Hk' & Hc' & _).
    destruct Hokx as [(c & Hc & Hcok) _]; [by rewrite <- Hk'|].
    rewrite Hc', Hc.
    destruct (learn_in_bracket ft c br Hreach Hne) as (ft1 & es & H1 & H2 & H3).
    { intros tr Htr. destruct (Hcok tr Htr) as (a0 & a1 & ? & ? & _). eauto. }
    exists ft1. split; [done|]. split; [done | by exists es]. }
  destruct Hlearn as (ft1 & Hlearn & Hreach1 & Hbracket).
  (* the subtrees *)
  destruct (Hforest (mkbp b simplify :: W) ft1 σ out Hreach1)
    as (ft2 & σ2 & ws2 & Hloop2 & Hreach2 & Hsame2 & Hout2 & Hin2 & Hq2).
  { intros x Hx. apply Hag. by right. }
  { by intros x [= <-]. }
  (* coming back: the branch is the one taken going down *)
  assert (Hbr2 : getBranch (b_Kind σ2) (b_Succs σ2) Preds isAncestorEq sdom
                   (idom b) b = Some br).
  { rewrite <- Hbr. apply getBranch_agree. intros x Hx. apply Hout2.
    intros Hx'. destruct (Hpar x Hx) as [Hnot _]. apply Hnot. by right. }
  assert (Hagb2 : agree σ2 σ0 b).
  { eapply agree_trans; [by apply Hout2 | done]. }
  destruct Hagb2 as (Hk2 & Hc2 & Hs2).
  destruct (simplifyBlock_total (b_Kind σ2) (b_Control σ2) debug Line ft2 b
              Hreach2) as [[[succ ws] Hsimp] Hnotif].
  { intros Hk. rewrite Hc2. apply Hokb. by rewrite <- Hk2. }
  destruct (rewrite_block_spec σ0 σ2 b succ) as (σ3 & Hrw & Hout3 & Hin3).
  { intros Hsucc.
    destruct (decide (b_Kind σ2 b = BlockIf)) as [Hk|Hk].
    - split; [done|]. rewrite Hs2. apply Hokb. by rewrite <- Hk2.
    - rewrite (Hnotif Hk) in Hsimp. by injection Hsimp as <- <-. }
  assert (Hrestore : ∃ ft3,
            (if decide (br ≠ Branch.unknown) then restore ft2 else Some ft2)
            = Some ft3
            ∧ reachable ID ft3 ∧ same_table ft ft3).
  { destruct (decide (br ≠ Branch.unknown)) as [Hne|Hne].
    - destruct Hbracket as [es Hes].
      destruct (restore_in_bracket_obs ID ft ft2 es) as (ft3 & H3 & Hst & Hq).
      { by eapply reachable_by_ok. }
      { by eapply in_bracket_obs_same_table. }
      exists ft3. split; [done|]. split; [|by split].
      by eapply reach_restore.
    - subst ft1. by exists ft2. }
  destruct Hrestore as (ft3 & Hrestore & Hreach3 & Hsame3).
  exists ft3, σ3, (ws2 ++ ws). split; [|split; [|split; [|split; [|split]]]].
  - intros fuel. cbn [length].
    replace (2 * S (length (concat (map nodes ts))) + fuel)%nat
      with (S (S (2 * length (concat (map nodes ts)) + fuel))) by lia.
    cbn [app]. rewrite prove_loop_step. cbn [bp_block bp_state].
    rewrite Hbr, obind_Some, Hlearn, obind_Some.
    rewrite (push_children_chain ts) by (done || pose proof (length_children ts); lia).
    rewrite obind_Some.
    replace (S (2 * length (concat (map nodes ts)) + fuel))
      with (2 * length (concat (map nodes ts)) + S fuel)%nat by lia.
    rewrite Hloop2, prove_loop_step. cbn [bp_block bp_state].
    rewrite Hbr2, obind_Some, Hsimp, obind_Some. cbn [fst snd].
    rewrite Hrw, obind_Some, Hrestore, obind_Some. by rewrite app_assoc.
  - done.
  - done.
  - intros x Hx. apply not_elem_of_cons in Hx as [Hxb Hx].
    eapply agree_trans; [by apply Hout3 | by apply Hout2].
  - intros x Hx. apply elem_of_cons in Hx as [-> | Hx].
    + apply Hin3. by split.
    + eapply same_or_rewritten_agree; [by apply Hin2|].
      apply Hout3. by intros ->.
  - intros Hq. rewrite (Hq2 Hq).
    destruct (simplifyBlock_shape _ _ _ _ _ _ _ _ Hsimp)
      as [[_ ->] | [(_ & _ & ->) | (_ & Hd & _)]]; [done.. |].
    by destruct (Hq b).
Qed.

Lemma prove_spec (T : dtree B) :
  tree_ok idom Child Sibling sdom T →
  NoDup (nodes T) →
  Forall (block_ok σ0) (nodes T) →
  idom (root T) = None →
  ∃ ft' σ' out,
    (∀ fuel,
       prove Preds debug Line isAncestorEq idom Child Sibling
         (2 * length (nodes T) + fuel) sdom (root T) σ0
       = Some (ft', σ', out))
    ∧ same_table newFactsTable ft'
    ∧ (∀ x, x ∉ nodes T → agree σ' σ0 x)
    ∧ (∀ x, x ∈ nodes T → same_or_rewritten σ0 σ' x)
    ∧ ((∀ x, ¬ (0 < debug x)%Z) → out = []).
Proof.
  intros Htree Hnd Hok Hroot.
  pose proof (walk_tree T Htree Hnd Hok) as Hwalk.
  rewrite Hroot in Hwalk.
  assert (Hpar : ∀ p, None = Some p → (p ∉ nodes T) ∧ block_ok σ0 p)
    by (by intros p [=]).
  destruct (Hwalk Hpar [] newFactsTable σ0 [] (reach_new _ _))
    as (ft' & σ' & ws & Hloop & _ & Hsame & Hout & Hin & Hq).
  { intros. apply agree_refl. }
  { by intros x [=]. }
  exists ft', σ', ws. split; [|done].
  intros fuel. unfold prove. rewrite Hloop. by destruct fuel.
Qed.

(** X19: on a function whose dominator tree is finite (the chains of
    [Child] and [Sibling] from the entry block describe a tree without
    repeated block, and [idom] gives the parent), whose [If] blocks have a
    control (with two arguments when its opcode is in the table) and two
    successors, and whose entry block has no dominator, [prove] returns
    after at most two iterations of its loop per block, without a panic, and
    leaves the fact table as [newFactsTable] made it: every checkpoint of
    the walk is undone, the undo stack is the initial one and every [get]
    answers as on a fresh table. *)
Theorem prove_restores_table (T : dtree B) :
  tree_ok idom Child Sibling sdom T →
  NoDup (nodes T) →
  Forall (block_ok σ0) (nodes T) →
  idom (root T) = None →
  ∃ ft' σ' out,
    (∀ fuel,
       prove Preds debug Line isAncestorEq idom Child Sibling
         (2 * length (nodes T) + fuel) sdom (root T) σ0
       = Some (ft', σ', out))
    ∧ stack ft' = stack (newFactsTable (V := Value))
    ∧ ∀ v w d, get ID ft' v w d = get ID newFactsTable v w d.
Proof.
  intros Htree Hnd Hok Hroot.
  destruct (prove_spec T Htree Hnd Hok Hroot)
    as (ft' & σ' & out & Hrun & [Hst Hq] & _).
  exists ft', σ', out. split; [done|]. split; [done|].
  by apply get_lookupD_eq.
Qed.

(** X20: under the same conditions, [prove] changes nothing but [If]
    blocks of the dominator tree: a block outside the tree keeps its kind,
    control and successors, and a block of the tree keeps them or was an
    [If] and is now a [First] without control whose successors are the old
    ones, the first two in the same or in the other order. *)
Theorem prove_rewrites_only_If (T : dtree B) :
  tree_ok idom Child Sibling sdom T →
  NoDup (nodes T) →
  Forall (block_ok σ0) (nodes T) →
  idom (root T) = None →
  ∃ ft' σ' out,
    (∀ fuel,
       prove Preds debug Line isAncestorEq idom Child Sibling
         (2 * length (nodes T) + fuel) sdom (root T) σ0
       = Some (ft', σ', out))
    ∧ (∀ x, x ∉ nodes T → agree σ' σ0 x)
    ∧ (∀ x, same_or_rewritten σ0 σ' x).
Proof.
  intros Htree Hnd Hok Hroot.
  destruct (prove_spec T Htree Hnd Hok Hroot)
    as (ft' & σ' & out & Hrun & _ & Hout & Hin & _).
  exists ft', σ', out. split; [done|]. split; [done|].
  intros x. destruct (decide (x ∈ nodes T)) as [Hx|Hx]; [by apply Hin|].
  left. apply (Hout x Hx).
Qed.

(** X21: under the same conditions, when [debug] is positive at no block,
    [prove] emits no diagnostic. *)
Theorem prove_quiet (T : dtree B) :
  tree_ok idom Child Sibling sdom T →
  NoDup (nodes T) →
  Forall (block_ok σ0) (nodes T) →
  idom (root T) = None →
  (∀ x, ¬ (0 < debug x)%Z) →
  ∃ ft' σ',
    ∀ fuel,
      prove Preds debug Line isAncestorEq idom Child Sibling
        (2 * length (nodes T) + fuel) sdom (root T) σ0
      = Some (ft', σ', []).
Proof.
  intros Htree Hnd Hok Hroot Hquiet.
  destruct (prove_spec T Htree Hnd Hok Hroot)
    as (ft' & σ' & out & Hrun & _ & _ & _ & Hq).
  exists ft', σ'. by rewrite <- (Hq Hquiet).
Qed.

End WalkFacts.

(** ** The further properties on concrete inputs *)

Lemma example_calls_balanced : balanced example_calls.
Proof.
  apply balanced_update; [done | by vm_compute |].
  apply (balanced_bracket
           [CallUpdate (Some 1%Z) (Some 2%Z) signed Rel.eq;
            CallGet (Some 1%Z) (Some 2%Z) signed]
           [CallUpdate None (Some 1%Z) boolean (N.lor Rel.lt Rel.gt)]).
  - apply balanced_update; [done | by vm_compute |].
    apply balanced_get, balanced_nil.
  - apply balanced_update; [done | by vm_compute | apply balanced_nil].
Qed.

Lemma example_calls_values_balanced : balanced example_calls_values.
Proof.
  apply balanced_update; [done | by vm_compute |].
  apply (balanced_bracket
           [CallUpdate (Some example_x) (Some example_y) unsigned Rel.eq] []).
  - apply balanced_update; [done | by vm_compute | apply balanced_nil].
  - apply balanced_nil.
Qed.

Lemma example_cond_ok : control_ok example_cond.
Proof.
  intros tr _. exists example_x, example_y.
  split; [done|]. split; [done|]. by intros [Hb|Hb].
Qed.

Lemma example_cond'_ok : control_ok example_cond'.
Proof.
  intros tr _. exists example_x, example_y.
  split; [done|]. split; [done|]. by intros [Hb|Hb].
Qed.

Lemma example_fn_tree_ok :
  tree_ok example_fn_idom example_fn_Child example_fn_Sibling ()
    example_fn_tree.
Proof.
  apply tree_ok_node; [done | by repeat constructor |].
  repeat constructor.
Qed.

Lemma example_fn_NoDup : NoDup (nodes example_fn_tree).
Proof. apply (bool_decide_unpack _). by vm_compute. Qed.

Lemma example_fn_ok : Forall (block_ok example_fn) (nodes example_fn_tree).
Proof.
  apply Forall_forall. intros x _ Hk.
  destruct x as [|[|x]]; [| |discriminate Hk].
  - split; [|simpl; lia]. exists example_cond.
    split; [done | apply example_cond_ok].
  - split; [|simpl; lia]. exists example_cond'.
    split; [done | apply example_cond'_ok].
Qed.

Lemma reachable_canonical_witness :
  reachable example_ID example_table
  ∧ (∀ p r, facts example_table !! p = Some r →
       lessByID example_ID (p_w p) (p_v p) = false ∧ r ≤ 7)
  ∧ (∀ e, e ∈ stack example_table →
       lessByID example_ID (p_w (f_p e)) (p_v (f_p e)) = false ∧ f_r e ≤ 7)
  ∧ (∀ x y d r,
       facts example_table !! mkPair (Some x) (Some y) d = Some r →
       (example_ID x ≤ example_ID y)%Z).
Proof.
  split; [apply example_table_reachable|].
  apply (reachable_canonical example_ID example_table).
  apply example_table_reachable.
Defined.

Lemma update_frame_witness :
  update example_ID newFactsTable (Some 1%Z) (Some 2%Z) signed Rel.lt
  = Some example_table
  ∧ (∃ e, stack example_table = e :: stack newFactsTable
          ∧ f_p e = canon example_ID (Some 1%Z) (Some 2%Z) signed)
  ∧ (∀ q, q ≠ canon example_ID (Some 1%Z) (Some 2%Z) signed →
       facts example_table !! q = facts (newFactsTable (V := Z)) !! q)
  ∧ (∀ v' w' d',
       canon example_ID v' w' d'
       ≠ canon example_ID (Some 1%Z) (Some 2%Z) signed →
       get example_ID example_table v' w' d'
       = get example_ID newFactsTable v' w' d')
  ∧ (∀ v' w' d', d' ≠ signed →
       get example_ID example_table v' w' d'
       = get example_ID newFactsTable v' w' d').
Proof.
  split; [reflexivity|].
  apply (update_frame example_ID newFactsTable (Some 1%Z) (Some 2%Z) signed
           Rel.lt example_table).
  reflexivity.
Defined.

Lemma update_with_get_is_noop_witness :
  reachable example_ID example_table
  ∧ get example_ID example_table (Some 1%Z) (Some 2%Z) signed = Some Rel.lt
  ∧ ∃ ft',
      update example_ID example_table (Some 1%Z) (Some 2%Z) signed Rel.lt
      = Some ft'
      ∧ ∀ v' w' d', get example_ID ft' v' w' d'
                    = get example_ID example_table v' w' d'.
Proof.
  split; [apply example_table_reachable|]. split; [reflexivity|].
  apply (update_with_get_is_noop example_ID example_table (Some 1%Z)
           (Some 2%Z) signed Rel.lt).
  - apply example_table_reachable.
  - reflexivity.
Defined.

Lemma update_commutes_witness :
  Rel.lt ≤ 7 ∧ N.lor Rel.lt Rel.eq ≤ 7
  ∧ ∃ ft1 ft12 ft2 ft21,
      update example_ID example_table_any (Some 1%Z) (Some 2%Z) signed Rel.lt
      = Some ft1
      ∧ update example_ID ft1 (Some 2%Z) (Some 3%Z) unsigned
          (N.lor Rel.lt Rel.eq) = Some ft12
      ∧ update example_ID example_table_any (Some 2%Z) (Some 3%Z) unsigned
          (N.lor Rel.lt Rel.eq) = Some ft2
      ∧ update example_ID ft2 (Some 1%Z) (Some 2%Z) signed Rel.lt = Some ft21
      ∧ facts ft12 = facts ft21
      ∧ (∀ v w d, get example_ID ft12 v w d = get example_ID ft21 v w d)
      ∧ (reachable example_ID example_table_any →
         Some 1%Z = Some 2%Z → Some 2%Z = Some 3%Z → signed = unsigned →
         ∃ r_prior,
           get example_ID example_table_any (Some 1%Z) (Some 2%Z) signed
           = Some r_prior
           ∧ get example_ID ft12 (Some 1%Z) (Some 2%Z) signed
             = Some (N.land (N.land r_prior Rel.lt) (N.lor Rel.lt Rel.eq))).
Proof.
  split; [by vm_compute|]. split; [by vm_compute|].
  apply (update_commutes example_ID example_table_any (Some 1%Z) (Some 2%Z)
           signed Rel.lt (Some 2%Z) (Some 3%Z) unsigned
           (N.lor Rel.lt Rel.eq)); by vm_compute.
Defined.

Lemma updates_only_narrow_witness :
  reachable example_ID example_table
  ∧ Forall (λ o, match o with
                 | DoUpdate _ _ _ r => r ≤ 7
                 | DoGet _ _ _ => True
                 end) example_ops
  ∧ ∃ ft',
      run example_ID example_ops example_table = Some ft'
      ∧ reachable example_ID ft'
      ∧ ∀ v w d, ∃ r r' : relation,
          get example_ID example_table v w d = Some r
          ∧ get example_ID ft' v w d = Some r'
          ∧ mask_subset r' r.
Proof.
  assert (Hops : Forall (λ o, match o with
                              | DoUpdate _ _ _ r => r ≤ 7
                              | DoGet _ _ _ => True
                              end) example_ops)
    by (repeat constructor; by vm_compute).
  split; [apply example_table_reachable|]. split; [exact Hops|].
  apply (updates_only_narrow example_ID example_ops example_table).
  - apply example_table_reachable.
  - exact Hops.
Defined.

Lemma nested_brackets_preserve_get_witness :
  reachable example_ID example_table
  ∧ balanced example_calls
  ∧ ∃ ft',
      run_calls example_ID (CallCheckpoint :: example_calls ++ [CallRestore])
        example_table = Some ft'
      ∧ stack ft' = stack example_table
      ∧ ∀ v w d, get example_ID ft' v w d = get example_ID example_table v w d.
Proof.
  split; [apply example_table_reachable|].
  split; [apply example_calls_balanced|].
  apply (nested_brackets_preserve_get example_ID example_calls example_table).
  - apply example_table_reachable.
  - apply example_calls_balanced.
Defined.

Lemma updateRestrictions_effect_witness :
  reachable example_ID example_table
  ∧ N.lor signed unsigned ≤ 15 ∧ Rel.lt ≤ 7
  ∧ (N.lor signed unsigned = 0 ∨ Branch.negative = Branch.unknown →
     updateRestrictions example_ID example_table (N.lor signed unsigned)
       (Some 1%Z) (Some 3%Z) Rel.lt Branch.negative = Some example_table)
  ∧ (N.lor signed unsigned ≠ 0 → Branch.negative ≠ Branch.unknown →
     ∃ ft',
       updateRestrictions example_ID example_table (N.lor signed unsigned)
         (Some 1%Z) (Some 3%Z) Rel.lt Branch.negative = Some ft'
       ∧ reachable example_ID ft'
       ∧ length (stack ft')
         = (length (domain_bits (N.lor signed unsigned))
            + length (stack example_table))%nat
       ∧ (∀ d, ∃ m : relation,
            get example_ID example_table (Some 1%Z) (Some 3%Z) d = Some m
            ∧ get example_ID ft' (Some 1%Z) (Some 3%Z) d
              = Some (if decide (d ∈ domain_bits (N.lor signed unsigned))
                      then N.land m
                             (if decide (Branch.negative = Branch.negative)
                              then complement Rel.lt else Rel.lt)
                      else m))
       ∧ (∀ v' w' d',
            canon example_ID v' w' d'
            ≠ canon example_ID (Some 1%Z) (Some 3%Z) d' →
            get example_ID ft' v' w' d'
            = get example_ID example_table v' w' d')).
Proof.
  split; [apply example_table_reachable|].
  split; [by vm_compute|]. split; [by vm_compute|].
  apply (updateRestrictions_effect example_ID example_table
           (N.lor signed unsigned) (Some 1%Z) (Some 3%Z) Rel.lt
           Branch.negative).
  - apply example_table_reachable.
  - by vm_compute.
  - by vm_compute.
Defined.

Lemma domainRelationTable_entries_witness :
  domainRelationTable OpEq64 = Some (N.lor signed unsigned, Rel.eq)
  ∧ N.lor signed unsigned ∈ [signed; unsigned; N.lor signed unsigned; pointer]
  ∧ N.land (N.lor signed unsigned) boolean = 0
  ∧ 0 < Rel.eq < 7
  ∧ 0 < complement Rel.eq < 7
  ∧ N.land Rel.eq (complement Rel.eq) = 0.
Proof.
  split; [reflexivity|].
  apply (domainRelationTable_entries OpEq64 (N.lor signed unsigned) Rel.eq).
  reflexivity.
Defined.

Lemma simplifyBlock_returns_witness :
  reachable ID example_facts
  ∧ (example_Kind 1%nat = BlockIf →
     ∃ c, example_Control 1%nat = Some c ∧ control_ok c)
  ∧ is_Some (simplifyBlock example_Kind example_Control example_debug
               example_Line example_facts 1%nat)
  ∧ (example_Kind 1%nat ≠ BlockIf →
     simplifyBlock example_Kind example_Control example_debug example_Line
       example_facts 1%nat = Some (Branch.unknown, [])).
Proof.
  assert (Hc : example_Kind 1%nat = BlockIf →
               ∃ c, example_Control 1%nat = Some c ∧ control_ok c).
  { intros _. exists example_cond. split; [done | apply example_cond_ok]. }
  split; [apply example_facts_reachable|]. split; [exact Hc|].
  apply (simplifyBlock_returns example_Kind example_Control example_debug
           example_Line example_facts 1%nat).
  - apply example_facts_reachable.
  - exact Hc.
Defined.

Lemma simplifyBlock_diagnostics_witness :
  simplifyBlock example_Kind example_Control example_debug example_Line
    example_facts 1%nat
  = Some (Branch.positive, [Warnl 1 "Proved %s" OpLess64])
  ∧ (Branch.positive = Branch.unknown →
     [Warnl 1 "Proved %s" OpLess64] = [])
  ∧ (¬ (0 < example_debug 1%nat)%Z → [Warnl 1 "Proved %s" OpLess64] = [])
  ∧ (Branch.positive ≠ Branch.unknown → (0 < example_debug 1%nat)%Z →
     ∃ (fmt : string) c,
       example_Control 1%nat = Some c
       ∧ [Warnl 1 "Proved %s" OpLess64]
         = [Warnl (example_Line 1%nat) fmt (VOp c)])
  ∧ (length [Warnl 1 "Proved %s" OpLess64] ≤ 1)%nat.
Proof.
  split; [by vm_compute|].
  apply (simplifyBlock_diagnostics example_Kind example_Control example_debug
           example_Line example_facts 1%nat Branch.positive
           [Warnl 1 "Proved %s" OpLess64]).
  by vm_compute.
Defined.

Lemma simplifyBlock_after_bracket_witness :
  reachable ID example_facts
  ∧ balanced example_calls_values
  ∧ ∃ ft',
      run_calls ID (CallCheckpoint :: example_calls_values ++ [CallRestore])
        example_facts = Some ft'
      ∧ ∀ b : nat,
          simplifyBlock example_Kind example_Control example_debug
            example_Line ft' b
          = simplifyBlock example_Kind example_Control example_debug
              example_Line example_facts b.
Proof.
  split; [apply example_facts_reachable|].
  split; [apply example_calls_values_balanced|].
  apply (simplifyBlock_after_bracket example_Kind example_Control
           example_debug example_Line example_calls_values example_facts).
  - apply example_facts_reachable.
  - apply example_calls_values_balanced.
Defined.

Lemma learn_decides_same_control_witness :
  reachable ID (newFactsTable (V := Value))
  ∧ Branch.negative ≠ Branch.unknown
  ∧ get ID newFactsTable None (Some example_cond) boolean = Some Rel.any
  ∧ ∃ ft',
      learn newFactsTable (Some example_cond) Branch.negative = Some ft'
      ∧ ∀ b : nat, example_Kind b = BlockIf →
          example_Control b = Some example_cond →
          fst <$> simplifyBlock example_Kind example_Control example_debug
                    example_Line ft' b = Some Branch.negative.
Proof.
  split; [apply reach_new|]. split; [done|]. split; [reflexivity|].
  apply (learn_decides_same_control example_Kind example_Control
           example_debug example_Line newFactsTable example_cond
           Branch.negative Rel.any).
  - apply reach_new.
  - done.
  - intros tr _. by exists example_x, example_y.
  - reflexivity.
  - intros i Hi. destruct i as [|[|[| |]|]]; by vm_compute in Hi |- *.
Defined.

Lemma learn_decides_same_comparison_witness :
  reachable ID (newFactsTable (V := Value))
  ∧ Branch.positive ≠ Branch.unknown
  ∧ domainRelationTable (VOp example_cond) = Some (signed, Rel.lt)
  ∧ domainRelationTable (VOp example_cond') = Some (signed, Rel.lt)
  ∧ get ID newFactsTable None (Some example_cond') boolean = Some Rel.any
  ∧ get ID newFactsTable (Some example_x) (Some example_y) signed
    = Some Rel.any
  ∧ ∃ ft',
      learn newFactsTable (Some example_cond) Branch.positive = Some ft'
      ∧ ∀ b : nat, example_Kind b = BlockIf →
          example_Control' b = Some example_cond' →
          fst <$> simplifyBlock example_Kind example_Control' example_debug
                    example_Line ft' b = Some Branch.positive.
Proof.
  split; [apply reach_new|]. split; [done|]. split; [reflexivity|].
  split; [reflexivity|]. split; [reflexivity|]. split; [reflexivity|].
  apply (learn_decides_same_comparison example_Kind example_Control'
           example_debug example_Line newFactsTable example_cond
           example_cond' example_x example_y signed Rel.lt Branch.positive
           signed Rel.any); try reflexivity.
  - apply reach_new.
  - done.
  - by vm_compute.
Defined.

Lemma prove_restores_table_witness :
  tree_ok example_fn_idom example_fn_Child example_fn_Sibling ()
    example_fn_tree
  ∧ NoDup (nodes example_fn_tree)
  ∧ Forall (block_ok example_fn) (nodes example_fn_tree)
  ∧ example_fn_idom (root example_fn_tree) = None
  ∧ ∃ ft' σ' out,
      (∀ fuel,
         prove example_fn_Preds example_debug example_Line
           example_fn_isAncestorEq example_fn_idom example_fn_Child
           example_fn_Sibling (2 * length (nodes example_fn_tree) + fuel) ()
           (root example_fn_tree) example_fn
         = Some (ft', σ', out))
      ∧ stack ft' = stack (newFactsTable (V := Value))
      ∧ ∀ v w d, get ID ft' v w d = get ID newFactsTable v w d.
Proof.
  split; [apply example_fn_tree_ok|]. split; [apply example_fn_NoDup|].
  split; [apply example_fn_ok|]. split; [reflexivity|].
  apply (prove_restores_table example_fn_Preds example_debug example_Line
           example_fn_isAncestorEq example_fn_idom example_fn_Child
           example_fn_Sibling () example_fn example_fn_tree).
  - apply example_fn_tree_ok.
  - apply example_fn_NoDup.
  - apply example_fn_ok.
  - reflexivity.
Defined.

Lemma prove_rewrites_only_If_witness :
  tree_ok example_fn_idom example_fn_Child example_fn_Sibling ()
    example_fn_tree
  ∧ NoDup (nodes example_fn_tree)
  ∧ Forall (block_ok example_fn) (nodes example_fn_tree)
  ∧ example_fn_idom (root example_fn_tree) = None
  ∧ ∃ ft' σ' out,
      (∀ fuel,
         prove example_fn_Preds example_debug example_Line
           example_fn_isAncestorEq example_fn_idom example_fn_Child
           example_fn_Sibling (2 * length (nodes example_fn_tree) + fuel) ()
           (root example_fn_tree) example_fn
         = Some (ft', σ', out))
      ∧ (∀ x, x ∉ nodes example_fn_tree → agree σ' example_fn x)
      ∧ (∀ x, same_or_rewritten example_fn σ' x).
Proof.
  split; [apply example_fn_tree_ok|]. split; [apply example_fn_NoDup|].
  split; [apply example_fn_ok|]. split; [reflexivity|].
  apply (prove_rewrites_only_If example_fn_Preds example_debug example_Line
           example_fn_isAncestorEq example_fn_idom example_fn_Child
           example_fn_Sibling () example_fn example_fn_tree).
  - apply example_fn_tree_ok.
  - apply example_fn_NoDup.
  - apply example_fn_ok.
  - reflexivity.
Defined.

Lemma prove_quiet_witness :
  tree_ok example_fn_idom example_fn_Child example_fn_Sibling ()
    example_fn_tree
  ∧ NoDup (nodes example_fn_tree)
  ∧ Forall (block_ok example_fn) (nodes example_fn_tree)
  ∧ example_fn_idom (root example_fn_tree) = None
  ∧ (∀ x, ¬ (0 < example_fn_quiet x)%Z)
  ∧ ∃ ft' σ',
      ∀ fuel,
        prove example_fn_Preds example_fn_quiet example_Line
          example_fn_isAncestorEq example_fn_idom example_fn_Child
          example_fn_Sibling (2 * length (nodes example_fn_tree) + fuel) ()
          (root example_fn_tree) example_fn
        = Some (ft', σ', []).
Proof.
  split; [apply example_fn_tree_ok|]. split; [apply example_fn_NoDup|].
  split; [apply example_fn_ok|]. split; [reflexivity|].
  split; [by intros x|].
  apply (prove_quiet example_fn_Preds example_fn_quiet example_Line
           example_fn_isAncestorEq example_fn_idom example_fn_Child
           example_fn_Sibling () example_fn example_fn_tree).
  - apply example_fn_tree_ok.
  - apply example_fn_NoDup.
  - apply example_fn_ok.
  - reflexivity.
  - by intros x.
Defined.
